(** * FERS model builder: entity graph, graph transformer, deflection reconstructor

    A shallow embedding of [fers_core/fers/fers.py] and
    [fers_core/fers/deformation_utils.py].

    Python objects that the code mutates after sharing them (Members) live in
    an explicit store and are referred to by location; objects that the code
    only reads (Nodes, MemberSets) are immutable records.  The process-wide id
    counters are threaded through a state-and-exception monad.

    Coordinates and the numeric attributes that are only carried along are
    integers; the deflection reconstructor computes in the arithmetic it is
    given, of which no law is assumed.  A
    location outside the store reads as a default Member: Python has no such
    reference, and the results that read the store assume every Member of
    the model is in it. *)

From Stdlib Require Import ZArith List Lia QArith Qcanon Ascii String.
From stdpp Require Import base gmap sets list strings.

Open Scope Z_scope.

(** ** Data model *)

(** Sections, hinges and nodal supports are shared and never copied: the
    model refers to them by an opaque handle. *)
Definition SectionRef := Z.
Definition HingeRef := Z.
Definition SupportRef := Z.

(** A location in the Member store (Python object identity). *)
Abbreviation loc := nat.

Record Node := mkNode {
  node_id : Z;
  node_X : Z;
  node_Y : Z;
  node_Z : Z;
  nodal_support : option SupportRef;
  node_classification : option string
}.

Record Member := mkMember {
  member_id : Z;
  start_node : Node;
  end_node : Node;
  section : SectionRef;
  start_hinge : option HingeRef;
  end_hinge : option HingeRef;
  member_classification : string;
  rotation_angle : option Z;
  chi : option Z;
  reference_member : option loc;
  reference_node : option Node
}.

Record MemberSet := mkMemberSet {
  member_set_id : Z;
  members : list loc;
  classification : string;
  L_y : option Z;
  L_z : option Z
}.

(** [FERS.__init__]: the model owns its member sets; load cases, load
    combinations and imperfection cases start empty and no function modelled
    here touches them. *)
Record FERS := mkFERS {
  member_sets : list MemberSet
}.

#[global] Instance Node_eq_dec : EqDecision Node.
Proof. solve_decision. Defined.
#[global] Instance Member_eq_dec : EqDecision Member.
Proof. solve_decision. Defined.
#[global] Instance MemberSet_eq_dec : EqDecision MemberSet.
Proof. solve_decision. Defined.

#[global] Instance Node_inhabited : Inhabited Node :=
  populate (mkNode 0 0 0 0 None None).
#[global] Instance Member_inhabited : Inhabited Member :=
  populate (mkMember 0 inhabitant inhabitant 0 None None "" None None None None).

(** ** The interpreter state: id counters and the Member store *)

Record World := mkWorld {
  node_counter : Z;
  member_counter : Z;
  memberset_counter : Z;
  heap : list Member
}.

(** The exceptions the modelled code can raise: a failed dict subscript
    carries the missing key, a failed list subscript nothing, a failed
    [re.compile] the pattern. *)
Inductive Exn :=
| KeyError (key : list Z)
| IndexError
| ReError (pattern : string).

Inductive Result (A : Type) :=
| Ok (a : A)
| Raise (e : Exn).
Arguments Ok {A} a.
Arguments Raise {A} e.

Definition Py (A : Type) : Type := World → Result (A * World).

Definition ret {A} (a : A) : Py A := λ w, Ok (a, w).
Definition bind {A B} (c : Py A) (k : A → Py B) : Py B :=
  λ w, match c w with
       | Ok (a, w') => k a w'
       | Raise e => Raise e
       end.
Definition raise {A} (e : Exn) : Py A := λ _, Raise e.

Notation "x <- c ;; k" := (bind c (λ x, k))
  (at level 100, c at next level, right associativity).

(** [for x in xs: s = body(s, x)] with the loop-carried locals [s]. *)
Fixpoint for_each {A S} (xs : list A) (body : S → A → Py S) (s : S) : Py S :=
  match xs with
  | [] => ret s
  | x :: r => s' <- body s x ;; for_each r body s'
  end.

(** Reading an attribute of the object at a location, and assigning
    [obj.reference_member = v]. *)
Definition load (l : loc) : Py Member := λ w, Ok (heap w !!! l, w).

Definition with_reference_member (m : Member) (v : option loc) : Member :=
  mkMember (member_id m) (start_node m) (end_node m) (section m)
           (start_hinge m) (end_hinge m) (member_classification m)
           (rotation_angle m) (chi m) v (reference_node m).

Definition set_reference_member (l : loc) (v : option loc) : Py unit :=
  λ w, Ok (tt, mkWorld (node_counter w) (member_counter w)
                       (memberset_counter w)
                       (<[l := with_reference_member (heap w !!! l) v]> (heap w))).

(** [d[key]] on a dict: a missing key raises [KeyError(key)]. *)
Definition subscript (d : gmap (list Z) Node) (key : list Z) : Py Node :=
  match d !! key with
  | Some v => ret v
  | None => raise (KeyError key)
  end.

(** [range(a, b)] *)
Definition range (a b : Z) : list Z :=
  (λ k : nat, a + Z.of_nat k) <$> seq 0 (Z.to_nat (b - a)).

(** ** Constructors of the entity classes *)

(** Modelled from the spec: the class [Node] (FERS_core.nodes.node) is not
    part of the sources.  A Node takes its id from the process-wide Node
    counter, which then advances by one; nodal support and classification
    are optional keyword arguments defaulting to [None]. *)
Definition Node_new (x y z : Z) (support : option SupportRef)
    (cls : option string) : Py Node :=
  λ w, Ok (mkNode (node_counter w) x y z support cls,
           mkWorld (node_counter w + 1) (member_counter w)
                   (memberset_counter w) (heap w)).

(** Modelled from the spec: the class [Member] (FERS_core.members.member) is
    not part of the sources.  A Member takes its id from the process-wide
    Member counter; hinges, rotation angle, chi and the two references are
    optional keyword arguments defaulting to [None].  The new object is put
    at the end of the store and its location is returned.  The [material]
    keyword that [translate_member_set] passes repeats [section.material]
    and has no field of its own. *)
Definition Member_new (s e : Node) (sec : SectionRef)
    (sh eh : option HingeRef) (cls : string) (rot ch : option Z)
    (rm : option loc) (rn : option Node) : Py loc :=
  λ w, Ok (length (heap w),
           mkWorld (node_counter w) (member_counter w + 1)
                   (memberset_counter w)
                   (heap w ++ [mkMember (member_counter w) s e sec sh eh cls
                                        rot ch rm rn])).

(** Modelled from the spec: the class [MemberSet]
    (FERS_core.members.memberset) is not part of the sources.  [L_y] and
    [L_z] are optional keyword arguments defaulting to [None]; the id is the
    [member_set_id] argument when one is given and is taken from the
    process-wide MemberSet counter otherwise. *)
Definition MemberSet_new (ms : list loc) (cls : string) (ly lz : option Z)
    (msid : option Z) : Py MemberSet :=
  λ w, match msid with
       | Some i => Ok (mkMemberSet i ms cls ly lz, w)
       | None =>
           Ok (mkMemberSet (memberset_counter w) ms cls ly lz,
               mkWorld (node_counter w) (member_counter w)
                       (memberset_counter w + 1) (heap w))
       end.

(** ** Enumeration: [get_all_member_sets], [get_all_members], [get_all_nodes] *)

Definition get_all_member_sets (self : FERS) : list MemberSet :=
  member_sets self.

(** One [if x.id not in ids: out.append(x); ids.add(x.id)] step. *)
Definition collect {A} (key : A → Z) (acc : list A * gset Z) (x : A)
    : list A * gset Z :=
  if decide (key x ∈ acc.2) then acc else (acc.1 ++ [x], acc.2 ∪ {[key x]}).

Definition get_all_members (h : list Member) (self : FERS) : list loc :=
  fst (foldl (λ acc member_set,
                foldl (λ acc member,
                         collect (λ l, member_id (h !!! l)) acc member)
                      acc (members member_set))
             ([], ∅) (member_sets self)).

Definition get_all_nodes (h : list Member) (self : FERS) : list Node :=
  fst (foldl (λ acc member_set,
                foldl (λ acc member,
                         collect node_id
                           (collect node_id acc (start_node (h !!! member)))
                           (end_node (h !!! member)))
                      acc (members member_set))
             ([], ∅) (member_sets self)).

(** The walks the two enumerations make, before deduplication. *)
Definition member_walk (self : FERS) : list loc :=
  mjoin (members <$> member_sets self).

Definition endpoints (h : list Member) (l : loc) : list Node :=
  [start_node (h !!! l); end_node (h !!! l)].

Definition node_walk (h : list Member) (self : FERS) : list Node :=
  mjoin (endpoints h <$> member_walk self).

(** The spec's words for deduplicated enumeration: every key once, the first
    element seen with a key is the one kept, in the order of first sight. *)
Fixpoint first_seen {A} (key : A → Z) (xs : list A) : list A :=
  match xs with
  | [] => []
  | x :: r => x :: filter (λ y, key y ≠ key x) (first_seen key r)
  end.

(** ** The graph transformer *)

Definition FERS_new : FERS := mkFERS [].

Definition add_member_set (self : FERS) (member_set : MemberSet) : FERS :=
  mkFERS (member_sets self ++ [member_set]).

Definition Vec3 : Type := Z * Z * Z.
Definition vx (v : Vec3) : Z := v.1.1.
Definition vy (v : Vec3) : Z := v.1.2.
Definition vz (v : Vec3) : Z := v.2.

(** [translate_member_set] (a static method, lines 102-125): the loop body
    makes two fresh Nodes for every Member. *)
Definition translate_member_of_set (translation_vector : Vec3)
    (new_members : list loc) (l : loc) : Py (list loc) :=
  member <- load l ;;
  new_start_node <-
    Node_new (node_X (start_node member) + vx translation_vector)
             (node_Y (start_node member) + vy translation_vector)
             (node_Z (start_node member) + vz translation_vector)
             (nodal_support (start_node member)) None ;;
  new_end_node <-
    Node_new (node_X (end_node member) + vx translation_vector)
             (node_Y (end_node member) + vy translation_vector)
             (node_Z (end_node member) + vz translation_vector)
             (nodal_support (end_node member)) None ;;
  new_member <-
    Member_new new_start_node new_end_node (section member) None None
               (member_classification member) None None None None ;;
  ret (new_members ++ [new_member]).

Definition translate_member_set (member_set : MemberSet)
    (translation_vector : Vec3) : Py MemberSet :=
  new_members <-
    for_each (members member_set)
      (translate_member_of_set translation_vector) [] ;;
  MemberSet_new new_members (classification member_set) None None None.

(** The dict [member_mapping] of [create_combined_model_pattern], keyed by
    Member object, in insertion order (the order [.values()] iterates in).
    Modelled from the spec: [Member] is keyed by object identity, as the
    spec's mapping from original Member to the list of its duplicates. *)
Definition MemberMapping : Type := list (loc * list loc).

Fixpoint mm_get (mm : MemberMapping) (k : loc) : option (list loc) :=
  match mm with
  | [] => None
  | (k', v) :: r => if decide (k' = k) then Some v else mm_get r k
  end.

(** [if k not in mm: mm[k] = []] followed by [mm[k].append(v)]. *)
Fixpoint mm_append (mm : MemberMapping) (k : loc) (v : loc) : MemberMapping :=
  match mm with
  | [] => [(k, [v])]
  | (k', vs) :: r =>
      if decide (k' = k) then (k', vs ++ [v]) :: r
      else (k', vs) :: mm_append r k v
  end.

(** First loop nest of [create_combined_model_pattern] (lines 148-166):
    the body for one original node in copy [i].  The dict is keyed by the
    tuples [(original_node.id, i)]; the membership test is made with the
    coordinate tuple. *)
Definition replicate_node (i : Z) (total_translation : Vec3)
    (node_mapping : gmap (list Z) Node) (original_node : Node)
    : Py (gmap (list Z) Node) :=
  let new_node_coords :=
    (node_X original_node + vx total_translation,
     node_Y original_node + vy total_translation,
     node_Z original_node + vz total_translation) in
  if decide (node_mapping !! [vx new_node_coords; vy new_node_coords;
                              vz new_node_coords] = None)
  then
    new_node <- Node_new (vx new_node_coords) (vy new_node_coords)
                         (vz new_node_coords)
                         (nodal_support original_node)
                         (node_classification original_node) ;;
    ret (<[ [node_id original_node; i] := new_node ]> node_mapping)
  else ret node_mapping.

Definition replicate_nodes (original_model : FERS) (count : Z)
    (spacing_vector : Vec3) : Py (gmap (list Z) Node) :=
  for_each (range 1 count)
    (λ node_mapping i,
       let total_translation :=
         (vx spacing_vector * i, vy spacing_vector * i,
          vz spacing_vector * i) in
       nodes <- (λ w, Ok (get_all_nodes (heap w) original_model, w)) ;;
       for_each nodes (replicate_node i total_translation) node_mapping)
    ∅.

(** Second loop nest (lines 168-202): the body for one original member in
    copy [i]. *)
Definition replicate_member (node_mapping : gmap (list Z) Node) (i : Z)
    (st : list loc * MemberMapping) (l : loc)
    : Py (list loc * MemberMapping) :=
  member <- load l ;;
  new_start_node <- subscript node_mapping [node_id (start_node member); i] ;;
  new_end_node <- subscript node_mapping [node_id (end_node member); i] ;;
  new_reference_node <-
    match reference_node member with
    | Some rn => n <- subscript node_mapping [node_id rn; i] ;; ret (Some n)
    | None => ret None
    end ;;
  new_member <-
    Member_new new_start_node new_end_node (section member)
               (start_hinge member) (end_hinge member)
               (member_classification member)
               (rotation_angle member) (chi member)
               (reference_member member) new_reference_node ;;
  ret (st.1 ++ [new_member], mm_append st.2 l new_member).

Definition replicate_member_set (node_mapping : gmap (list Z) Node) (i : Z)
    (st : FERS * MemberMapping) (original_member_set : MemberSet)
    : Py (FERS * MemberMapping) :=
  r <- for_each (members original_member_set)
         (replicate_member node_mapping i) ([], st.2) ;;
  translated_member_set <-
    MemberSet_new r.1 (classification original_member_set)
                  (L_y original_member_set) (L_z original_member_set) None ;;
  ret (add_member_set st.1 translated_member_set, r.2).

Definition replicate_member_sets (original_model : FERS) (count : Z)
    (node_mapping : gmap (list Z) Node) (combined_model : FERS)
    : Py (FERS * MemberMapping) :=
  for_each (range 1 count)
    (λ st i,
       for_each (get_all_member_sets original_model)
         (replicate_member_set node_mapping i) st)
    (combined_model, []).

(** Third loop nest (lines 204-211): re-pointing [reference_member].
    [member_mapping.get(m, [None])[0]]; a Member object is truthy, so the
    test [if new_member.reference_member] is the test for [None]. *)
Definition first_duplicate (member_mapping : MemberMapping) (m : loc)
    : Py (option loc) :=
  match mm_get member_mapping m with
  | None => ret None
  | Some [] => raise IndexError
  | Some (d :: _) => ret (Some d)
  end.

Definition resolve_reference (member_mapping : MemberMapping) (_ : unit)
    (new_member : loc) : Py unit :=
  m <- load new_member ;;
  match reference_member m with
  | Some r =>
      new_reference_member <- first_duplicate member_mapping r ;;
      set_reference_member new_member new_reference_member
  | None => ret tt
  end.

Definition resolve_references (member_mapping : MemberMapping) : Py unit :=
  for_each (member_mapping.*2)
    (λ _ new_member_lists,
       for_each new_member_lists (resolve_reference member_mapping) tt)
    tt.

Definition create_combined_model_pattern (original_model : FERS) (count : Z)
    (spacing_vector : Vec3) : Py FERS :=
  let combined_model :=
    foldl add_member_set FERS_new (get_all_member_sets original_model) in
  node_mapping <- replicate_nodes original_model count spacing_vector ;;
  r <- replicate_member_sets original_model count node_mapping
         combined_model ;;
  _ <- resolve_references r.2 ;;
  ret r.1.

(** [translate_model] (lines 215-260). *)
Definition translate_node (translation_vector : Vec3)
    (node_translation_map : gmap Z Node) (original_node : Node)
    : Py (gmap Z Node) :=
  translated_node <-
    Node_new (node_X original_node + vx translation_vector)
             (node_Y original_node + vy translation_vector)
             (node_Z original_node + vz translation_vector) None None ;;
  ret (<[ node_id original_node := translated_node ]> node_translation_map).

Definition subscript_id (d : gmap Z Node) (key : Z) : Py Node :=
  match d !! key with
  | Some v => ret v
  | None => raise (KeyError [key])
  end.

Definition translate_member (node_translation_map : gmap Z Node)
    (new_members : list loc) (l : loc) : Py (list loc) :=
  member <- load l ;;
  new_start_node <-
    subscript_id node_translation_map (node_id (start_node member)) ;;
  new_end_node <-
    subscript_id node_translation_map (node_id (end_node member)) ;;
  new_member <-
    Member_new new_start_node new_end_node (section member)
               (start_hinge member) (end_hinge member)
               (member_classification member) None None None None ;;
  ret (new_members ++ [new_member]).

Definition translate_member_set_of_model (node_translation_map : gmap Z Node)
    (new_model : FERS) (original_member_set : MemberSet) : Py FERS :=
  new_members <-
    for_each (members original_member_set)
      (translate_member node_translation_map) [] ;;
  new_member_set <-
    MemberSet_new new_members (classification original_member_set)
                  None None (Some (member_set_id original_member_set)) ;;
  ret (add_member_set new_model new_member_set).

Definition translate_model (model : FERS) (translation_vector : Vec3)
    : Py FERS :=
  nodes <- (λ w, Ok (get_all_nodes (heap w) model, w)) ;;
  node_translation_map <-
    for_each nodes (translate_node translation_vector) ∅ ;;
  for_each (get_all_member_sets model)
    (translate_member_set_of_model node_translation_map) FERS_new.

(** ** The query layer: [get_membersets_by_classification] *)

(** Python's [re] module and the Unicode table behind [\w] are outside the
    repository: the model takes the word-character test, [re.compile] and
    [Pattern.search] as parameters.  [re.compile] answers [None] where
    Python raises [re.error].  Strings are sequences of 8-bit characters. *)
Section Classification.
Variable is_word_char : ascii → bool.
Variable Pattern : Type.
Variable re_compile : string → option Pattern.
Variable re_search : Pattern → string → bool.

(** [needle in hay] on strings. *)
Fixpoint contains (needle hay : string) : bool :=
  String.prefix needle hay ||
  match hay with
  | EmptyString => false
  | String _ r => contains needle r
  end.

(** [re.match(r"^\w+$", s)]: one or more word characters, then [$], which
    Python matches at the end of the string and also just before a
    newline that ends the string. *)
Fixpoint dollar_after_words (s : string) : bool :=
  match s with
  | EmptyString => true
  | String c r =>
      (Ascii.eqb c "010"%char && String.eqb r EmptyString) ||
      (is_word_char c && dollar_after_words r)
  end.

Definition match_word_token (s : string) : bool :=
  match s with
  | EmptyString => false
  | String c r => is_word_char c && dollar_after_words r
  end.

Definition get_membersets_by_classification (self : FERS)
    (classification_pattern : string) : Result (list MemberSet) :=
  if match_word_token classification_pattern then
    Ok (filter (λ member_set,
                  contains classification_pattern
                           (classification member_set) = true)
               (member_sets self))
  else
    match re_compile classification_pattern with
    | None => Raise (ReError classification_pattern)
    | Some compiled_pattern =>
        Ok (filter (λ member_set,
                      re_search compiled_pattern
                                (classification member_set) = true)
                   (member_sets self))
    end.

(** The spec's words: a pure word-character token is a non-empty string
    of word characters. *)
Fixpoint all_word_chars (s : string) : bool :=
  match s with
  | EmptyString => true
  | String c r => is_word_char c && all_word_chars r
  end.

Definition pure_word_token (s : string) : bool :=
  match s with
  | EmptyString => false
  | String _ _ => all_word_chars s
  end.
End Classification.

(** A small engine for closed examples: it rejects a pattern holding an
    opening parenthesis and reads every other pattern literally. *)
Fixpoint has_paren (s : string) : bool :=
  match s with
  | EmptyString => false
  | String c r => Ascii.eqb c "("%char || has_paren r
  end.

Definition literal_compile (s : string) : option string :=
  if has_paren s then None else Some s.

Definition ascii_word_char (c : ascii) : bool :=
  let n := nat_of_ascii c in
  ((48 <=? n) && (n <=? 57) || (65 <=? n) && (n <=? 90) ||
   (97 <=? n) && (n <=? 122) || (n =? 95))%nat.

(** ** The deflection reconstructor: [interpolate_beam_local] *)

(** numpy arrays are lists and the arithmetic on them is element by
    element, in the order in which Python evaluates the expressions. *)
Module Deformation.

(** The numbers of numpy: a float type with the conversion from [int], the
    four operations, the unary minus and [**] with an [int] exponent.  They
    are the machine's, rounding included; no law of arithmetic is assumed
    of them. *)
Record Arithmetic : Type := mkArithmetic {
  number : Type;
  of_int : Z → number;
  add : number → number → number;
  sub : number → number → number;
  mul : number → number → number;
  div : number → number → number;
  neg : number → number;
  power : number → Z → number
}.

Section Numbers.
Variable A : Arithmetic.

Local Notation "x ⊕ y" := (add A x y) (at level 50, left associativity).
Local Notation "x ⊖ y" := (sub A x y) (at level 50, left associativity).
Local Notation "x ⊗ y" := (mul A x y) (at level 40, left associativity).
Local Notation "x ⊘ y" := (div A x y) (at level 40, left associativity).
Local Notation "x ^^ k" := (power A x k) (at level 30, right associativity).
Local Notation "# z" := (of_int A z) (at level 9).

(** [np.linspace(0, 1, n_points)].  With [div = n_points - 1] numpy
    computes [arange(0, n_points) * step + start], where [step] is
    [(stop - start) / div], when [div > 0], and
    [arange(0, n_points) * (stop - start) + start] otherwise; with more
    than one sample it then stores [stop] in the last place.  (The branch
    numpy has for a step that is zero is not taken: [1 / div] is not zero
    for a float [div].) *)
Definition linspace01 (n_points : nat) : list (number A) :=
  let start := #0 in
  let stop := #1 in
  let delta := stop ⊖ start in
  let div := (n_points - 1)%nat in
  let y := (λ k : nat, #(Z.of_nat k)) <$> seq 0 n_points in
  let y := if decide (0 < div)%nat
           then (λ x, x ⊗ (delta ⊘ #(Z.of_nat div))) <$> y
           else (λ x, x ⊗ delta) <$> y in
  let y := (λ x, x ⊕ start) <$> y in
  if decide (1 < n_points)%nat then <[(n_points - 1)%nat := stop]> y else y.

Definition Vec : Type := number A * number A * number A.

Definition interpolate_beam_local (xstart xend : number A)
    (local_disp_start local_disp_end local_rot_start local_rot_end : Vec)
    (n_points : nat) : list Vec :=
  let L := xend ⊖ xstart in
  let t := linspace01 n_points in
  let '(uxs, uys, uzs) := local_disp_start in
  let '(uxe, uye, uze) := local_disp_end in
  let '(rxs, rys, rzs) := local_rot_start in
  let '(rxe, rye, rze) := local_rot_end in
  let ux_vals := (λ t, uxs ⊕ (uxe ⊖ uxs) ⊗ t) <$> t in
  let slope_y0 := L ⊗ rzs in
  let slope_y1 := L ⊗ rze in
  let h1 := (λ t, #2 ⊗ t ^^ 3 ⊖ #3 ⊗ t ^^ 2 ⊕ #1) <$> t in
  let h2 := (λ t, #(-2) ⊗ t ^^ 3 ⊕ #3 ⊗ t ^^ 2) <$> t in
  let h3 := (λ t, t ^^ 3 ⊖ #2 ⊗ t ^^ 2 ⊕ t) <$> t in
  let h4 := (λ t, t ^^ 3 ⊖ t ^^ 2) <$> t in
  let hermite (a b c d : number A) : list (number A) :=
    zip_with (λ p q, p ⊕ q)
      (zip_with (λ p q, p ⊕ q)
         (zip_with (λ p q, p ⊕ q) ((λ x, a ⊗ x) <$> h1)
                   ((λ x, b ⊗ x) <$> h2))
         ((λ x, c ⊗ x) <$> h3))
      ((λ x, d ⊗ x) <$> h4) in
  let y_vals := hermite uys uye slope_y0 slope_y1 in
  let slope_z0 := neg A L ⊗ rys in
  let slope_z1 := neg A L ⊗ rye in
  let z_vals := hermite uzs uze slope_z0 slope_z1 in
  zip (zip ux_vals y_vals) z_vals.

(** The spec's Hermite basis on [t]. *)
Definition H1 (t : number A) : number A := #2 ⊗ t ^^ 3 ⊖ #3 ⊗ t ^^ 2 ⊕ #1.
Definition H2 (t : number A) : number A := #(-2) ⊗ t ^^ 3 ⊕ #3 ⊗ t ^^ 2.
Definition H3 (t : number A) : number A := t ^^ 3 ⊖ #2 ⊗ t ^^ 2 ⊕ t.
Definition H4 (t : number A) : number A := t ^^ 3 ⊖ t ^^ 2.

(** The spec's parameter values: multiples of one step, the last one the
    end of the interval. *)
Definition parameter (n_points k : nat) : number A :=
  if decide (k = (n_points - 1)%nat) then #1
  else #(Z.of_nat k) ⊗ ((#1 ⊖ #0) ⊘ #(Z.of_nat (n_points - 1))) ⊕ #0.
End Numbers.

(** The exact rationals, as one arithmetic. *)
Definition exact : Arithmetic :=
  mkArithmetic Qc Qc_of_Z Qcplus Qcminus Qcmult Qcdiv Qcopp
               (λ x k, Qcpower x (Z.to_nat k)).
End Deformation.

(** ** Definitions used to state the results *)

(** What [translate_member_set] stores for the member at [l], the [k]-th of
    its set, when the counters stood at [c] (Nodes) and [mc] (Members). *)
Definition translated_member (h : list Member) (c mc : Z) (v : Vec3)
    (k : nat) (l : loc) : Member :=
  let m := h !!! l in
  mkMember (mc + Z.of_nat k)
    (mkNode (c + 2 * Z.of_nat k)
            (node_X (start_node m) + vx v) (node_Y (start_node m) + vy v)
            (node_Z (start_node m) + vz v) (nodal_support (start_node m)) None)
    (mkNode (c + 2 * Z.of_nat k + 1)
            (node_X (end_node m) + vx v) (node_Y (end_node m) + vy v)
            (node_Z (end_node m) + vz v) (nodal_support (end_node m)) None)
    (section m) None None (member_classification m) None None None None.

(** A node is the translation of another by [v]. *)
Definition translated_by (v : Vec3) (n n' : Node) : Prop :=
  node_X n' = node_X n + vx v ∧ node_Y n' = node_Y n + vy v ∧
  node_Z n' = node_Z n + vz v.

(** Every Member of the model is in the store. *)
Definition wf_model (h : list Member) (model : FERS) : Prop :=
  Forall (λ l, (l < length h)%nat) (member_walk model).

(** The Node that the first loop nest of [create_combined_model_pattern]
    makes from [n] with translation [t] when the Node counter stands at
    [id]. *)
Definition copy_of_node (id : Z) (t : Vec3) (n : Node) : Node :=
  mkNode id (node_X n + vx t) (node_Y n + vy t) (node_Z n + vz t)
         (nodal_support n) (node_classification n).

Definition scaled (v : Vec3) (i : Z) : Vec3 := (vx v * i, vy v * i, vz v * i).

(** All keys of [node_mapping] are pairs. *)
Definition pair_keyed (nm : gmap (list Z) Node) : Prop :=
  ∀ k, is_Some (nm !! k) → length k = 2%nat.

Definition alloc_nodes (k : Z) (w : World) : World :=
  mkWorld (node_counter w + k) (member_counter w) (memberset_counter w)
          (heap w).

(** The subscripts that [replicate_member] makes for member [m] in copy [i]
    all find their key. *)
Definition resolvable (nm : gmap (list Z) Node) (i : Z) (m : Member) : Prop :=
  is_Some (nm !! [node_id (start_node m); i]) ∧
  is_Some (nm !! [node_id (end_node m); i]) ∧
  ∀ rn, reference_node m = Some rn → is_Some (nm !! [node_id rn; i]).

(** The Member that the second loop nest stores for [m] in copy [i], before
    the third loop nest looks at it. *)
Definition dup_member (nm : gmap (list Z) Node) (i : Z) (mid : Z)
    (m : Member) : Member :=
  mkMember mid (nm !!! [node_id (start_node m); i])
           (nm !!! [node_id (end_node m); i])
           (section m) (start_hinge m) (end_hinge m)
           (member_classification m) (rotation_angle m) (chi m)
           (reference_member m)
           ((λ rn, nm !!! [node_id rn; i]) <$> reference_node m).

Definition push_member (m : Member) (w : World) : World :=
  mkWorld (node_counter w) (member_counter w + 1) (memberset_counter w)
          (heap w ++ [m]).

(** [member_mapping] after recording the (original, duplicate) pairs in
    order. *)
Definition mm_record (mm : MemberMapping) (pairs : list (loc * loc))
    : MemberMapping :=
  foldl (λ mm p, mm_append mm p.1 p.2) mm pairs.

(** The exception is the failed subscript for the reference node of one of
    the members [ls] in copy [i]. *)
Definition dangling_at (nm : gmap (list Z) Node) (i : Z) (h0 : list Member)
    (ls : list loc) (e : Exn) : Prop :=
  ∃ l rn, l ∈ ls ∧ reference_node (h0 !!! l) = Some rn ∧
          nm !! [node_id rn; i] = None ∧ e = KeyError [node_id rn; i].

(** The endpoints of the members [ls] have their copies in [nm]. *)
Definition endpoints_mapped (nm : gmap (list Z) Node) (i : Z)
    (h0 : list Member) (ls : list loc) : Prop :=
  Forall (λ l, is_Some (nm !! [node_id (start_node (h0 !!! l)); i]) ∧
               is_Some (nm !! [node_id (end_node (h0 !!! l)); i])) ls.

(** [added] are the duplicates of the members [ls] in copy [i]. *)
Definition duplicates_of (nm : gmap (list Z) Node) (i : Z) (h0 : list Member)
    (ls : list loc) (added : list Member) : Prop :=
  Forall2 (λ l m', m' = dup_member nm i (member_id m') (h0 !!! l)) ls added.

(** [ms'] is a copy of the member set [ms]: same classification and group
    lengths, one member per member. *)
Definition set_copy (ms ms' : MemberSet) : Prop :=
  classification ms' = classification ms ∧ L_y ms' = L_y ms ∧
  L_z ms' = L_z ms ∧ length (members ms') = length (members ms).

(** The dict that the first loop nest of [create_combined_model_pattern]
    leaves to the second. *)
Definition node_mapping_of (model : FERS) (count : Z) (sv : Vec3) (w : World)
    : gmap (list Z) Node :=
  match replicate_nodes model count sv w with
  | Ok (nm, _) => nm
  | Raise _ => ∅
  end.

(** A member of the model whose [reference_node] is no endpoint of any
    member of the model: the node pass makes no copy of it. *)
Definition dangling_reference_node (h : list Member) (model : FERS)
    (l : loc) (rn : Node) : Prop :=
  l ∈ member_walk model ∧ reference_node (h !!! l) = Some rn ∧
  node_id rn ∉ node_id <$> get_all_nodes h model.

(** The first duplicate recorded for the original [r] among the (original,
    duplicate) pairs. *)
Definition first_dup (pairs : list (loc * loc)) (r : loc) : option loc :=
  head (filter (λ p, p.1 = r) pairs).*2.

(** What the third loop nest leaves of a duplicate [m]. *)
Definition resolved (pairs : list (loc * loc)) (m : Member) : Member :=
  match reference_member m with
  | Some r => with_reference_member m (first_dup pairs r)
  | None => m
  end.

(** The location of the first-copy duplicate of the original [r]: the
    duplicates of copy 1 are stored from [base] on in walk order, so it is
    [base] plus the first position of [r] in the walk. *)
Definition first_copy_of (walk : list loc) (base : nat) (r : loc)
    : option loc :=
  (λ x, (base + x.1)%nat) <$> list_find (λ l, l = r) walk.

(** The Node that [translate_model] makes from [n] when the Node counter
    stands at [id]: the constructor call of lines 231-235 passes the three
    coordinates only. *)
Definition translated_node (id : Z) (v : Vec3) (n : Node) : Node :=
  mkNode id (node_X n + vx v) (node_Y n + vy v) (node_Z n + vz v) None None.

(** The dict [node_translation_map] that the first loop of [translate_model]
    leaves to the second. *)
Definition translation_map_of (model : FERS) (v : Vec3) (w : World)
    : gmap Z Node :=
  match for_each (get_all_nodes (heap w) model) (translate_node v) ∅ w with
  | Ok (tm, _) => tm
  | Raise _ => ∅
  end.

(** The Member that [translate_model] stores for [m]. *)
Definition moved_member (tm : gmap Z Node) (mid : Z) (m : Member) : Member :=
  mkMember mid (tm !!! node_id (start_node m)) (tm !!! node_id (end_node m))
           (section m) (start_hinge m) (end_hinge m)
           (member_classification m) None None None None.

(** [ms'] is what [translate_model] rebuilds from the member set [ms]. *)
Definition rebuilt_set (ms ms' : MemberSet) : Prop :=
  member_set_id ms' = member_set_id ms ∧
  classification ms' = classification ms ∧
  L_y ms' = None ∧ L_z ms' = None ∧
  length (members ms') = length (members ms).

(** The endpoints of the members [ls] have their translations in [tm]. *)
Definition endpoints_translated (tm : gmap Z Node) (h0 : list Member)
    (ls : list loc) : Prop :=
  Forall (λ l, is_Some (tm !! node_id (start_node (h0 !!! l))) ∧
               is_Some (tm !! node_id (end_node (h0 !!! l)))) ls.

(** [added] are the rebuilt members [ls]. *)
Definition moved_members (tm : gmap Z Node) (h0 : list Member)
    (ls : list loc) (added : list Member) : Prop :=
  Forall2 (λ l m', m' = moved_member tm (member_id m') (h0 !!! l)) ls added.

(** ** Concrete models *)

(** A beam of two members in one member set: member 1 from node 1 to node 2
    and member 2 from node 2 to node 3, member 2 taking member 1 as its
    reference member.  Node 1 is supported and node 2 carries a
    classification; the set has group lengths. *)
Module Beam.
Definition n1 : Node := mkNode 1 0 0 0 (Some 7) None.
Definition n2 : Node := mkNode 2 1 0 0 None (Some "top"%string).
Definition n3 : Node := mkNode 3 2 0 0 None None.
Definition mA : Member :=
  mkMember 1 n1 n2 5 None None "a" None None None None.
Definition mB : Member :=
  mkMember 2 n2 n3 5 None None "b" None None (Some 0%nat) None.
Definition world : World := mkWorld 4 3 2 [mA; mB].
Definition member_set : MemberSet :=
  mkMemberSet 1 [0%nat; 1%nat] "beam" (Some 3) (Some 4).
Definition model : FERS := mkFERS [member_set].
End Beam.

(** A member whose reference member belongs to no member set of the model:
    member 2 is in the store but only member 1 is in the model. *)
Module Outside.
Definition n1 : Node := mkNode 1 0 0 0 None None.
Definition n2 : Node := mkNode 2 1 0 0 None None.
Definition n5 : Node := mkNode 5 0 5 0 None None.
Definition n6 : Node := mkNode 6 1 5 0 None None.
Definition m1 : Member :=
  mkMember 1 n1 n2 5 None None "a" None None (Some 1%nat) None.
Definition m2 : Member :=
  mkMember 2 n5 n6 5 None None "r" None None None None.
Definition world : World := mkWorld 7 3 2 [m1; m2].
Definition model : FERS := mkFERS [mkMemberSet 1 [0%nat] "a" None None].

(** The same member with a reference node that no member of the model
    ends on. *)
Definition m1' : Member :=
  mkMember 1 n1 n2 5 None None "a" None None None (Some n5).
Definition world' : World := mkWorld 7 3 2 [m1'; m2].
End Outside.

(** Two member sets that meet at the point (1, 0, 0) without sharing a
    Node: node 2 ends the first member, node 3 starts the second. *)
Module Coincident.
Definition n1 : Node := mkNode 1 0 0 0 None None.
Definition n2 : Node := mkNode 2 1 0 0 None None.
Definition n3 : Node := mkNode 3 1 0 0 None None.
Definition n4 : Node := mkNode 4 2 0 0 None None.
Definition m1 : Member :=
  mkMember 1 n1 n2 5 None None "a" None None None None.
Definition m2 : Member :=
  mkMember 2 n3 n4 5 None None "b" None None None None.
Definition world : World := mkWorld 5 3 3 [m1; m2].
Definition model : FERS :=
  mkFERS [mkMemberSet 1 [0%nat] "a" None None;
          mkMemberSet 2 [1%nat] "b" None None].
End Coincident.

(** The beam with orientation data: the first member is oriented by node 3,
    which ends the second member, and the second member refers to the
    first. *)
Module Oriented.
Definition n1 : Node := mkNode 1 0 0 0 (Some 7) None.
Definition n2 : Node := mkNode 2 1 0 0 None (Some "top"%string).
Definition n3 : Node := mkNode 3 2 0 0 None None.
Definition mA : Member :=
  mkMember 1 n1 n2 5 None None "a" (Some 90) (Some 1) None (Some n3).
Definition mB : Member :=
  mkMember 2 n2 n3 5 None None "b" None None (Some 0%nat) None.
Definition world : World := mkWorld 4 3 2 [mA; mB].
Definition member_set : MemberSet :=
  mkMemberSet 1 [0%nat; 1%nat] "beam" (Some 3) (Some 4).
Definition model : FERS := mkFERS [member_set].
End Oriented.

(** ** Further functions of [fers.py] *)

(** [number_of_elements] and [number_of_nodes] (lines 72-78). *)
Definition number_of_elements (h : list Member) (self : FERS) : nat :=
  length (get_all_members h self).

Definition number_of_nodes (h : list Member) (self : FERS) : nat :=
  length (get_all_nodes h self).

(** [get_node_by_pk] (lines 340-345): the loop returns at the first node
    whose id is [pk], and [None] after the last node. *)
Fixpoint first_node_with_id (pk : Z) (nodes : list Node) : option Node :=
  match nodes with
  | [] => None
  | node :: r =>
      if decide (node_id node = pk) then Some node
      else first_node_with_id pk r
  end.

Definition get_node_by_pk (h : list Member) (self : FERS) (pk : Z)
    : option Node :=
  first_node_with_id pk (get_all_nodes h self).

(** [create_member_set] (a static method, lines 563-593).  The loop runs over
    [enumerate(node_list[:-1])] and subscripts [node_list[i + 1]]; the Member
    constructor gets no hinges and no reference node. *)
Definition create_member_step (node_list : list Node) (sec : SectionRef)
    (cls : string) (rot ch : option Z) (rm : option loc)
    (new_members : list loc) (entry : nat * Node) : Py (list loc) :=
  let start_node := entry.2 in
  match node_list !! (entry.1 + 1)%nat with
  | None => raise IndexError
  | Some end_node =>
      member <- Member_new start_node end_node sec None None cls rot ch rm
                           None ;;
      ret (new_members ++ [member])
  end.

Definition create_member_set (start_point end_point : Node)
    (sec : SectionRef) (intermediate_points : option (list Node))
    (cls : string) (rot ch : option Z) (rm : option loc)
    (ly lz : option Z) : Py MemberSet :=
  let node_list :=
    [start_point] ++ default [] intermediate_points ++ [end_point] in
  new_members <-
    for_each (imap (λ i node, (i, node))
                   (take (length node_list - 1) node_list))
             (create_member_step node_list sec cls rot ch rm) [] ;;
  MemberSet_new new_members cls ly lz None.

(** [combine_member_sets] (a static method, lines 596-603).  The MemberSet
    constructor is called with the members only: its default classification
    is a parameter. *)
Definition combine_member_sets (default_classification : string)
    (sets : list MemberSet) : Py MemberSet :=
  let combined_members :=
    foldl (λ combined member_set, combined ++ members member_set) [] sets in
  MemberSet_new combined_members default_classification None None None.

(** [get_all_unique_member_hinges] (lines 430-444): a set of hinge
    objects. *)
Definition get_all_unique_member_hinges (h : list Member) (self : FERS)
    : gset HingeRef :=
  foldl (λ unique_hinges member_set,
           foldl (λ unique_hinges l,
                    let member := h !!! l in
                    let with_start :=
                      match start_hinge member with
                      | Some hinge => unique_hinges ∪ {[hinge]}
                      | None => unique_hinges
                      end in
                    match end_hinge member with
                    | Some hinge => with_start ∪ {[hinge]}
                    | None => with_start
                    end)
                 unique_hinges (members member_set))
        ∅ (member_sets self).

(** The classes [Section], [Material] and [NodalSupport] are outside the
    sources: their attributes are read through parameters of the handles. *)
Definition MaterialRef := Z.

(** A dict in insertion order, and [if k not in d: d[k] = v]. *)
Definition set_if_absent {V} (d : list (string * V)) (k : string) (v : V)
    : list (string * V) :=
  if decide (k ∈ d.*1) then d else d ++ [(k, v)].

(** One entry of the list that [get_unique_nodal_supports] returns. *)
Record SupportDetails (Conditions : Type) := mkSupportDetails {
  support_no : Z;
  node_nos : gset Z;
  displacement_conditions_of : Conditions;
  rotation_conditions_of : Conditions
}.
Arguments mkSupportDetails {Conditions} _ _ _ _.
Arguments support_no {Conditions} _.
Arguments node_nos {Conditions} _.
Arguments displacement_conditions_of {Conditions} _.
Arguments rotation_conditions_of {Conditions} _.

Section Queries.
Variable section_name : SectionRef → string.
Variable section_material : SectionRef → MaterialRef.
Variable material_name : MaterialRef → string.
Variable support_id : SupportRef → Z.
Variable Conditions : Type.
Variable displacement_conditions : SupportRef → Conditions.
Variable rotation_conditions : SupportRef → Conditions.

(** [get_unique_materials] (lines 347-364) and [get_unique_sections]
    (lines 376-390): a dict keyed by name, listed by [.values()]. *)
Definition get_unique_materials (h : list Member) (self : FERS)
    : list MaterialRef :=
  (foldl (λ unique_materials member_set,
            foldl (λ unique_materials l,
                     let member := h !!! l in
                     set_if_absent unique_materials
                       (material_name (section_material (section member)))
                       (section_material (section member)))
                  unique_materials (members member_set))
         [] (member_sets self)).*2.

Definition get_unique_sections (h : list Member) (self : FERS)
    : list SectionRef :=
  (foldl (λ unique_sections member_set,
            foldl (λ unique_sections l,
                     let member := h !!! l in
                     set_if_absent unique_sections
                       (section_name (section member)) (section member))
                  unique_sections (members member_set))
         [] (member_sets self)).*2.

(** [get_unique_material_names] (lines 392-398) and
    [get_unique_section_names] (lines 400-406): sets of names. *)
Definition get_unique_material_names (h : list Member) (self : FERS)
    : gset string :=
  foldl (λ unique_materials member_set,
           foldl (λ unique_materials l,
                    unique_materials ∪
                    {[material_name (section_material (section (h !!! l)))]})
                 unique_materials (members member_set))
        ∅ (member_sets self).

Definition get_unique_section_names (h : list Member) (self : FERS)
    : gset string :=
  foldl (λ unique_sections member_set,
           foldl (λ unique_sections l,
                    unique_sections ∪ {[section_name (section (h !!! l))]})
                 unique_sections (members member_set))
        ∅ (member_sets self).

(** [get_unique_section_material_combinations] (lines 408-428).  Each entry
    of [rstab_materials] is read at ["Name"] and ["index"]; the dict
    comprehension lets a later entry replace an earlier one of the same
    name.  The function prints one warning for every member whose material
    has no index: the model returns the material names of the warnings, in
    order, beside the set. *)
Definition get_unique_section_material_combinations (h : list Member)
    (self : FERS) (rstab_materials : list (string * Z))
    : gset (string * string * Z) * list string :=
  let material_name_to_index : gmap string Z :=
    foldl (λ d material, <[material.1 := material.2]> d) ∅ rstab_materials in
  foldl (λ st member_set,
           foldl (λ st l,
                    let member := h !!! l in
                    let mat_name :=
                      material_name (section_material (section member)) in
                    let sec_name := section_name (section member) in
                    match material_name_to_index !! mat_name with
                    | Some material_index =>
                        (st.1 ∪ {[(sec_name, mat_name, material_index)]},
                         st.2)
                    | None => (st.1, st.2 ++ [mat_name])
                    end)
                 st (members member_set))
        (∅, []) (member_sets self).

(** [get_unique_nodal_support] (lines 446-460).  The test is made with the
    id of the support, the entry is stored under the id of the node. *)
Definition record_nodal_support (unique_nodal_supports : gmap Z SupportRef)
    (node : Node) : gmap Z SupportRef :=
  match nodal_support node with
  | Some support =>
      if decide (unique_nodal_supports !! support_id support = None)
      then <[node_id node := support]> unique_nodal_supports
      else unique_nodal_supports
  | None => unique_nodal_supports
  end.

Definition get_unique_nodal_support (h : list Member) (self : FERS)
    : gmap Z SupportRef :=
  foldl (λ d member_set,
           foldl (λ d l,
                    foldl record_nodal_support d
                          [start_node (h !!! l); end_node (h !!! l)])
                 d (members member_set))
        ∅ (member_sets self).

(** [get_unique_nodal_supports] (lines 462-493): a dict keyed by the id of
    the support, each value holding the set of node ids; the values are
    listed in insertion order. *)
Fixpoint add_node_no (details : list (Z * SupportDetails Conditions))
    (k : Z) (node_no : Z) : list (Z * SupportDetails Conditions) :=
  match details with
  | [] => []
  | (k', d) :: r =>
      if decide (k' = k)
      then (k', mkSupportDetails (support_no d) (node_nos d ∪ {[node_no]})
                  (displacement_conditions_of d) (rotation_conditions_of d))
           :: r
      else (k', d) :: add_node_no r k node_no
  end.

Definition record_support_details
    (support_details : list (Z * SupportDetails Conditions)) (node : Node)
    : list (Z * SupportDetails Conditions) :=
  match nodal_support node with
  | Some support =>
      let no := support_id support in
      let with_entry :=
        if decide (no ∈ support_details.*1) then support_details
        else support_details ++
             [(no, mkSupportDetails no ∅ (displacement_conditions support)
                                    (rotation_conditions support))] in
      add_node_no with_entry no (node_id node)
  | None => support_details
  end.

Definition get_unique_nodal_supports (h : list Member) (self : FERS)
    : list (SupportDetails Conditions) :=
  (foldl (λ d member_set,
            foldl (λ d l,
                     foldl record_support_details d
                           [start_node (h !!! l); end_node (h !!! l)])
                  d (members member_set))
         [] (member_sets self)).*2.
End Queries.


(** ** Definitions used to state the further properties *)

Definition opposite (v : Vec3) : Vec3 := (- vx v, - vy v, - vz v).

(** Where a node is after a translation by [v] and one by the opposite of
    [v]: the two shifts are added to each coordinate one after the other. *)
Definition there_and_back (v : Vec3) (n n' : Node) : Prop :=
  node_X n' = node_X n + vx v + vx (opposite v) ∧
  node_Y n' = node_Y n + vy v + vy (opposite v) ∧
  node_Z n' = node_Z n + vz v + vz (opposite v).

(** Nodes that carry the same id are the same node: what the process-wide
    counter gives as long as it is not reset between two constructions. *)
Definition id_consistent (ns : list Node) : Prop :=
  ∀ n n', n ∈ ns → n' ∈ ns → node_id n = node_id n' → n = n'.

Definition same_coordinates (n n' : Node) : Prop :=
  node_X n' = node_X n ∧ node_Y n' = node_Y n ∧ node_Z n' = node_Z n.

(** No two consecutive nodes of a list are at the same place: a chain of
    members along the list has no member of zero length. *)
Definition no_zero_length (node_list : list Node) : Prop :=
  ∀ (k : nat) a b, node_list !! k = Some a → node_list !! S k = Some b →
                   ¬ same_coordinates a b.

(** [m'] is [m] but for its [reference_member]. *)
Definition same_but_reference_member (m m' : Member) : Prop :=
  member_id m' = member_id m ∧ start_node m' = start_node m ∧
  end_node m' = end_node m ∧ section m' = section m ∧
  start_hinge m' = start_hinge m ∧ end_hinge m' = end_hinge m ∧
  member_classification m' = member_classification m ∧
  rotation_angle m' = rotation_angle m ∧ chi m' = chi m ∧
  reference_node m' = reference_node m.

(** [n'] is the copy of the node [n] moved by [t]: the coordinates are
    translated, the nodal support and the classification are kept. *)
Definition node_copy (t : Vec3) (n n' : Node) : Prop :=
  translated_by t n n' ∧ nodal_support n' = nodal_support n ∧
  node_classification n' = node_classification n.

(** The nodes a model mentions: the endpoints on the walk and the reference
    nodes of the members on the walk. *)
Definition mentioned_nodes (h : list Member) (model : FERS) : list Node :=
  node_walk h model ++ omap (λ l, reference_node (h !!! l)) (member_walk model).

(** No supported node has an id that is also the id of the support of a
    supported node: ids of nodes and ids of supports do not meet. *)
Definition support_ids_apart (support_id : SupportRef → Z) (ns : list Node)
    : Prop :=
  ∀ n n' s, n ∈ ns → n' ∈ ns → nodal_support n = Some s →
            is_Some (nodal_support n') → support_id s ≠ node_id n'.

(** One more node id in the entry of a support. *)
Definition with_node_no {Conditions : Type} (d : SupportDetails Conditions)
    (node_no : Z) : SupportDetails Conditions :=
  mkSupportDetails (support_no d) (node_nos d ∪ {[node_no]})
                   (displacement_conditions_of d) (rotation_conditions_of d).

(** The supported nodes among [ns] whose support has the id [k]. *)
Definition held_by (support_id : SupportRef → Z) (k : Z) (ns : list Node)
    (n : Node) : Prop :=
  n ∈ ns ∧ ∃ s, nodal_support n = Some s ∧ support_id s = k.


(** The spec's words for substring containment: the needle stands in the
    text after some prefix and before some suffix. *)
Definition occurs_in (needle text : string) : Prop :=
  ∃ pre post, text = pre +:+ needle +:+ post.

(** * Verification *)

#[local] Set Warnings "-clear-no-such-hyp".

(** ** The model on concrete inputs *)

Example range_1_4 : range 1 4 = [1; 2; 3].
Proof. reflexivity. Qed.

Example beam_nodes :
  get_all_nodes (heap Beam.world) Beam.model = [Beam.n1; Beam.n2; Beam.n3].
Proof. reflexivity. Qed.

Example beam_members :
  get_all_members (heap Beam.world) Beam.model = [0; 1]%nat.
Proof. reflexivity. Qed.

Example first_seen_keeps_first :
  first_seen fst [(1, "a"); (2, "b"); (1, "c"); (3, "d"); (2, "e")]%string =
  [(1, "a"); (2, "b"); (3, "d")]%string.
Proof. reflexivity. Qed.

Example outside_reference_node_raises :
  create_combined_model_pattern Outside.model 2 (10, 0, 0) Outside.world' =
  Raise (KeyError [5; 1]).
Proof. vm_compute. reflexivity. Qed.

(** [re.match(r"^\w+$", ...)] accepts a word token followed by one newline,
    which is not a pure word-character token. *)
Example word_token_with_newline :
  match_word_token ascii_word_char (String "a" (String "010" EmptyString)) =
    true ∧
  pure_word_token ascii_word_char (String "a" (String "010" EmptyString)) =
    false ∧
  match_word_token ascii_word_char "beam_1" = true ∧
  match_word_token ascii_word_char "beam.*" = false.
Proof. vm_compute. done. Qed.

Example lookup_by_substring :
  get_membersets_by_classification ascii_word_char string literal_compile
                                   contains Beam.model "ea" =
  Ok [Beam.member_set].
Proof. vm_compute. reflexivity. Qed.

(** ** Enumeration *)

Section first_seen.
Context {A : Type} (key : A → Z).

Lemma collect_spec (acc : list A) (ids : gset Z) (xs : list A) :
  foldl (collect key) (acc, ids) xs =
  (acc ++ filter (λ y, key y ∉ ids) (first_seen key xs),
   ids ∪ list_to_set (key <$> xs)).
Proof.
  revert acc ids. induction xs as [|x r IH]; intros acc ids; simpl.
  - rewrite filter_nil, app_nil_r. f_equal. set_solver.
  - unfold collect at 2. simpl. destruct (decide (key x ∈ ids)) as [Hin|Hni].
    + rewrite IH. rewrite filter_cons_False by (intros H; by apply H).
      rewrite list_filter_filter. f_equal; [f_equal|set_solver].
      apply list_filter_iff. intros y. split; [|tauto].
      intros Hy. split; [done|]. intros E. apply Hy. by rewrite E.
    + rewrite IH. rewrite filter_cons_True by done.
      rewrite list_filter_filter, <- app_assoc. simpl.
      f_equal; [f_equal; f_equal|set_solver].
      apply list_filter_iff. intros y. set_solver.
Qed.

Lemma collect_first_seen (xs : list A) :
  (foldl (collect key) ([], ∅) xs).1 = first_seen key xs.
Proof.
  rewrite collect_spec. simpl.
  induction (first_seen key xs) as [|y r IH]; [done|].
  rewrite filter_cons_True by set_solver. by rewrite IH.
Qed.

Lemma first_seen_sublist (xs : list A) : sublist (first_seen key xs) xs.
Proof.
  induction xs as [|x r IH]; simpl; [done|].
  apply sublist_skip. etrans; [apply sublist_filter|done].
Qed.

Lemma first_seen_keys (xs : list A) (k : Z) :
  k ∈ key <$> first_seen key xs ↔ k ∈ key <$> xs.
Proof.
  induction xs as [|x r IH]; simpl; [done|].
  rewrite !elem_of_cons, <- IH, !list_elem_of_fmap.
  split.
  - intros [->|(y & -> & Hy)]; [by left|].
    apply list_elem_of_filter in Hy as [_ Hy]. right. eauto.
  - intros [->|(y & -> & Hy)]; [by left|].
    destruct (decide (key y = key x)) as [E|E]; [by left|].
    right. exists y. split; [done|]. by apply list_elem_of_filter.
Qed.

Lemma first_seen_NoDup (xs : list A) : NoDup (key <$> first_seen key xs).
Proof.
  induction xs as [|x r IH]; simpl; [constructor|].
  constructor.
  - rewrite list_elem_of_fmap. intros (y & E & Hy).
    apply list_elem_of_filter in Hy as [Hy _]. by apply Hy.
  - eapply sublist_NoDup; [exact IH|]. apply fmap_sublist. apply sublist_filter.
Qed.
End first_seen.

Lemma foldl_mjoin {A B C} (f : A → B → A) (g : C → list B) (a : A)
    (cs : list C) :
  foldl (λ acc c, foldl f acc (g c)) a cs = foldl f a (mjoin (g <$> cs)).
Proof.
  revert a. induction cs as [|c r IH]; intros a; simpl; [done|].
  by rewrite foldl_app, IH.
Qed.

Lemma get_all_members_first_seen h self :
  get_all_members h self =
  first_seen (λ l, member_id (h !!! l)) (member_walk self).
Proof.
  unfold get_all_members, member_walk.
  rewrite (foldl_mjoin (collect (λ l, member_id (h !!! l))) members).
  apply collect_first_seen.
Qed.

Lemma get_all_nodes_first_seen h self :
  get_all_nodes h self = first_seen node_id (node_walk h self).
Proof.
  unfold get_all_nodes, node_walk, member_walk.
  rewrite <- collect_first_seen.
  rewrite <- (foldl_mjoin (collect node_id) (endpoints h)).
  by rewrite <- (foldl_mjoin
    (λ acc l, foldl (collect node_id) acc (endpoints h l)) members).
Qed.

Lemma get_all_nodes_NoDup h self : NoDup (node_id <$> get_all_nodes h self).
Proof. rewrite get_all_nodes_first_seen. apply first_seen_NoDup. Qed.

Lemma endpoint_enumerated h self l :
  l ∈ member_walk self →
  node_id (start_node (h !!! l)) ∈ node_id <$> get_all_nodes h self ∧
  node_id (end_node (h !!! l)) ∈ node_id <$> get_all_nodes h self.
Proof.
  intros Hl. rewrite get_all_nodes_first_seen.
  assert (∀ n, n ∈ endpoints h l → n ∈ node_walk h self) as Hsub.
  { intros n Hn. unfold node_walk. apply list_elem_of_join.
    exists (endpoints h l). split; [done|]. by apply list_elem_of_fmap_2. }
  split; apply first_seen_keys, list_elem_of_fmap_2, Hsub; unfold endpoints;
    set_solver.
Qed.

(** C7. [get_all_nodes] and [get_all_members] return every id at most once
    however many MemberSets or Members refer to the entity, every id met on
    the walk is returned, and the result is the walk over the MemberSets and
    their Members with the first element seen for each id kept, in the order
    of first sight. *)
Theorem enumeration_unique_first_seen (h : list Member) (self : FERS) :
  NoDup (node_id <$> get_all_nodes h self) ∧
  NoDup ((λ l, member_id (h !!! l)) <$> get_all_members h self) ∧
  get_all_nodes h self = first_seen node_id (node_walk h self) ∧
  get_all_members h self =
    first_seen (λ l, member_id (h !!! l)) (member_walk self) ∧
  (∀ k, k ∈ node_id <$> get_all_nodes h self ↔
        k ∈ node_id <$> node_walk h self) ∧
  (∀ k, k ∈ (λ l, member_id (h !!! l)) <$> get_all_members h self ↔
        k ∈ (λ l, member_id (h !!! l)) <$> member_walk self).
Proof.
  rewrite get_all_nodes_first_seen, get_all_members_first_seen.
  split_and!; try done.
  - apply first_seen_NoDup.
  - apply first_seen_NoDup.
  - intros k. apply first_seen_keys.
  - intros k. apply (first_seen_keys (λ l, member_id (h !!! l))).
Qed.

(** ** Replication with [count = 1] *)

Lemma range_empty a b : b ≤ a → range a b = [].
Proof.
  intros H. unfold range. by replace (Z.to_nat (b - a)) with 0%nat by lia.
Qed.

Lemma foldl_add_member_set (m : FERS) (mss : list MemberSet) :
  foldl add_member_set m mss = mkFERS (member_sets m ++ mss).
Proof.
  revert m. induction mss as [|ms r IH]; intros [l]; simpl.
  - by rewrite app_nil_r.
  - rewrite IH. simpl. by rewrite <- app_assoc.
Qed.

(** C6. With [count = 1] [create_combined_model_pattern] returns a model
    whose MemberSets are exactly the original model's, and the state is the
    one it started from: no counter has advanced and the Member store is
    unchanged, so no member set, node or member was created. *)
Theorem single_copy_is_identity (original_model : FERS)
    (spacing_vector : Vec3) (w : World) :
  ∃ combined,
    create_combined_model_pattern original_model 1 spacing_vector w =
      Ok (combined, w) ∧
    member_sets combined = member_sets original_model.
Proof.
  eexists. split.
  - unfold create_combined_model_pattern, replicate_nodes,
      replicate_member_sets, resolve_references.
    rewrite range_empty by lia. reflexivity.
  - simpl. unfold get_all_member_sets. by rewrite foldl_add_member_set.
Qed.

(** ** [translate_member_set] *)

Lemma translate_member_set_loop v ls : ∀ acc w,
  Forall (λ l, (l < length (heap w))%nat) ls →
  for_each ls (translate_member_of_set v) acc w =
  Ok (acc ++ seq (length (heap w)) (length ls),
      mkWorld (node_counter w + 2 * Z.of_nat (length ls))
              (member_counter w + Z.of_nat (length ls))
              (memberset_counter w)
              (heap w ++ imap (translated_member (heap w) (node_counter w)
                                                 (member_counter w) v) ls)).
Proof.
  induction ls as [|l r IH]; intros acc [c mc sc h] Hwf; simpl in *.
  - unfold ret. rewrite !app_nil_r. do 3 f_equal; lia.
  - apply Forall_cons in Hwf as [Hl Hr].
    unfold bind at 1. unfold translate_member_of_set at 2.
    unfold bind, load, Node_new, Member_new, ret. simpl.
    rewrite IH; simpl.
    2:{ eapply Forall_impl; [exact Hr|]. simpl. intros.
        rewrite length_app. simpl. lia. }
    f_equal. f_equal.
    + rewrite <- app_assoc. simpl. do 3 f_equal. rewrite length_app. simpl. lia.
    + f_equal; [lia..|]. rewrite <- app_assoc. simpl. f_equal.
      f_equal.
      * unfold translated_member. simpl. rewrite !Z.add_0_r. done.
      * apply imap_ext. intros k l' Hk. simpl.
        apply list_elem_of_lookup_2 in Hk. rewrite Forall_forall in Hr.
        unfold translated_member. rewrite lookup_total_app_l by auto.
        replace (c + 1 + 1 + 2 * Z.of_nat k) with (c + 2 * Z.of_nat (S k))
          by lia.
        replace (mc + 1 + Z.of_nat k) with (mc + Z.of_nat (S k)) by lia.
        done.
Qed.

Lemma read_appended (h t : list Member) :
  (λ l, (h ++ t) !!! l) <$> seq (length h) (length t) = t.
Proof.
  apply list_eq. intros i. rewrite list_lookup_fmap.
  destruct (decide (i < length t)%nat) as [Hi|Hi].
  - rewrite lookup_seq_lt by done. simpl.
    rewrite lookup_total_app_r by lia.
    replace (length h + i - length h)%nat with i by lia.
    destruct (lookup_lt_is_Some_2 t i Hi) as [x Hx].
    rewrite Hx. f_equal. by apply list_lookup_total_correct.
  - rewrite lookup_seq_ge by lia. simpl. symmetry. apply lookup_ge_None. lia.
Qed.

Lemma translated_endpoint_ids h c mc v ls : ∀ o,
  node_id <$> mjoin ((λ m, [start_node m; end_node m]) <$>
                     imap (λ k, translated_member h c mc v (o + k)) ls) =
  (λ k : nat, c + 2 * Z.of_nat o + Z.of_nat k) <$> seq 0 (2 * length ls).
Proof.
  induction ls as [|l r IH]; intros o; [done|].
  simpl length. replace (2 * S (length r))%nat with (S (S (2 * length r))) by lia.
  simpl. f_equal; [lia|]. f_equal; [lia|].
  rewrite <- !fmap_S_seq, <- !list_fmap_compose.
  specialize (IH (S o)).
  rewrite (imap_ext _ (λ k, translated_member h c mc v (S o + k))) by
    (intros; simpl; f_equal; lia).
  etrans; [exact IH|]. apply list_fmap_ext. intros _ k _. simpl. lia.
Qed.

(** C10. [translate_member_set] makes a fresh pair of endpoint Nodes for
    every Member on its own: the translated set has one Member per source
    Member, each endpoint is the source endpoint moved by the vector, and
    the ids of all the endpoints of the translated Members are pairwise
    different, so two translated Members never share a Node even where
    their sources did. *)
Theorem translate_member_set_unshares_nodes (member_set : MemberSet)
    (translation_vector : Vec3) (w : World) :
  Forall (λ l, (l < length (heap w))%nat) (members member_set) →
  ∃ new_set w',
    translate_member_set member_set translation_vector w = Ok (new_set, w') ∧
    NoDup (node_id <$> mjoin (endpoints (heap w') <$> members new_set)) ∧
    Forall2 (λ l l',
               translated_by translation_vector
                 (start_node (heap w !!! l)) (start_node (heap w' !!! l')) ∧
               translated_by translation_vector
                 (end_node (heap w !!! l)) (end_node (heap w' !!! l')))
            (members member_set) (members new_set).
Proof.
  intros Hwf. unfold translate_member_set, bind.
  rewrite translate_member_set_loop by done.
  unfold MemberSet_new. simpl. do 2 eexists. split; [reflexivity|].
  simpl.
  set (news := imap _ _).
  assert (length news = length (members member_set)) as Hlen
    by (subst news; apply length_imap).
  split.
  - replace (endpoints (heap w ++ news) <$>
             seq (length (heap w)) (length (members member_set)))
      with ((λ m, [start_node m; end_node m]) <$> news).
    2:{ rewrite <- (read_appended (heap w) news) at 1.
        by rewrite <- list_fmap_compose, Hlen. }
    subst news.
    rewrite (translated_endpoint_ids _ _ _ _ _ 0%nat).
    apply NoDup_fmap_2; [|apply NoDup_seq]. intros a b. lia.
  - apply Forall2_same_length_lookup_2.
    { by rewrite length_seq. }
    intros k l l' Hl Hl'.
    apply lookup_seq in Hl' as [-> Hk].
    rewrite lookup_total_app_r by lia.
    replace (length (heap w) + k - length (heap w))%nat with k by lia.
    subst news.
    rewrite (list_lookup_total_correct _ k
      (translated_member (heap w) (node_counter w) (member_counter w)
         translation_vector k l)).
    2:{ rewrite list_lookup_imap, Hl. done. }
    unfold translated_member, translated_by. simpl. done.
Qed.

(** ** [create_combined_model_pattern]: the node pass *)

Lemma range_lookup a b (p : nat) i :
  range a b !! p = Some i ↔ i = a + Z.of_nat p ∧ a + Z.of_nat p < b.
Proof.
  unfold range. rewrite list_lookup_fmap. split.
  - intros H. destruct (seq 0 (Z.to_nat (b - a)) !! p) as [k|] eqn:E;
      [|done]. apply lookup_seq in E as [-> Hk]. simpl in H.
    injection H as <-. lia.
  - intros [-> H]. rewrite lookup_seq_lt by lia. done.
Qed.

Lemma elem_of_range a b i : i ∈ range a b ↔ a ≤ i < b.
Proof.
  rewrite list_elem_of_lookup. split.
  - intros [p Hp]. apply range_lookup in Hp. lia.
  - intros H. exists (Z.to_nat (i - a)). apply range_lookup. lia.
Qed.

Lemma range_NoDup a b : NoDup (range a b).
Proof.
  unfold range. apply NoDup_fmap_2; [|apply NoDup_seq]. intros x y. lia.
Qed.

Lemma range_length a b : length (range a b) = Z.to_nat (b - a).
Proof. unfold range. by rewrite length_fmap, length_seq. Qed.


(** The membership test of line 158 looks a coordinate triple up among keys
    that are all pairs: it never finds one. *)
Lemma pair_keyed_no_coords nm (x y z : Z) :
  pair_keyed nm → nm !! [x; y; z] = None.
Proof.
  intros Hk. destruct (nm !! [x; y; z]) eqn:E; [|done].
  assert (length [x; y; z] = 2%nat) by (apply Hk; by rewrite E). done.
Qed.

Lemma pair_keyed_insert nm (a b : Z) n :
  pair_keyed nm → pair_keyed (<[ [a; b] := n ]> nm).
Proof.
  intros Hk k. rewrite lookup_insert. case_decide; [by subst|]. apply Hk.
Qed.

Lemma replicate_node_creates i t nm n w :
  pair_keyed nm →
  replicate_node i t nm n w =
  Ok (<[ [node_id n; i] := copy_of_node (node_counter w) t n ]> nm,
      alloc_nodes 1 w).
Proof.
  intros Hk. unfold replicate_node. simpl.
  rewrite decide_True by (by apply pair_keyed_no_coords). done.
Qed.

Lemma alloc_nodes_alloc_nodes a b w :
  alloc_nodes a (alloc_nodes b w) = alloc_nodes (b + a) w.
Proof. unfold alloc_nodes. simpl. f_equal. lia. Qed.

Lemma alloc_nodes_0 w : alloc_nodes 0 w = w.
Proof. destruct w. unfold alloc_nodes. simpl. f_equal. lia. Qed.

Lemma replicate_nodes_inner i t ns : ∀ nm w,
  pair_keyed nm →
  NoDup (node_id <$> ns) →
  ∃ nm',
    for_each ns (replicate_node i t) nm w =
      Ok (nm', alloc_nodes (Z.of_nat (length ns)) w) ∧
    pair_keyed nm' ∧
    (∀ key, (∀ n, n ∈ ns → key ≠ [node_id n; i]) → nm' !! key = nm !! key) ∧
    (∀ (k : nat) n, ns !! k = Some n →
       nm' !! [node_id n; i] =
       Some (copy_of_node (node_counter w + Z.of_nat k) t n)).
Proof.
  induction ns as [|n r IH]; intros nm w Hk Hnd.
  - exists nm. simpl. unfold ret. rewrite alloc_nodes_0. split_and!; done.
  - simpl in Hnd. apply NoDup_cons in Hnd as [Hn Hnd].
    destruct (IH (<[ [node_id n; i] := copy_of_node (node_counter w) t n ]> nm)
                 (alloc_nodes 1 w)) as (nm' & Hrun & Hk' & Hother & Hmine);
      [by apply pair_keyed_insert|done|].
    exists nm'. split_and!.
    + simpl. unfold bind. rewrite replicate_node_creates by done.
      rewrite Hrun, alloc_nodes_alloc_nodes. do 3 f_equal. lia.
    + done.
    + intros key Hkey. rewrite Hother.
      * apply lookup_insert_ne. intros <-. eapply Hkey; [left|done].
      * intros n' Hn'. apply Hkey. by right.
    + intros [|k] n' Hlk; simpl in Hlk.
      * injection Hlk as <-. rewrite Hother.
        -- rewrite lookup_insert_eq. do 2 f_equal. lia.
        -- intros n' Hn' E. injection E as E. apply Hn.
           rewrite E. by apply list_elem_of_fmap_2.
      * rewrite (Hmine k n' Hlk). do 2 f_equal. simpl. lia.
Qed.

Lemma replicate_nodes_outer model sv copies : ∀ nm w,
  pair_keyed nm →
  NoDup copies →
  let ns := get_all_nodes (heap w) model in
  ∃ nm',
    for_each copies
      (λ node_mapping i,
         nodes <- (λ w, Ok (get_all_nodes (heap w) model, w)) ;;
         for_each nodes (replicate_node i (scaled sv i)) node_mapping)
      nm w =
      Ok (nm', alloc_nodes (Z.of_nat (length copies * length ns)) w) ∧
    pair_keyed nm' ∧
    (∀ key, (∀ n i, n ∈ ns → i ∈ copies → key ≠ [node_id n; i]) →
            nm' !! key = nm !! key) ∧
    (∀ (p : nat) i (k : nat) n, copies !! p = Some i → ns !! k = Some n →
       nm' !! [node_id n; i] =
       Some (copy_of_node
               (node_counter w + Z.of_nat (p * length ns + k))
               (scaled sv i) n)).
Proof.
  induction copies as [|i r IH]; intros nm w Hk Hnd ns.
  - exists nm. simpl. unfold ret. rewrite alloc_nodes_0. split_and!; done.
  - apply NoDup_cons in Hnd as [Hi Hnd].
    destruct (replicate_nodes_inner i (scaled sv i) ns nm w Hk
                (get_all_nodes_NoDup _ _))
      as (nm1 & Hrun1 & Hk1 & Hother1 & Hmine1).
    destruct (IH nm1 (alloc_nodes (Z.of_nat (length ns)) w) Hk1 Hnd)
      as (nm' & Hrun & Hk' & Hother & Hmine).
    simpl in Hrun, Hother, Hmine. fold ns in Hrun, Hother, Hmine.
    exists nm'. split_and!.
    + simpl. unfold bind at 1. unfold bind at 1. fold ns. rewrite Hrun1.
      rewrite Hrun, alloc_nodes_alloc_nodes. do 3 f_equal. lia.
    + done.
    + intros key Hkey. rewrite Hother.
      * apply Hother1. intros n Hn. apply Hkey; [done|left].
      * intros n j Hn Hj. apply Hkey; [done|by right].
    + intros [|p] j k n Hp Hn; simpl in Hp.
      * injection Hp as <-. rewrite Hother.
        -- rewrite (Hmine1 k n Hn). do 2 f_equal.
        -- intros n' j Hn' Hj E. injection E as _ ->. done.
      * rewrite (Hmine p j k n Hp Hn). do 2 f_equal. lia.
Qed.

Lemma replicate_nodes_spec model count sv w :
  let ns := get_all_nodes (heap w) model in
  ∃ nm,
    replicate_nodes model count sv w =
      Ok (nm, alloc_nodes (Z.of_nat (length (range 1 count) * length ns)) w) ∧
    pair_keyed nm ∧
    (∀ id i, is_Some (nm !! [id; i]) ↔
             id ∈ node_id <$> ns ∧ 1 ≤ i < count) ∧
    (∀ (p : nat) i (k : nat) n,
       range 1 count !! p = Some i → ns !! k = Some n →
       nm !! [node_id n; i] =
       Some (copy_of_node
               (node_counter w + Z.of_nat (p * length ns + k))
               (scaled sv i) n)).
Proof.
  intros ns.
  destruct (replicate_nodes_outer model sv (range 1 count) ∅ w)
    as (nm & Hrun & Hk & Hother & Hmine).
  { intros k [x Hx]. by rewrite lookup_empty in Hx. }
  { apply range_NoDup. }
  exists nm. split_and!; [exact Hrun|done| |exact Hmine].
  intros id i. split.
  - intros Hsome.
    destruct (decide (id ∈ node_id <$> ns ∧ 1 ≤ i < count)) as [|Hno];
      [done|].
    rewrite Hother in Hsome.
    { rewrite lookup_empty in Hsome. by destruct Hsome. }
    intros n j Hn Hj E. injection E as -> ->. apply Hno.
    split; [by apply list_elem_of_fmap_2|by apply elem_of_range].
  - intros [Hid Hi]. apply list_elem_of_fmap in Hid as (n & -> & Hn).
    apply list_elem_of_lookup in Hn as [k Hk'].
    assert (i ∈ range 1 count) as Hr by (by apply elem_of_range).
    apply list_elem_of_lookup in Hr as [p Hp].
    rewrite (Hmine p i k n Hp Hk'). eauto.
Qed.

(** ** [create_combined_model_pattern]: the member pass *)

Lemma subscript_Some nm key n w :
  nm !! key = Some n → subscript nm key w = Ok (n, w).
Proof. intros H. unfold subscript. by rewrite H. Qed.

Lemma subscript_None nm key w :
  nm !! key = None → subscript nm key w = Raise (KeyError key).
Proof. intros H. unfold subscript. by rewrite H. Qed.

Lemma replicate_member_ok nm i st l w :
  resolvable nm i (heap w !!! l) →
  replicate_member nm i st l w =
  Ok ((st.1 ++ [length (heap w)], mm_append st.2 l (length (heap w))),
      push_member (dup_member nm i (member_counter w) (heap w !!! l)) w).
Proof.
  intros ([s Hs] & [e He] & Hr).
  unfold replicate_member, bind, load.
  rewrite (subscript_Some _ _ _ _ Hs), (subscript_Some _ _ _ _ He).
  unfold dup_member.
  rewrite (lookup_total_correct _ _ _ Hs), (lookup_total_correct _ _ _ He).
  destruct (reference_node (heap w !!! l)) as [rn|] eqn:Ern.
  - destruct (Hr rn eq_refl) as [r Hrn].
    rewrite (subscript_Some _ _ _ _ Hrn). simpl.
    by rewrite (lookup_total_correct _ _ _ Hrn).
  - done.
Qed.

Lemma replicate_member_dangling nm i st l w rn :
  is_Some (nm !! [node_id (start_node (heap w !!! l)); i]) →
  is_Some (nm !! [node_id (end_node (heap w !!! l)); i]) →
  reference_node (heap w !!! l) = Some rn →
  nm !! [node_id rn; i] = None →
  replicate_member nm i st l w = Raise (KeyError [node_id rn; i]).
Proof.
  intros [s Hs] [e He] Hrn Hnone.
  unfold replicate_member, bind, load.
  rewrite (subscript_Some _ _ _ _ Hs), (subscript_Some _ _ _ _ He), Hrn.
  by rewrite (subscript_None _ _ _ Hnone).
Qed.

Lemma read_original (h0 h : list Member) l :
  h0 `prefix_of` h → (l < length h0)%nat → h !!! l = h0 !!! l.
Proof. intros [k ->] Hl. by apply lookup_total_app_l. Qed.

Lemma replicate_members_spec nm i h0 ls : ∀ acc mm w,
  h0 `prefix_of` heap w →
  Forall (λ l, (l < length h0)%nat) ls →
  endpoints_mapped nm i h0 ls →
  match for_each ls (replicate_member nm i) (acc, mm) w with
  | Ok (st', w') =>
      st'.1 = acc ++ seq (length (heap w)) (length ls) ∧
      st'.2 = mm_record mm (zip ls (seq (length (heap w)) (length ls))) ∧
      node_counter w' = node_counter w ∧
      memberset_counter w' = memberset_counter w ∧
      (∃ added, heap w' = heap w ++ added ∧
                duplicates_of nm i h0 ls added) ∧
      Forall (λ l, resolvable nm i (h0 !!! l)) ls
  | Raise e => dangling_at nm i h0 ls e
  end.
Proof.
  induction ls as [|l r IH]; intros acc mm w Hpre Hwf Hmapped.
  - simpl. unfold ret. simpl. rewrite !app_nil_r. split_and!; try done.
    exists []. rewrite app_nil_r. split; [done|constructor].
  - apply Forall_cons in Hwf as [Hl Hwf].
    apply Forall_cons in Hmapped as [[Hs He] Hmapped].
    simpl. unfold bind at 1.
    assert (heap w !!! l = h0 !!! l) as Hread by by apply read_original.
    destruct (reference_node (h0 !!! l)) as [rn|] eqn:Ern.
    + destruct (nm !! [node_id rn; i]) as [rn'|] eqn:Elk.
      * rewrite replicate_member_ok.
        2:{ rewrite Hread. split_and!; [done..|].
            intros ? Hx. rewrite Ern in Hx. injection Hx as <-.
            by rewrite Elk. }
        simpl.
        specialize (IH (acc ++ [length (heap w)])
                       (mm_append mm l (length (heap w)))
                       (push_member
                          (dup_member nm i (member_counter w) (heap w !!! l))
                          w)).
        destruct (for_each r _ _ _) as [[st' w']|e].
        -- destruct IH as (H1 & H2 & H3 & H4 & (added & H5 & H6) & H7);
             [|done..|].
           { simpl. etrans; [exact Hpre|]. by apply prefix_app_r. }
           simpl in *. rewrite length_app in H1, H2. simpl in *.
           replace (length (heap w) + 1)%nat with (S (length (heap w)))
             in H1, H2 by lia.
           split_and!; try done.
           ++ by rewrite H1, <- app_assoc.
           ++ eexists. split; [rewrite H5, <- app_assoc; reflexivity|].
              constructor; [|done]. by rewrite Hread.
           ++ constructor; [|done]. split_and!; [done..|].
              intros ? Hx. rewrite Ern in Hx. injection Hx as <-.
              by rewrite Elk.
        -- destruct IH as (l' & rn'' & ? & ? & ? & ?); [|done..|].
           { simpl. etrans; [exact Hpre|]. by apply prefix_app_r. }
           exists l', rn''. split_and!; try done. by right.
      * rewrite (replicate_member_dangling _ _ _ _ _ rn);
          rewrite ?Hread; try done.
        exists l, rn. split_and!; try done. by left.
    + rewrite replicate_member_ok.
      2:{ rewrite Hread. split_and!; [done..|].
          intros ? Hx. by rewrite Ern in Hx. }
      simpl.
      specialize (IH (acc ++ [length (heap w)])
                     (mm_append mm l (length (heap w)))
                     (push_member
                        (dup_member nm i (member_counter w) (heap w !!! l))
                        w)).
      destruct (for_each r _ _ _) as [[st' w']|e].
      * destruct IH as (H1 & H2 & H3 & H4 & (added & H5 & H6) & H7);
          [|done..|].
        { simpl. etrans; [exact Hpre|]. by apply prefix_app_r. }
        simpl in *. rewrite length_app in H1, H2. simpl in *.
        replace (length (heap w) + 1)%nat with (S (length (heap w)))
          in H1, H2 by lia.
        split_and!; try done.
        -- by rewrite H1, <- app_assoc.
        -- eexists. split; [rewrite H5, <- app_assoc; reflexivity|].
           constructor; [|done]. by rewrite Hread.
        -- constructor; [|done]. split_and!; [done..|].
           intros ? Hx. by rewrite Ern in Hx.
      * destruct IH as (l' & rn'' & ? & ? & ? & ?); [|done..|].
        { simpl. etrans; [exact Hpre|]. by apply prefix_app_r. }
        exists l', rn''. split_and!; try done. by right.
Qed.

Lemma mm_record_app mm ps qs :
  mm_record mm (ps ++ qs) = mm_record (mm_record mm ps) qs.
Proof. unfold mm_record. apply foldl_app. Qed.

Lemma replicate_member_set_spec nm i h0 ms combined mm w :
  h0 `prefix_of` heap w →
  Forall (λ l, (l < length h0)%nat) (members ms) →
  endpoints_mapped nm i h0 (members ms) →
  match replicate_member_set nm i (combined, mm) ms w with
  | Ok (st', w') =>
      (∃ ms', st'.1 = add_member_set combined ms' ∧ set_copy ms ms' ∧
              members ms' = seq (length (heap w)) (length (members ms))) ∧
      st'.2 = mm_record mm (zip (members ms)
                (seq (length (heap w)) (length (members ms)))) ∧
      node_counter w' = node_counter w ∧
      (∃ added, heap w' = heap w ++ added ∧
                duplicates_of nm i h0 (members ms) added) ∧
      Forall (λ l, resolvable nm i (h0 !!! l)) (members ms)
  | Raise e => dangling_at nm i h0 (members ms) e
  end.
Proof.
  intros Hpre Hwf Hmapped.
  pose proof (replicate_members_spec nm i h0 (members ms) [] mm w
                Hpre Hwf Hmapped) as Hinner.
  unfold replicate_member_set, bind. simpl.
  destruct (for_each (members ms) _ _ _) as [[[acc1 mm1] w1]|e]; [|done].
  destruct Hinner as (H1 & H2 & H3 & H4 & Hadded & H7).
  simpl in H1, H2. subst acc1 mm1.
  unfold MemberSet_new, ret. simpl. split_and!; try done.
  eexists. split; [reflexivity|]. split; [|done].
  unfold set_copy. simpl. by rewrite length_seq.
Qed.

Lemma replicate_member_sets_copy nm i h0 mss : ∀ combined mm w,
  h0 `prefix_of` heap w →
  Forall (λ l, (l < length h0)%nat) (mjoin (members <$> mss)) →
  endpoints_mapped nm i h0 (mjoin (members <$> mss)) →
  let walk := mjoin (members <$> mss) in
  match for_each mss (replicate_member_set nm i) (combined, mm) w with
  | Ok (st', w') =>
      (∃ chunk,
         member_sets st'.1 = member_sets combined ++ chunk ∧
         Forall2 set_copy mss chunk ∧
         mjoin (members <$> chunk) = seq (length (heap w)) (length walk)) ∧
      st'.2 = mm_record mm (zip walk (seq (length (heap w)) (length walk))) ∧
      node_counter w' = node_counter w ∧
      (∃ added, heap w' = heap w ++ added ∧
                duplicates_of nm i h0 walk added) ∧
      Forall (λ l, resolvable nm i (h0 !!! l)) walk
  | Raise e => dangling_at nm i h0 walk e
  end.
Proof.
  induction mss as [|ms r IH]; intros combined mm w Hpre Hwf Hmapped walk.
  - simpl. unfold ret. simpl. split_and!; try done.
    + exists []. rewrite app_nil_r. split_and!; [done|constructor|done].
    + exists []. rewrite app_nil_r. split; [done|constructor].
  - subst walk. simpl in *.
    apply Forall_app in Hwf as [Hwf1 Hwf2].
    apply Forall_app in Hmapped as [Hm1 Hm2].
    unfold bind at 1.
    pose proof (replicate_member_set_spec nm i h0 ms combined mm w
                  Hpre Hwf1 Hm1) as Hstep.
    destruct (replicate_member_set nm i (combined, mm) ms w)
      as [[[combined1 mm1] w1]|e].
    2:{ destruct Hstep as (l & rn & ? & ? & ? & ?).
        exists l, rn. split_and!; try done. apply elem_of_app. by left. }
    destruct Hstep as ((ms' & H1 & Hcopy & Hlocs) & H2 & H3 &
                       (added1 & H5 & H6) & H7).
    simpl in H1, H2. subst combined1 mm1.
    assert (length (heap w1) =
            (length (heap w) + length (members ms))%nat) as Hlen.
    { rewrite H5, length_app. f_equal. symmetry. eapply Forall2_length, H6. }
    assert (h0 `prefix_of` heap w1) as Hpre1.
    { rewrite H5. etrans; [exact Hpre|]. by apply prefix_app_r. }
    specialize (IH (add_member_set combined ms')
                   (mm_record mm (zip (members ms)
                      (seq (length (heap w)) (length (members ms)))))
                   w1 Hpre1 Hwf2 Hm2).
    destruct (for_each r _ _ _) as [[st' w']|e].
    2:{ destruct IH as (l & rn & ? & ? & ? & ?).
        exists l, rn. split_and!; try done. apply elem_of_app. by right. }
    destruct IH as ((chunk & Hc1 & Hc2 & Hc3) & Hmm & Hnc &
                    (added2 & Hh & Hd) & Hres).
    rewrite length_app, seq_app.
    split_and!.
    + exists (ms' :: chunk). split_and!.
      * rewrite Hc1. simpl. by rewrite <- app_assoc.
      * by constructor.
      * change (mjoin (members <$> ms' :: chunk))
          with (members ms' ++ mjoin (members <$> chunk)).
        by rewrite Hlocs, Hc3, Hlen.
    + rewrite Hmm, Hlen. rewrite zip_with_app by (by rewrite length_seq).
      by rewrite mm_record_app.
    + by rewrite Hnc.
    + exists (added1 ++ added2). split.
      * by rewrite Hh, H5, app_assoc.
      * by apply Forall2_app.
    + by apply Forall_app.
Qed.

Lemma replicate_member_sets_copies nm h0 mss copies : ∀ combined mm w,
  let walk := mjoin (members <$> mss) in
  let N := length walk in
  h0 `prefix_of` heap w →
  Forall (λ l, (l < length h0)%nat) walk →
  (∀ i, i ∈ copies → endpoints_mapped nm i h0 walk) →
  match for_each copies
          (λ st i, for_each mss (replicate_member_set nm i) st)
          (combined, mm) w with
  | Ok (st', w') =>
      (∃ chunks,
         member_sets st'.1 = member_sets combined ++ mjoin chunks ∧
         Forall (Forall2 set_copy mss) chunks ∧
         length chunks = length copies ∧
         ∀ (p : nat) chunk, chunks !! p = Some chunk →
           mjoin (members <$> chunk) = seq (length (heap w) + p * N) N) ∧
      st'.2 = mm_record mm (zip (mjoin (replicate (length copies) walk))
                                (seq (length (heap w)) (length copies * N))) ∧
      node_counter w' = node_counter w ∧
      (∃ addeds, heap w' = heap w ++ mjoin addeds ∧
                 Forall2 (λ i added, duplicates_of nm i h0 walk added)
                         copies addeds) ∧
      (∀ i, i ∈ copies → Forall (λ l, resolvable nm i (h0 !!! l)) walk)
  | Raise e => ∃ i, i ∈ copies ∧ dangling_at nm i h0 walk e
  end.
Proof.
  induction copies as [|i r IH]; intros combined mm w walk N Hpre Hwf Hmapped.
  - simpl. unfold ret. simpl. split_and!; try done.
    + exists []. rewrite app_nil_r. split_and!; try done.
    + exists []. rewrite app_nil_r. split; [done|constructor].
    + intros i Hi. by apply elem_of_nil in Hi.
  - simpl. unfold bind at 1.
    pose proof (replicate_member_sets_copy nm i h0 mss combined mm w Hpre Hwf
                  (Hmapped i ltac:(left))) as Hstep.
    fold walk in Hstep. fold N in Hstep.
    destruct (for_each mss (replicate_member_set nm i) (combined, mm) w)
      as [[[combined1 mm1] w1]|e].
    2:{ exists i. split; [left|done]. }
    destruct Hstep as ((chunk & Hc1 & Hc2 & Hc3) & H2 & H3 &
                       (added1 & H5 & H6) & H7).
    simpl in Hc1, H2. subst mm1.
    assert (length (heap w1) = (length (heap w) + N)%nat) as Hlen.
    { rewrite H5, length_app. f_equal. symmetry. eapply Forall2_length, H6. }
    assert (h0 `prefix_of` heap w1) as Hpre1.
    { rewrite H5. etrans; [exact Hpre|]. by apply prefix_app_r. }
    specialize (IH combined1
                   (mm_record mm (zip walk (seq (length (heap w)) N)))
                   w1 Hpre1 Hwf
                   (λ j Hj, Hmapped j ltac:(by right))).
    fold walk in IH. fold N in IH.
    destruct (for_each r _ _ _) as [[st' w']|e].
    2:{ destruct IH as (j & Hj & Hd). exists j. split; [by right|done]. }
    destruct IH as ((chunks & Hcs1 & Hcs2 & Hcs3 & Hcs4) & Hmm & Hnc &
                    (addeds & Hh & Hd) & Hres).
    split_and!.
    + exists (chunk :: chunks). split_and!.
      * rewrite Hcs1, Hc1. simpl. by rewrite <- app_assoc.
      * by constructor.
      * simpl. by rewrite Hcs3.
      * intros [|p] chunk' Hp; simpl in Hp.
        -- injection Hp as <-. rewrite Hc3. f_equal. lia.
        -- rewrite (Hcs4 p chunk' Hp), Hlen. f_equal. lia.
    + rewrite Hmm, Hlen.
      change (mjoin (replicate (length (i :: r)) walk))
        with (walk ++ mjoin (replicate (length r) walk)).
      change (length (i :: r) * N)%nat with (N + length r * N)%nat.
      rewrite seq_app, zip_with_app by (by rewrite length_seq).
      by rewrite mm_record_app.
    + by rewrite Hnc.
    + exists (added1 :: addeds). split.
      * rewrite Hh, H5. simpl. by rewrite app_assoc.
      * by constructor.
    + intros j Hj. apply elem_of_cons in Hj as [->|Hj]; [done|by apply Hres].
Qed.

Lemma endpoints_mapped_walk model count sv w i :
  1 ≤ i < count →
  endpoints_mapped (node_mapping_of model count sv w) i (heap w)
                   (member_walk model).
Proof.
  intros Hi. unfold node_mapping_of.
  destruct (replicate_nodes_spec model count sv w)
    as (nm & -> & _ & Hdom & _).
  apply Forall_forall. intros l Hl.
  destruct (endpoint_enumerated (heap w) model l Hl) as [Hs He].
  split; apply Hdom; done.
Qed.

Lemma create_combined_model_pattern_unfold model count sv w :
  create_combined_model_pattern model count sv w =
  match for_each (range 1 count)
          (λ st i, for_each (member_sets model)
                     (replicate_member_set (node_mapping_of model count sv w)
                                           i) st)
          (mkFERS (member_sets model), [])
          (alloc_nodes
             (Z.of_nat (length (range 1 count) *
                        length (get_all_nodes (heap w) model))) w) with
  | Ok (r, w1) =>
      match resolve_references r.2 w1 with
      | Ok (_, w2) => Ok (r.1, w2)
      | Raise e => Raise e
      end
  | Raise e => Raise e
  end.
Proof.
  unfold create_combined_model_pattern, node_mapping_of, bind.
  destruct (replicate_nodes_spec model count sv w) as (nm & -> & _).
  unfold replicate_member_sets, get_all_member_sets.
  rewrite foldl_add_member_set. simpl.
  destruct (for_each _ _ _ _) as [[r w1]|e]; [|done].
  destruct (resolve_references _ _) as [[[] w2]|e]; done.
Qed.


(** ** [create_combined_model_pattern]: the reference pass *)

Lemma mm_get_append mm k v k' :
  mm_get (mm_append mm k v) k' =
  if decide (k = k') then Some (default [] (mm_get mm k) ++ [v])
  else mm_get mm k'.
Proof.
  induction mm as [|[k0 vs] r IH]; simpl.
  - repeat case_decide; done.
  - destruct (decide (k0 = k)) as [->|Hne]; simpl.
    + repeat case_decide; congruence.
    + rewrite IH. repeat case_decide; congruence.
Qed.

Lemma mm_get_record pairs : ∀ mm r,
  mm_get (mm_record mm pairs) r =
  let extra := (filter (λ p, p.1 = r) pairs).*2 in
  match mm_get mm r with
  | Some vs => Some (vs ++ extra)
  | None => match extra with [] => None | _ => Some extra end
  end.
Proof.
  induction pairs as [|[k v] ps IH]; intros mm r; simpl.
  - destruct (mm_get mm r); [by rewrite app_nil_r|done].
  - change (mm_record mm ((k, v) :: ps))
      with (mm_record (mm_append mm k v) ps).
    rewrite IH, mm_get_append. simpl.
    destruct (decide (k = r)) as [->|Hne].
    + rewrite filter_cons_True by done. simpl.
      destruct (mm_get mm r); simpl; [by rewrite <- app_assoc|done].
    + rewrite filter_cons_False by done. done.
Qed.

Lemma first_duplicate_record pairs r w :
  first_duplicate (mm_record [] pairs) r w = Ok (first_dup pairs r, w).
Proof.
  unfold first_duplicate, first_dup. rewrite mm_get_record. simpl.
  by destruct ((filter (λ p, p.1 = r) pairs).*2).
Qed.

Lemma mm_append_values mm k v :
  mjoin ((mm_append mm k v).*2) ≡ₚ v :: mjoin (mm.*2).
Proof.
  induction mm as [|[k0 vs] r IH]; simpl; [done|].
  destruct (decide (k0 = k)) as [->|Hne]; simpl.
  - rewrite <- app_assoc. simpl.
    by rewrite <- Permutation_middle.
  - rewrite IH. by rewrite <- Permutation_middle.
Qed.

Lemma mm_record_values pairs : ∀ mm,
  mjoin ((mm_record mm pairs).*2) ≡ₚ mjoin (mm.*2) ++ pairs.*2.
Proof.
  induction pairs as [|[k v] ps IH]; intros mm; simpl.
  - by rewrite app_nil_r.
  - change (mm_record mm ((k, v) :: ps))
      with (mm_record (mm_append mm k v) ps).
    rewrite IH, mm_append_values. simpl. by rewrite <- Permutation_middle.
Qed.

Lemma for_each_unit_join {A} (f : unit → A → Py unit) (xss : list (list A)) :
  ∀ w,
  for_each xss (λ _ xs, for_each xs f tt) tt w = for_each (mjoin xss) f tt w.
Proof.
  induction xss as [|xs r IH]; intros w; [done|].
  simpl. unfold bind at 1.
  revert w. induction xs as [|x xs IHx]; intros w; simpl.
  - apply IH.
  - unfold bind. destruct (f tt x w) as [[[] w1]|e]; [|done]. apply IHx.
Qed.

Lemma resolve_reference_step pairs n w :
  (n < length (heap w))%nat →
  resolve_reference (mm_record [] pairs) tt n w =
  Ok (tt, mkWorld (node_counter w) (member_counter w) (memberset_counter w)
                  (<[n := resolved pairs (heap w !!! n)]> (heap w))).
Proof.
  intros Hn. unfold resolve_reference, bind, load, resolved.
  destruct (reference_member (heap w !!! n)) as [r|] eqn:E.
  - by rewrite first_duplicate_record.
  - unfold ret. destruct w as [nc mc sc h]. simpl in *. do 3 f_equal.
    symmetry. apply list_insert_id. by apply list_lookup_lookup_total_lt.
Qed.

Lemma resolve_loop pairs ns : ∀ w,
  NoDup ns →
  Forall (λ n, (n < length (heap w))%nat) ns →
  ∃ h',
    for_each ns (resolve_reference (mm_record [] pairs)) tt w =
      Ok (tt, mkWorld (node_counter w) (member_counter w)
                      (memberset_counter w) h') ∧
    length h' = length (heap w) ∧
    ∀ n, h' !!! n = if decide (n ∈ ns) then resolved pairs (heap w !!! n)
                    else heap w !!! n.
Proof.
  induction ns as [|n r IH]; intros w Hnd Hlt.
  - exists (heap w). destruct w. split_and!; try done.
  - apply NoDup_cons in Hnd as [Hn Hnd].
    apply Forall_cons in Hlt as [Hlt Hltr].
    set (w1 := mkWorld (node_counter w) (member_counter w)
                 (memberset_counter w)
                 (<[n := resolved pairs (heap w !!! n)]> (heap w))).
    destruct (IH w1 Hnd) as (h' & Hrun & Hlen & Hget).
    { simpl. eapply Forall_impl; [exact Hltr|]. intros ? ?.
      by rewrite length_insert. }
    exists h'. split_and!.
    + simpl. unfold bind. rewrite resolve_reference_step by done.
      exact Hrun.
    + rewrite Hlen. simpl. by rewrite length_insert.
    + intros n'. rewrite Hget. simpl.
      destruct (decide (n' = n)) as [->|Hne].
      * rewrite decide_False by done. rewrite decide_True by left.
        by rewrite list_lookup_total_insert_eq.
      * rewrite list_lookup_total_insert_ne by done.
        destruct (decide (n' ∈ r)).
        -- by rewrite decide_True by (by right).
        -- rewrite decide_False; [done|].
           intros H. apply elem_of_cons in H as [?|?]; done.
Qed.

Lemma resolve_references_spec pairs w :
  NoDup pairs.*2 →
  Forall (λ n, (n < length (heap w))%nat) pairs.*2 →
  ∃ h',
    resolve_references (mm_record [] pairs) w =
      Ok (tt, mkWorld (node_counter w) (member_counter w)
                      (memberset_counter w) h') ∧
    length h' = length (heap w) ∧
    ∀ n, h' !!! n = if decide (n ∈ pairs.*2)
                    then resolved pairs (heap w !!! n) else heap w !!! n.
Proof.
  intros Hnd Hlt.
  pose proof (mm_record_values pairs []) as Hperm. simpl in Hperm.
  destruct (resolve_loop pairs (mjoin ((mm_record [] pairs).*2)) w)
    as (h' & Hrun & Hlen & Hget).
  { by rewrite Hperm. }
  { by rewrite Hperm. }
  exists h'. split_and!; [|done|].
  - unfold resolve_references. rewrite for_each_unit_join. exact Hrun.
  - intros n. rewrite Hget.
    destruct (decide (n ∈ pairs.*2)) as [Hin|Hin].
    + rewrite decide_True; [done|]. by rewrite Hperm.
    + rewrite decide_False; [done|]. by rewrite Hperm.
Qed.

Lemma join_lookup_total_uniform {A} `{Inhabited A} (xss : list (list A))
    (N p k : nat) (xs : list A) :
  Forall (λ l, length l = N) xss →
  xss !! p = Some xs →
  (k < N)%nat →
  mjoin xss !!! (p * N + k)%nat = xs !!! k.
Proof.
  revert p. induction xss as [|ys r IH]; intros p Hlen Hp Hk; [done|].
  apply Forall_cons in Hlen as [Hys Hr].
  destruct p as [|p]; simpl in Hp.
  - injection Hp as ->. simpl. apply lookup_total_app_l. lia.
  - simpl. rewrite lookup_total_app_r by lia.
    replace (N + p * N + k - length ys)%nat with (p * N + k)%nat by lia.
    by apply IH.
Qed.

Lemma length_join_uniform {A} (xss : list (list A)) (N : nat) :
  Forall (λ l, length l = N) xss →
  length (mjoin xss) = (length xss * N)%nat.
Proof.
  induction 1 as [|x r Hx Hr IH]; [done|].
  simpl. by rewrite length_app, Hx, IH.
Qed.

Lemma length_join_replicate {A} (n : nat) (xs : list A) :
  length (mjoin (replicate n xs)) = (n * length xs)%nat.
Proof.
  induction n as [|n IH]; [done|].
  simpl. by rewrite length_app, IH.
Qed.

Lemma create_combined_model_pattern_spec (model : FERS) (count : Z)
    (sv : Vec3) (w : World) :
  let h0 := heap w in
  let walk := member_walk model in
  let N := length walk in
  let C := Z.to_nat (count - 1) in
  let base := length h0 in
  let nm := node_mapping_of model count sv w in
  let pairs := zip (mjoin (replicate C walk)) (seq base (C * N)) in
  wf_model h0 model →
  (∀ l rn, ¬ dangling_reference_node h0 model l rn) →
  ∃ combined w' chunks,
    create_combined_model_pattern model count sv w = Ok (combined, w') ∧
    member_sets combined = member_sets model ++ mjoin chunks ∧
    length chunks = C ∧
    Forall (Forall2 set_copy (member_sets model)) chunks ∧
    (∀ (p : nat) chunk, chunks !! p = Some chunk →
       mjoin (members <$> chunk) = seq (base + p * N) N) ∧
    length (heap w') = (base + C * N)%nat ∧
    (∀ l, (l < base)%nat → heap w' !!! l = h0 !!! l) ∧
    (∀ (p k : nat) o, (p < C)%nat → walk !! k = Some o →
       ∃ mid, heap w' !!! (base + p * N + k)%nat =
              resolved pairs
                (dup_member nm (1 + Z.of_nat p) mid (h0 !!! o))).
Proof.
  intros h0 walk N C base nm pairs Hwf Hnodangling.
  rewrite create_combined_model_pattern_unfold.
  fold nm. set (w1 := alloc_nodes _ w).
  pose proof (replicate_member_sets_copies nm h0 (member_sets model)
                (range 1 count) (mkFERS (member_sets model)) [] w1) as Hp2.
  simpl in Hp2. fold (member_walk model) in Hp2. fold walk in Hp2.
  fold N in Hp2. rewrite range_length in Hp2.
  replace (Z.to_nat (count - 1)) with C in Hp2 by done.
  destruct (for_each (range 1 count) _ _ _) as [[[combined mm] w2]|e].
  2:{ exfalso. destruct Hp2 as (i & Hi & l & rn & Hl & Hrn & Hnone & _);
        [done|exact Hwf| |].
      { intros i Hi. apply elem_of_range in Hi.
        by apply endpoints_mapped_walk. }
      apply (Hnodangling l rn). split_and!; [done..|].
      intros Hin. apply elem_of_range in Hi.
      subst nm. unfold node_mapping_of in Hnone.
      destruct (replicate_nodes_spec model count sv w)
        as (nm' & Hrun & _ & Hdom & _).
      rewrite Hrun in Hnone.
      assert (is_Some (nm' !! [node_id rn; i])) as [? Hsome]
        by (by apply Hdom).
      by rewrite Hsome in Hnone. }
  destruct Hp2 as ((chunks & Hc1 & Hc2 & Hc3 & Hc4) & Hmm & Hnc &
                   (addeds & Hh & Hd) & Hres); [done|exact Hwf| |].
  { intros i Hi. apply elem_of_range in Hi. by apply endpoints_mapped_walk. }
  simpl in Hc1, Hmm. subst mm. fold base in Hc4 |- *.
  change (length h0) with base. fold pairs.
  assert (Forall (λ l, length l = N) addeds) as Hlens.
  { apply Forall_forall. intros added Hin.
    apply list_elem_of_lookup in Hin as [p Hp].
    destruct (Forall2_lookup_r _ _ _ _ _ Hd Hp) as (i & _ & Hdup).
    symmetry. eapply Forall2_length, Hdup. }
  assert (length addeds = C) as HlenA.
  { rewrite <- (Forall2_length _ _ _ Hd). apply range_length. }
  assert (length (mjoin addeds) = (C * N)%nat) as HlenJ.
  { rewrite <- HlenA. by apply length_join_uniform. }
  assert (pairs.*2 = seq base (C * N)) as Hsnd.
  { subst pairs. apply snd_zip.
    rewrite length_join_replicate, length_seq. done. }
  destruct (resolve_references_spec pairs w2) as (h' & Hrun & Hlen & Hget).
  { rewrite Hsnd. apply NoDup_seq. }
  { rewrite Hsnd, Hh. apply Forall_forall. intros n Hn.
    apply elem_of_seq in Hn. rewrite length_app, HlenJ.
    subst w1. simpl. fold h0. fold base. lia. }
  cbn [fst snd]. change (mm_record [] _) with (mm_record [] pairs).
  rewrite Hrun. simpl.
  exists combined, (mkWorld (node_counter w2) (member_counter w2)
                            (memberset_counter w2) h'), chunks.
  split_and!; try done.
  - simpl. rewrite Hlen, Hh, length_app, HlenJ. done.
  - intros l Hl. simpl. rewrite Hget, decide_False.
    + rewrite Hh. by apply lookup_total_app_l.
    + rewrite Hsnd, elem_of_seq. lia.
  - intros p k o Hp Hk. simpl. rewrite Hget, decide_True.
    2:{ rewrite Hsnd, elem_of_seq. apply lookup_lt_Some in Hk.
        fold N in Hk. nia. }
    assert (range 1 count !! p = Some (1 + Z.of_nat p)) as Hi.
    { apply range_lookup. subst C. lia. }
    destruct (Forall2_lookup_l _ _ _ _ _ Hd Hi) as (added & Ha & Hdup).
    destruct (Forall2_lookup_l _ _ _ _ _ Hdup Hk) as (m' & Hm' & Heq).
    exists (member_id m'). f_equal.
    rewrite Hh. subst w1. simpl. fold h0.
    rewrite lookup_total_app_r by (fold base; lia).
    replace (base + p * N + k - length h0)%nat with (p * N + k)%nat
      by (fold base; lia).
    rewrite (join_lookup_total_uniform addeds N p k added Hlens Ha).
    2:{ apply lookup_lt_Some in Hk. done. }
    rewrite (list_lookup_total_correct _ _ _ Hm'). done.
Qed.

Lemma first_dup_none pairs r : r ∉ pairs.*1 → first_dup pairs r = None.
Proof.
  intros Hr. unfold first_dup.
  replace (filter (λ p, p.1 = r) pairs) with (@nil (loc * loc)); [done|].
  symmetry. induction pairs as [|q ps IH]; [done|].
  rewrite filter_cons_False.
  - apply IH. intros H. apply Hr. simpl. by right.
  - intros E. apply Hr. simpl. rewrite E. left.
Qed.

Lemma first_dup_zip_seq walk rest r : ∀ base,
  first_dup (zip walk (seq base (length walk)) ++ rest) r =
  match list_find (λ l, l = r) walk with
  | Some x => Some (base + x.1)%nat
  | None => first_dup rest r
  end.
Proof.
  induction walk as [|o t IH]; intros base; [done|].
  simpl. destruct (decide (o = r)) as [->|Hne].
  - unfold first_dup. rewrite filter_cons_True by done. simpl.
    f_equal. lia.
  - unfold first_dup. rewrite filter_cons_False by done.
    fold (first_dup (zip t (seq (S base) (length t)) ++ rest) r).
    rewrite IH. destruct (list_find _ t) as [[k y]|]; simpl; [|done].
    f_equal. lia.
Qed.

Lemma first_dup_pairs walk (C base : nat) r :
  (0 < C)%nat →
  first_dup (zip (mjoin (replicate C walk)) (seq base (C * length walk))) r =
  first_copy_of walk base r.
Proof.
  intros HC. destruct C as [|C]; [lia|].
  change (mjoin (replicate (S C) walk))
    with (walk ++ mjoin (replicate C walk)).
  change (S C * length walk)%nat with (length walk + C * length walk)%nat.
  rewrite seq_app, zip_with_app by (by rewrite length_seq).
  rewrite first_dup_zip_seq. unfold first_copy_of.
  destruct (list_find _ walk) as [[k y]|] eqn:E; [done|]. simpl.
  apply first_dup_none. intros Hin.
  apply list_elem_of_fmap in Hin as ([a b] & -> & Hab).
  apply elem_of_zip_l in Hab. simpl in *.
  apply list_elem_of_join in Hab as (xs & Ha & Hxs).
  apply elem_of_replicate in Hxs as [-> _].
  apply list_find_None in E. rewrite Forall_forall in E. by apply (E a).
Qed.

Lemma reference_member_resolved pairs m :
  reference_member (resolved pairs m) =
  match reference_member m with
  | Some r => first_dup pairs r
  | None => None
  end.
Proof. unfold resolved. by destruct (reference_member m) eqn:E. Qed.

(** What [create_combined_model_pattern] leaves in [reference_member] of the
    duplicate, in any copy, of a member whose source refers to [r]: the
    first-copy duplicate of [r], or [None] when [r] is no member of the
    model. *)
Lemma duplicate_reference_member (model : FERS) (count : Z) (sv : Vec3)
    (w : World) :
  let walk := member_walk model in
  let N := length walk in
  let base := length (heap w) in
  wf_model (heap w) model →
  (∀ l rn, ¬ dangling_reference_node (heap w) model l rn) →
  ∃ combined w' chunks,
    create_combined_model_pattern model count sv w = Ok (combined, w') ∧
    member_sets combined = member_sets model ++ mjoin chunks ∧
    length chunks = Z.to_nat (count - 1) ∧
    Forall (Forall2 set_copy (member_sets model)) chunks ∧
    (∀ (p : nat) chunk, chunks !! p = Some chunk →
       mjoin (members <$> chunk) = seq (base + p * N) N) ∧
    (∀ (p k : nat) o, (p < Z.to_nat (count - 1))%nat → walk !! k = Some o →
       reference_member (heap w' !!! (base + p * N + k)%nat) =
       match reference_member (heap w !!! o) with
       | Some r => first_copy_of walk base r
       | None => None
       end).
Proof.
  intros walk N base Hwf Hnd.
  destruct (create_combined_model_pattern_spec model count sv w Hwf Hnd)
    as (combined & w' & chunks & Hrun & Hsets & Hlen & Hcopy & Hlocs & _ & _ &
        Hmem).
  exists combined, w', chunks. split_and!; try done.
  intros p k o Hp Hk.
  destruct (Hmem p k o Hp Hk) as [mid Hm].
  subst walk N base. rewrite Hm.
  rewrite reference_member_resolved. simpl.
  destruct (reference_member (heap w !!! o)); [|done].
  apply first_dup_pairs. lia.
Qed.


(** ** [translate_model] *)

Lemma translate_nodes_loop v ns : ∀ tm w,
  NoDup (node_id <$> ns) →
  ∃ tm',
    for_each ns (translate_node v) tm w =
      Ok (tm', alloc_nodes (Z.of_nat (length ns)) w) ∧
    (∀ id, id ∉ node_id <$> ns → tm' !! id = tm !! id) ∧
    (∀ (k : nat) n, ns !! k = Some n →
       tm' !! node_id n =
       Some (translated_node (node_counter w + Z.of_nat k) v n)).
Proof.
  induction ns as [|n r IH]; intros tm w Hnd.
  - exists tm. simpl. unfold ret. rewrite alloc_nodes_0. split_and!; done.
  - simpl in Hnd. apply NoDup_cons in Hnd as [Hn Hnd].
    destruct (IH (<[node_id n := translated_node (node_counter w) v n]> tm)
                 (alloc_nodes 1 w) Hnd) as (tm' & Hrun & Hother & Hmine).
    exists tm'. split_and!.
    + simpl. unfold bind at 1. unfold translate_node at 2.
      unfold bind, Node_new, ret. simpl.
      etrans; [exact Hrun|]. rewrite alloc_nodes_alloc_nodes.
      do 3 f_equal. lia.
    + intros id Hid. rewrite Hother.
      * apply lookup_insert_ne. intros <-. apply Hid. simpl. left.
      * intros Hin. apply Hid. simpl. by right.
    + intros [|k] n' Hlk; simpl in Hlk.
      * injection Hlk as <-. rewrite Hother by done.
        rewrite lookup_insert_eq. do 2 f_equal. lia.
      * rewrite (Hmine k n' Hlk). do 2 f_equal. simpl. lia.
Qed.

Lemma translation_map_spec model v w :
  let ns := get_all_nodes (heap w) model in
  for_each ns (translate_node v) ∅ w =
    Ok (translation_map_of model v w,
        alloc_nodes (Z.of_nat (length ns)) w) ∧
  (∀ id, is_Some (translation_map_of model v w !! id) ↔
         id ∈ node_id <$> ns) ∧
  (∀ (k : nat) n, ns !! k = Some n →
     translation_map_of model v w !! node_id n =
     Some (translated_node (node_counter w + Z.of_nat k) v n)).
Proof.
  intros ns. unfold translation_map_of. fold ns.
  destruct (translate_nodes_loop v ns ∅ w (get_all_nodes_NoDup _ _))
    as (tm & Hrun & Hother & Hmine).
  rewrite Hrun. split_and!; [done| |done].
  intros id. split.
  - intros Hsome. destruct (decide (id ∈ node_id <$> ns)); [done|].
    rewrite Hother, lookup_empty in Hsome by done. by destruct Hsome.
  - intros Hin. apply list_elem_of_fmap in Hin as (n & -> & Hn).
    apply list_elem_of_lookup in Hn as [k Hk]. rewrite (Hmine k n Hk). eauto.
Qed.

Lemma subscript_id_Some tm key n w :
  tm !! key = Some n → subscript_id tm key w = Ok (n, w).
Proof. intros H. unfold subscript_id. by rewrite H. Qed.

Lemma translate_member_ok tm acc l w :
  is_Some (tm !! node_id (start_node (heap w !!! l))) →
  is_Some (tm !! node_id (end_node (heap w !!! l))) →
  translate_member tm acc l w =
  Ok (acc ++ [length (heap w)],
      push_member (moved_member tm (member_counter w) (heap w !!! l)) w).
Proof.
  intros [s Hs] [e He]. unfold translate_member, bind, load.
  rewrite (subscript_id_Some _ _ _ _ Hs), (subscript_id_Some _ _ _ _ He).
  unfold moved_member.
  by rewrite (lookup_total_correct _ _ _ Hs), (lookup_total_correct _ _ _ He).
Qed.

Lemma translate_members_loop tm h0 ls : ∀ acc w,
  h0 `prefix_of` heap w →
  Forall (λ l, (l < length h0)%nat) ls →
  endpoints_translated tm h0 ls →
  ∃ w' added,
    for_each ls (translate_member tm) acc w =
      Ok (acc ++ seq (length (heap w)) (length ls), w') ∧
    node_counter w' = node_counter w ∧
    memberset_counter w' = memberset_counter w ∧
    heap w' = heap w ++ added ∧
    moved_members tm h0 ls added.
Proof.
  induction ls as [|l r IH]; intros acc w Hpre Hwf Hmapped.
  - exists w, []. simpl. rewrite !app_nil_r. split_and!; try done.
    constructor.
  - apply Forall_cons in Hwf as [Hl Hwf].
    apply Forall_cons in Hmapped as [[Hs He] Hmapped].
    assert (heap w !!! l = h0 !!! l) as Hread by by apply read_original.
    set (w1 := push_member
                 (moved_member tm (member_counter w) (heap w !!! l)) w).
    destruct (IH (acc ++ [length (heap w)]) w1)
      as (w' & added & Hrun & Hnc & Hsc & Hh & Hmoved); [|done..|].
    { simpl. etrans; [exact Hpre|]. by apply prefix_app_r. }
    exists w', (moved_member tm (member_counter w) (heap w !!! l) :: added).
    split_and!.
    + simpl. unfold bind.
      rewrite translate_member_ok by (by rewrite Hread).
      fold w1. rewrite Hrun. simpl. rewrite length_app. simpl.
      replace (length (heap w) + 1)%nat with (S (length (heap w))) by lia.
      by rewrite <- app_assoc.
    + by rewrite Hnc.
    + by rewrite Hsc.
    + rewrite Hh. simpl. by rewrite <- app_assoc.
    + constructor; [|done]. by rewrite Hread.
Qed.

Lemma translate_member_set_of_model_step tm new_model ms w acc w1 :
  for_each (members ms) (translate_member tm) [] w = Ok (acc, w1) →
  translate_member_set_of_model tm new_model ms w =
  Ok (add_member_set new_model
        (mkMemberSet (member_set_id ms) acc (classification ms) None None),
      w1).
Proof.
  intros H. unfold translate_member_set_of_model, bind. by rewrite H.
Qed.

Lemma translate_member_sets_loop tm h0 mss : ∀ new_model w,
  let walk := mjoin (members <$> mss) in
  h0 `prefix_of` heap w →
  Forall (λ l, (l < length h0)%nat) walk →
  endpoints_translated tm h0 walk →
  ∃ new_sets w' added,
    for_each mss (translate_member_set_of_model tm) new_model w =
      Ok (mkFERS (member_sets new_model ++ new_sets), w') ∧
    Forall2 rebuilt_set mss new_sets ∧
    mjoin (members <$> new_sets) = seq (length (heap w)) (length walk) ∧
    node_counter w' = node_counter w ∧
    heap w' = heap w ++ added ∧
    moved_members tm h0 walk added.
Proof.
  induction mss as [|ms r IH]; intros new_model w walk Hpre Hwf Hmapped.
  - exists [], w, []. simpl. unfold ret. rewrite !app_nil_r.
    destruct new_model. split_and!; try done; constructor.
  - subst walk. simpl in Hwf, Hmapped.
    apply Forall_app in Hwf as [Hwf1 Hwf2].
    apply Forall_app in Hmapped as [Hm1 Hm2].
    destruct (translate_members_loop tm h0 (members ms) [] w Hpre Hwf1 Hm1)
      as (w1 & added1 & Hrun1 & Hnc1 & Hsc1 & Hh1 & Hmoved1).
    set (ms' := mkMemberSet (member_set_id ms)
                  (seq (length (heap w)) (length (members ms)))
                  (classification ms) None None).
    assert (h0 `prefix_of` heap w1) as Hpre1.
    { rewrite Hh1. etrans; [exact Hpre|]. by apply prefix_app_r. }
    destruct (IH (add_member_set new_model ms') w1 Hpre1 Hwf2 Hm2)
      as (new_sets & w' & added2 & Hrun & Hsets & Hlocs & Hnc & Hh & Hmoved).
    assert (length (heap w1) =
            (length (heap w) + length (members ms))%nat) as Hlen.
    { rewrite Hh1, length_app. f_equal. symmetry.
      eapply Forall2_length, Hmoved1. }
    exists (ms' :: new_sets), w', (added1 ++ added2). split_and!.
    + simpl. unfold bind at 1.
      rewrite (translate_member_set_of_model_step _ _ _ _ _ _ Hrun1).
      simpl. fold ms'.
      etrans; [exact Hrun|]. simpl. by rewrite <- app_assoc.
    + constructor; [|done]. subst ms'. unfold rebuilt_set. simpl.
      by rewrite length_seq.
    + change (mjoin (members <$> ms' :: new_sets))
        with (members ms' ++ mjoin (members <$> new_sets)).
      change (mjoin (members <$> ms :: r))
        with (members ms ++ mjoin (members <$> r)).
      rewrite Hlocs, Hlen, length_app, seq_app. done.
    + by rewrite Hnc.
    + by rewrite Hh, Hh1, app_assoc.
    + by apply Forall2_app.
Qed.

Lemma translate_model_spec (model : FERS) (v : Vec3) (w : World) :
  let walk := member_walk model in
  let base := length (heap w) in
  let tm := translation_map_of model v w in
  wf_model (heap w) model →
  ∃ new_model w',
    translate_model model v w = Ok (new_model, w') ∧
    Forall2 rebuilt_set (member_sets model) (member_sets new_model) ∧
    mjoin (members <$> member_sets new_model) = seq base (length walk) ∧
    (∀ l, (l < base)%nat → heap w' !!! l = heap w !!! l) ∧
    (∀ (k : nat) o, walk !! k = Some o →
       ∃ mid, heap w' !!! (base + k)%nat = moved_member tm mid (heap w !!! o)).
Proof.
  intros walk base tm Hwf.
  destruct (translation_map_spec model v w) as (Hrun1 & Hdom & _).
  fold tm in Hrun1, Hdom.
  set (w1 := alloc_nodes _ w) in Hrun1.
  destruct (translate_member_sets_loop tm (heap w) (member_sets model)
              FERS_new w1)
    as (new_sets & w' & added & Hrun & Hsets & Hlocs & _ & Hh & Hmoved);
    [done|exact Hwf| |].
  { apply Forall_forall. intros l Hl.
    destruct (endpoint_enumerated (heap w) model l Hl).
    split; by apply Hdom. }
  exists (mkFERS new_sets), w'. split_and!; try done.
  - unfold translate_model, bind, get_all_member_sets.
    rewrite Hrun1. exact Hrun.
  - intros l Hl. rewrite Hh. simpl. by apply lookup_total_app_l.
  - intros k o Hk.
    destruct (Forall2_lookup_l _ _ _ _ _ Hmoved Hk) as (m' & Hm' & Heq).
    exists (member_id m'). rewrite Hh. simpl.
    rewrite lookup_total_app_r by (unfold base; lia).
    replace (base + k - length (heap w))%nat with k by (unfold base; lia).
    by rewrite (list_lookup_total_correct _ _ _ Hm').
Qed.

(** What [translate_model] makes of the endpoints: each rebuilt member takes
    its endpoints from the id-keyed map, whose entry for the id of a source
    node is that node moved by the vector, with no nodal support and no
    classification. *)
Lemma translate_model_endpoints (model : FERS) (v : Vec3) (w : World) :
  let walk := member_walk model in
  let base := length (heap w) in
  let ns := get_all_nodes (heap w) model in
  let tm := translation_map_of model v w in
  wf_model (heap w) model →
  ∃ new_model w',
    translate_model model v w = Ok (new_model, w') ∧
    mjoin (members <$> member_sets new_model) = seq base (length walk) ∧
    (∀ (k : nat) n, ns !! k = Some n →
       tm !! node_id n =
       Some (translated_node (node_counter w + Z.of_nat k) v n)) ∧
    (∀ (k : nat) o, walk !! k = Some o →
       start_node (heap w' !!! (base + k)%nat) =
         tm !!! node_id (start_node (heap w !!! o)) ∧
       end_node (heap w' !!! (base + k)%nat) =
         tm !!! node_id (end_node (heap w !!! o)) ∧
       nodal_support (start_node (heap w' !!! (base + k)%nat)) = None ∧
       node_classification (start_node (heap w' !!! (base + k)%nat)) = None ∧
       nodal_support (end_node (heap w' !!! (base + k)%nat)) = None ∧
       node_classification (end_node (heap w' !!! (base + k)%nat)) = None).
Proof.
  intros walk base ns tm Hwf.
  destruct (translate_model_spec model v w Hwf)
    as (new_model & w' & Hrun & _ & Hlocs & _ & Hmem).
  destruct (translation_map_spec model v w) as (_ & Hdom & Hval).
  exists new_model, w'. split_and!; try done.
  intros k o Hk. destruct (Hmem k o Hk) as [mid Hm].
  fold base in Hm. rewrite Hm. simpl.
  assert (∀ id, id ∈ node_id <$> ns →
                nodal_support (tm !!! id) = None ∧
                node_classification (tm !!! id) = None) as Hnone.
  { intros id Hid. apply list_elem_of_fmap in Hid as (n & -> & Hn).
    apply list_elem_of_lookup in Hn as [j Hj].
    unfold tm. by rewrite (lookup_total_correct _ _ _ (Hval j n Hj)). }
  assert (o ∈ member_walk model) as Ho by (by eapply list_elem_of_lookup_2).
  destruct (endpoint_enumerated (heap w) model o Ho) as [Hs He].
  destruct (Hnone _ Hs), (Hnone _ He). split_and!; done.
Qed.

(** C9. [translate_model] rebuilds every member set with its members, its
    classification and its id only, so the rebuilt set has [L_y = None] and
    [L_z = None] whatever the source had; the copies that
    [create_combined_model_pattern] makes keep the [L_y] and [L_z] of their
    source. *)
Theorem translate_model_loses_group_lengths (model : FERS) (v sv : Vec3)
    (count : Z) (w : World) :
  wf_model (heap w) model →
  (∃ new_model w',
     translate_model model v w = Ok (new_model, w') ∧
     Forall2 (λ ms ms',
                L_y ms' = None ∧ L_z ms' = None ∧
                classification ms' = classification ms ∧
                member_set_id ms' = member_set_id ms ∧
                length (members ms') = length (members ms))
             (member_sets model) (member_sets new_model)) ∧
  ((∀ l rn, ¬ dangling_reference_node (heap w) model l rn) →
   ∃ combined w' chunks,
     create_combined_model_pattern model count sv w = Ok (combined, w') ∧
     member_sets combined = member_sets model ++ mjoin chunks ∧
     length chunks = Z.to_nat (count - 1) ∧
     Forall (Forall2 (λ ms ms', L_y ms' = L_y ms ∧ L_z ms' = L_z ms)
                     (member_sets model)) chunks).
Proof.
  intros Hwf. split.
  - destruct (translate_model_spec model v w Hwf)
      as (new_model & w' & Hrun & Hsets & _).
    exists new_model, w'. split; [done|].
    eapply Forall2_impl; [exact Hsets|].
    intros ms ms' (? & ? & ? & ? & ?). done.
  - intros Hnd.
    destruct (create_combined_model_pattern_spec model count sv w Hwf Hnd)
      as (combined & w' & chunks & Hrun & Hsets & Hlen & Hcopy & _).
    exists combined, w', chunks. split_and!; try done.
    eapply Forall_impl; [exact Hcopy|]. intros chunk Hc.
    eapply Forall2_impl; [exact Hc|].
    intros ms ms' (? & ? & ? & ?). done.
Qed.

(** Two nodes of the model at the same coordinates both get a Node of their
    own in every copy: the test of line 158 never finds the coordinates. *)
Lemma coincident_nodes_both_copied (model : FERS) (count : Z) (sv : Vec3)
    (w : World) (i : Z) (n1 n2 : Node) :
  let ns := get_all_nodes (heap w) model in
  let nm := node_mapping_of model count sv w in
  1 ≤ i < count →
  n1 ∈ ns → n2 ∈ ns → n1 ≠ n2 →
  ∃ c1 c2, c1 ≠ c2 ∧
    nm !! [node_id n1; i] = Some (copy_of_node c1 (scaled sv i) n1) ∧
    nm !! [node_id n2; i] = Some (copy_of_node c2 (scaled sv i) n2).
Proof.
  intros ns nm Hi H1 H2 Hne.
  subst nm. unfold node_mapping_of.
  destruct (replicate_nodes_spec model count sv w)
    as (nm & -> & _ & _ & Hval).
  apply list_elem_of_lookup in H1 as [k1 Hk1].
  apply list_elem_of_lookup in H2 as [k2 Hk2].
  assert (i ∈ range 1 count) as Hr by (by apply elem_of_range).
  apply list_elem_of_lookup in Hr as [p Hp].
  eexists _, _. split; [|split; [exact (Hval p i k1 n1 Hp Hk1)|
                               exact (Hval p i k2 n2 Hp Hk2)]].
  intros E. apply Hne.
  assert (k1 = k2) as -> by lia. congruence.
Qed.

(** ** Failing inputs *)

(** C1 on the beam with [count = 3].  The copies of the set [[0; 1]] are
    [[2; 3]] and [[4; 5]]; member 1 refers to member 0, its duplicate in the
    first copy refers to the duplicate 2 of member 0, and so does its
    duplicate 5 in the second copy, where the duplicate of member 0 is 4. *)
Theorem second_copy_refers_to_first_copy :
  ∃ combined w',
    create_combined_model_pattern Beam.model 3 (10, 0, 0) Beam.world =
      Ok (combined, w') ∧
    members <$> member_sets combined = [[0; 1]; [2; 3]; [4; 5]]%nat ∧
    reference_member (heap Beam.world !!! 1%nat) = Some 0%nat ∧
    reference_member (heap w' !!! 3%nat) = Some 2%nat ∧
    reference_member (heap w' !!! 5%nat) = Some 2%nat.
Proof.
  eexists _, _. split; [vm_compute; reflexivity|]. vm_compute. done.
Qed.


(** C3 on two member sets that meet at (1, 0, 0) with [count = 2].  The end
    of the copy of member 0 and the start of the copy of member 1 are two
    Nodes with different ids at the same coordinates (11, 0, 0). *)
Theorem coincident_nodes_are_not_collapsed :
  ∃ combined w',
    create_combined_model_pattern Coincident.model 2 (10, 0, 0)
                                  Coincident.world = Ok (combined, w') ∧
    members <$> member_sets combined = [[0]; [1]; [2]; [3]]%nat ∧
    end_node (heap w' !!! 2%nat) = mkNode 6 11 0 0 None None ∧
    start_node (heap w' !!! 3%nat) = mkNode 7 11 0 0 None None.
Proof.
  eexists _, _. split; [vm_compute; reflexivity|]. vm_compute. done.
Qed.

(** C4 on the beam.  Node 1 is supported and node 2 is classified; the
    translated member 2 starts at a Node with no support and ends at a Node
    with no classification, at the translated coordinates. *)
Theorem translate_model_drops_support_and_classification :
  ∃ new_model w',
    translate_model Beam.model (10, 0, 0) Beam.world = Ok (new_model, w') ∧
    members <$> member_sets new_model = [[2; 3]]%nat ∧
    nodal_support (start_node (heap Beam.world !!! 0%nat)) = Some 7 ∧
    node_classification (end_node (heap Beam.world !!! 0%nat)) =
      Some "top"%string ∧
    start_node (heap w' !!! 2%nat) = mkNode 4 10 0 0 None None ∧
    end_node (heap w' !!! 2%nat) = mkNode 5 11 0 0 None None ∧
    start_node (heap w' !!! 3%nat) = end_node (heap w' !!! 2%nat).
Proof.
  eexists _, _. split; [vm_compute; reflexivity|]. vm_compute. done.
Qed.

(** ** [get_membersets_by_classification] *)

Lemma prefix_append (a b : string) :
  String.prefix a b = true ↔ ∃ post, b = a +:+ post.
Proof.
  revert b. induction a as [|c a IH]; intros b; simpl.
  - destruct b; (split; [intros _; eauto|done]).
  - destruct b as [|c' b]; simpl.
    + split; [done|]. by intros (post & ?).
    + destruct (ascii_dec c c') as [->|Hne].
      * rewrite IH. split.
        -- intros (post & ->). by exists post.
        -- intros (post & [= ->]). by exists post.
      * split; [done|]. intros (post & [= ? _]). done.
Qed.

(** The substring test finds the needle after some prefix of the hay. *)
Lemma contains_append (needle hay : string) :
  contains needle hay = true ↔ ∃ pre post, hay = pre +:+ needle +:+ post.
Proof.
  induction hay as [|c hay IH].
  - cbn [contains]. rewrite orb_false_r, prefix_append. split.
    + intros (post & ->). by exists EmptyString, post.
    + intros ([|c pre] & post & H); [by exists post|done].
  - cbn [contains]. rewrite orb_true_iff, prefix_append, IH. split.
    + intros [(post & ->)|(pre & post & ->)].
      * by exists EmptyString, post.
      * by exists (String c pre), post.
    + intros ([|c' pre] & post & H).
      * left. by exists post.
      * right. simpl in H. injection H as -> ->. by exists pre, post.
Qed.

Section ClassificationProperties.
Variable is_word_char : ascii → bool.
Variable Pattern : Type.
Variable re_compile : string → option Pattern.
Variable re_search : Pattern → string → bool.

(** What the model assumes of the engine: a pattern made of word
    characters, with or without a closing newline, compiles, and
    searching for it finds it exactly where it occurs as a substring. *)
Hypothesis literal_patterns : ∀ s,
  match_word_token is_word_char s = true →
  ∃ p, re_compile s = Some p ∧
       ∀ text, re_search p text = true ↔ occurs_in s text.

Lemma all_word_chars_dollar s :
  all_word_chars is_word_char s = true →
  dollar_after_words is_word_char s = true.
Proof.
  induction s as [|c r IH]; simpl; [done|].
  intros H. apply andb_prop in H as [Hc Hr].
  rewrite Hc, (IH Hr). simpl. apply orb_true_r.
Qed.

Lemma pure_word_token_match s :
  pure_word_token is_word_char s = true →
  match_word_token is_word_char s = true.
Proof.
  destruct s as [|c r]; simpl; [done|].
  intros H. apply andb_prop in H as [Hc Hr].
  by rewrite Hc, all_word_chars_dollar.
Qed.

(** C8. The lookup returns member sets of the model, in the order of the
    model.  With a filter that is a pure word-character token they are the
    sets whose classification holds the filter as a substring; with any
    other filter that compiles they are the sets in whose classification the
    engine's search finds the compiled expression; and a filter that does
    not compile raises the compilation error. *)
Theorem classification_lookup_dispatch (self : FERS) (pattern : string) :
  let lookup :=
    get_membersets_by_classification is_word_char Pattern re_compile
                                     re_search self pattern in
  let selects (chosen : MemberSet → Prop) :=
    ∃ result,
      lookup = Ok result ∧ sublist result (member_sets self) ∧
      ∀ member_set,
        member_set ∈ result ↔
        member_set ∈ member_sets self ∧ chosen member_set in
  (pure_word_token is_word_char pattern = true →
   selects (λ member_set, occurs_in pattern (classification member_set))) ∧
  (pure_word_token is_word_char pattern = false →
   ∀ p, re_compile pattern = Some p →
        selects (λ member_set,
                   re_search p (classification member_set) = true)) ∧
  (re_compile pattern = None → lookup = Raise (ReError pattern)).
Proof.
  intros lookup selects. subst selects lookup.
  unfold get_membersets_by_classification.
  split_and!.
  - intros H. rewrite (pure_word_token_match _ H).
    eexists. split; [done|]. split; [apply sublist_filter|].
    intros member_set. rewrite list_elem_of_filter. unfold occurs_in.
    rewrite <- contains_append. tauto.
  - intros _ p Hp.
    destruct (match_word_token is_word_char pattern) eqn:E.
    + destruct (literal_patterns pattern E) as (p' & Hp' & Hsearch).
      assert (p' = p) as -> by congruence.
      eexists. split; [done|]. split; [apply sublist_filter|].
      intros member_set. rewrite list_elem_of_filter, Hsearch.
      unfold occurs_in. rewrite <- contains_append. tauto.
    + rewrite Hp. eexists. split; [done|]. split; [apply sublist_filter|].
      intros member_set. rewrite list_elem_of_filter. tauto.
  - intros Hnone.
    destruct (match_word_token is_word_char pattern) eqn:E.
    + destruct (literal_patterns pattern E) as (p & Hp & _). congruence.
    + by rewrite Hnone.
Qed.
End ClassificationProperties.

Lemma ascii_word_tokens_have_no_paren s :
  dollar_after_words ascii_word_char s = true → has_paren s = false.
Proof.
  induction s as [|c r IH]; simpl; [done|].
  intros H. apply orb_prop in H as [H|H].
  - apply andb_prop in H as [Hc Hr].
    apply Ascii.eqb_eq in Hc as ->. apply String.eqb_eq in Hr as ->. done.
  - apply andb_prop in H as [Hc Hr]. rewrite (IH Hr), orb_false_r.
    destruct (Ascii.eqb_spec c "("%char) as [->|]; [|done].
    vm_compute in Hc. discriminate.
Qed.

Lemma literal_engine_patterns s :
  match_word_token ascii_word_char s = true →
  ∃ p, literal_compile s = Some p ∧
       ∀ text, contains p text = true ↔ occurs_in s text.
Proof.
  intros H. exists s. split; [|intros text; apply contains_append].
  unfold literal_compile.
  destruct s as [|c r]; [done|]. simpl in H.
  apply andb_prop in H as [Hc Hr]. simpl.
  rewrite (ascii_word_tokens_have_no_paren r Hr), orb_false_r.
  destruct (Ascii.eqb_spec c "("%char) as [->|]; [|done].
  vm_compute in Hc. discriminate.
Qed.

(** ** [interpolate_beam_local] *)

Module DeformationProperties.
Import Deformation.

Section Numbers.
Variable A : Arithmetic.

Local Notation "x ⊕ y" := (add A x y) (at level 50, left associativity).
Local Notation "x ⊖ y" := (sub A x y) (at level 50, left associativity).
Local Notation "x ⊗ y" := (mul A x y) (at level 40, left associativity).
Local Notation "x ⊘ y" := (div A x y) (at level 40, left associativity).
Local Notation "# z" := (of_int A z) (at level 9).

Lemma length_linspace01 (n : nat) : length (linspace01 A n) = n.
Proof.
  unfold linspace01.
  repeat case_decide; rewrite ?length_insert, !length_fmap, length_seq; done.
Qed.

Lemma linspace01_lookup (n k : nat) :
  (k < n)%nat → (2 ≤ n)%nat → linspace01 A n !! k = Some (parameter A n k).
Proof.
  intros Hk Hn. unfold linspace01, parameter.
  rewrite (decide_True (P := (0 < n - 1)%nat)) by lia.
  rewrite (decide_True (P := (1 < n)%nat)) by lia.
  case_decide as Hlast.
  - subst k. apply list_lookup_insert_eq.
    rewrite !length_fmap, length_seq. lia.
  - rewrite list_lookup_insert_ne by done.
    by rewrite !list_lookup_fmap, lookup_seq_lt.
Qed.

Lemma sample_at
    (xstart xend uxs uys uzs uxe uye uze rxs rys rzs rxe rye rze : number A)
    (n_points k : nat) :
  (2 ≤ n_points)%nat → (k < n_points)%nat →
  let L := xend ⊖ xstart in
  let t := parameter A n_points k in
  interpolate_beam_local A xstart xend (uxs, uys, uzs) (uxe, uye, uze)
                         (rxs, rys, rzs) (rxe, rye, rze) n_points !! k =
  Some (uxs ⊕ (uxe ⊖ uxs) ⊗ t,
        uys ⊗ H1 A t ⊕ uye ⊗ H2 A t ⊕ (L ⊗ rzs) ⊗ H3 A t ⊕
          (L ⊗ rze) ⊗ H4 A t,
        uzs ⊗ H1 A t ⊕ uze ⊗ H2 A t ⊕ (neg A L ⊗ rys) ⊗ H3 A t ⊕
          (neg A L ⊗ rye) ⊗ H4 A t).
Proof.
  intros Hn Hk L t. unfold interpolate_beam_local.
  rewrite !lookup_zip_with, !list_lookup_fmap.
  rewrite (linspace01_lookup n_points k Hk Hn). simpl.
  reflexivity.
Qed.

(** C5. With [n_points >= 2] the result has [n_points] samples, taken at
    parameter values that are the multiples of one step, [1 / (n_points - 1)],
    the last one being 1; sample [k] is the linear interpolation of the end
    x-displacements, and the Hermite combinations of the end y- and
    z-displacements with the slopes [L * rz] and [-L * ry].  All of it is
    computed in the arithmetic of the machine, operation by operation as
    written here, and holds whatever that arithmetic rounds to. *)
Theorem interpolate_beam_local_samples
    (xstart xend uxs uys uzs uxe uye uze rxs rys rzs rxe rye rze : number A)
    (n_points : nat) :
  (2 ≤ n_points)%nat →
  let L := xend ⊖ xstart in
  let samples :=
    interpolate_beam_local A xstart xend (uxs, uys, uzs) (uxe, uye, uze)
                           (rxs, rys, rzs) (rxe, rye, rze) n_points in
  let step := (#1 ⊖ #0) ⊘ #(Z.of_nat (n_points - 1)) in
  let t := parameter A n_points in
  length samples = n_points ∧
  (∀ k : nat, (k < n_points - 1)%nat → t k = #(Z.of_nat k) ⊗ step ⊕ #0) ∧
  t (n_points - 1)%nat = #1 ∧
  ∀ k, (k < n_points)%nat →
    samples !! k =
    Some (uxs ⊕ (uxe ⊖ uxs) ⊗ t k,
          uys ⊗ H1 A (t k) ⊕ uye ⊗ H2 A (t k) ⊕ (L ⊗ rzs) ⊗ H3 A (t k) ⊕
            (L ⊗ rze) ⊗ H4 A (t k),
          uzs ⊗ H1 A (t k) ⊕ uze ⊗ H2 A (t k) ⊕
            (neg A L ⊗ rys) ⊗ H3 A (t k) ⊕ (neg A L ⊗ rye) ⊗ H4 A (t k)).
Proof.
  intros Hn L samples step t.
  split_and!.
  - subst samples. unfold interpolate_beam_local.
    rewrite !length_zip_with, !length_fmap, length_linspace01. lia.
  - intros k Hk. subst t step. unfold parameter.
    rewrite decide_False by lia. done.
  - subst t. unfold parameter. by rewrite decide_True.
  - intros k Hk. subst samples. by apply sample_at.
Qed.
End Numbers.

(** In exact arithmetic the parameter values are [k / (n_points - 1)]: they
    run from 0 to 1 in equal steps. *)
Lemma exact_parameter (n_points k : nat) :
  (2 ≤ n_points)%nat → (k < n_points)%nat →
  parameter exact n_points k =
  (Qc_of_Z (Z.of_nat k) / Qc_of_Z (Z.of_nat (n_points - 1)))%Qc.
Proof.
  intros Hn Hk.
  assert (Qc_of_Z (Z.of_nat (n_points - 1)) ≠ 0%Qc) as Hnz.
  { intros E. rewrite <- Z2Qc_inj_0 in E. apply Z2Qc_inj in E. lia. }
  unfold parameter. simpl. case_decide as Hlast.
  - subst k. rewrite Z2Qc_inj_1. field. done.
  - rewrite Z2Qc_inj_1, Z2Qc_inj_0. field. done.
Qed.
End DeformationProperties.

(** ** The theorems at concrete inputs *)


(** [translate_model_loses_group_lengths] on the beam, whose set has
    [L_y = 3] and [L_z = 4], translated once and replicated three times. *)
Lemma translate_model_loses_group_lengths_witness :
  wf_model (heap Beam.world) Beam.model ∧
  (∃ new_model w',
     translate_model Beam.model (10, 0, 0) Beam.world = Ok (new_model, w') ∧
     Forall2 (λ ms ms',
                L_y ms' = None ∧ L_z ms' = None ∧
                classification ms' = classification ms ∧
                member_set_id ms' = member_set_id ms ∧
                length (members ms') = length (members ms))
             (member_sets Beam.model) (member_sets new_model)) ∧
  (∃ combined w' chunks,
     create_combined_model_pattern Beam.model 3 (10, 0, 0) Beam.world =
       Ok (combined, w') ∧
     member_sets combined = member_sets Beam.model ++ mjoin chunks ∧
     length chunks = Z.to_nat (3 - 1) ∧
     Forall (Forall2 (λ ms ms', L_y ms' = L_y ms ∧ L_z ms' = L_z ms)
                     (member_sets Beam.model)) chunks).
Proof.
  assert (wf_model (heap Beam.world) Beam.model) as Hwf.
  { unfold wf_model. simpl. repeat constructor. }
  assert (∀ l rn, ¬ dangling_reference_node (heap Beam.world) Beam.model l rn)
    as Hnd.
  { intros l rn (Hl & Hrn & _). vm_compute in Hl.
    repeat (apply elem_of_cons in Hl as [->|Hl]; [discriminate|]).
    by apply elem_of_nil in Hl. }
  destruct (translate_model_loses_group_lengths Beam.model (10, 0, 0)
              (10, 0, 0) 3 Beam.world Hwf) as [Htranslate Hreplicate].
  split; [exact Hwf|]. split; [exact Htranslate|exact (Hreplicate Hnd)].
Defined.

(** [translate_member_set_unshares_nodes] on the beam, whose two members
    share node 2. *)
Lemma translate_member_set_unshares_nodes_witness :
  Forall (λ l, (l < length (heap Beam.world))%nat)
         (members Beam.member_set) ∧
  end_node (heap Beam.world !!! 0%nat) =
    start_node (heap Beam.world !!! 1%nat) ∧
  ∃ new_set w',
    translate_member_set Beam.member_set (10, 0, 0) Beam.world =
      Ok (new_set, w') ∧
    NoDup (node_id <$> mjoin (endpoints (heap w') <$> members new_set)) ∧
    Forall2 (λ l l',
               translated_by (10, 0, 0)
                 (start_node (heap Beam.world !!! l))
                 (start_node (heap w' !!! l')) ∧
               translated_by (10, 0, 0)
                 (end_node (heap Beam.world !!! l))
                 (end_node (heap w' !!! l')))
            (members Beam.member_set) (members new_set).
Proof.
  assert (Forall (λ l, (l < length (heap Beam.world))%nat)
                 (members Beam.member_set)) as Hwf.
  { simpl. repeat constructor. }
  split; [exact Hwf|]. split; [reflexivity|].
  exact (translate_member_set_unshares_nodes Beam.member_set (10, 0, 0)
           Beam.world Hwf).
Defined.

(** [classification_lookup_dispatch] with the literal engine: the pattern
    ["("] does not compile and the lookup raises. *)
Lemma classification_lookup_dispatch_witness :
  (∀ s, match_word_token ascii_word_char s = true →
        ∃ p, literal_compile s = Some p ∧
             ∀ text, contains p text = true ↔ occurs_in s text) ∧
  get_membersets_by_classification ascii_word_char string literal_compile
                                   contains Beam.model "(" =
    Raise (ReError "(").
Proof.
  split; [exact literal_engine_patterns|].
  apply (proj2 (proj2 (classification_lookup_dispatch ascii_word_char string
                         literal_compile contains literal_engine_patterns
                         Beam.model "("))).
  reflexivity.
Defined.

(** [interpolate_beam_local_samples] in exact arithmetic, with three points
    on a member of length 2 whose end moves by one in local y. *)
Lemma interpolate_beam_local_samples_witness :
  (2 ≤ 3)%nat ∧
  length (Deformation.interpolate_beam_local Deformation.exact
            0%Qc (Qc_of_Z 2) (0, 0, 0)%Qc (0, 1, 0)%Qc
            (0, 0, 0)%Qc (0, 0, 0)%Qc 3) = 3%nat.
Proof.
  assert (2 ≤ 3)%nat as H by lia.
  split; [exact H|].
  exact (proj1 (DeformationProperties.interpolate_beam_local_samples
                  Deformation.exact
                  0%Qc (Qc_of_Z 2) 0%Qc 0%Qc 0%Qc 0%Qc 1%Qc 0%Qc
                  0%Qc 0%Qc 0%Qc 0%Qc 0%Qc 0%Qc 3 H)).
Defined.


(** * Further properties *)

(** ** Lookup and counting over the enumeration *)

Lemma first_node_with_id_Some pk nodes n :
  first_node_with_id pk nodes = Some n → n ∈ nodes ∧ node_id n = pk.
Proof.
  induction nodes as [|m r IH]; simpl; [done|].
  case_decide.
  - intros [= <-]. split; [left|done].
  - intros H'. destruct (IH H'). split; [by right|done].
Qed.

Lemma first_node_with_id_None pk nodes :
  first_node_with_id pk nodes = None ↔ pk ∉ node_id <$> nodes.
Proof.
  induction nodes as [|m r IH]; simpl.
  - split; [intros _ H; by apply elem_of_nil in H|done].
  - case_decide as E.
    + split; [done|]. intros H. exfalso. apply H. rewrite E. left.
    + rewrite IH. rewrite not_elem_of_cons. naive_solver.
Qed.

Lemma first_node_with_id_unique pk nodes n :
  NoDup (node_id <$> nodes) → n ∈ nodes → node_id n = pk →
  first_node_with_id pk nodes = Some n.
Proof.
  induction nodes as [|m r IH]; simpl; intros Hnd Hn Hid.
  - by apply elem_of_nil in Hn.
  - apply NoDup_cons in Hnd as [Hm Hnd].
    apply elem_of_cons in Hn as [->|Hn].
    + by rewrite decide_True.
    + rewrite decide_False; [by apply IH|].
      intros E. apply Hm. rewrite E, <- Hid. by apply list_elem_of_fmap_2.
Qed.

Lemma first_seen_is_first {A} (key : A → Z) (xs : list A) x :
  x ∈ first_seen key xs →
  ∃ i : nat, xs !! i = Some x ∧
    ∀ (j : nat) y, xs !! j = Some y → (j < i)%nat → key y ≠ key x.
Proof.
  induction xs as [|a r IH]; simpl; intros Hx.
  - by apply elem_of_nil in Hx.
  - apply elem_of_cons in Hx as [->|Hx].
    + exists 0%nat. split; [done|]. intros j y _ Hj. lia.
    + apply list_elem_of_filter in Hx as [Hne Hx].
      destruct (IH Hx) as (i & Hi & Hfirst).
      exists (S i). split; [done|].
      intros [|j] y Hy Hj; simpl in Hy.
      * injection Hy as <-. done.
      * apply (Hfirst j y Hy). lia.
Qed.

(** X1. [get_node_by_pk] returns a node exactly when it is the enumerated
    node with that id, which is the first node with that id on the walk over
    the member sets; it returns [None] exactly when no endpoint on the walk
    has the id. *)
Theorem get_node_by_pk_finds_first (h : list Member) (self : FERS) (pk : Z) :
  (∀ n, get_node_by_pk h self pk = Some n ↔
        n ∈ get_all_nodes h self ∧ node_id n = pk) ∧
  (∀ n, get_node_by_pk h self pk = Some n →
        ∃ i : nat, node_walk h self !! i = Some n ∧
          ∀ (j : nat) m, node_walk h self !! j = Some m → (j < i)%nat →
                         node_id m ≠ pk) ∧
  (get_node_by_pk h self pk = None ↔ pk ∉ node_id <$> node_walk h self).
Proof.
  unfold get_node_by_pk. split_and!.
  - intros n. split; [apply first_node_with_id_Some|].
    intros [Hn Hid]. apply first_node_with_id_unique; [|done..].
    apply get_all_nodes_NoDup.
  - intros n Hn. apply first_node_with_id_Some in Hn as [Hn <-].
    rewrite get_all_nodes_first_seen in Hn.
    by apply first_seen_is_first.
  - rewrite first_node_with_id_None, get_all_nodes_first_seen.
    by rewrite first_seen_keys.
Qed.

Lemma length_NoDup_size (l : list Z) :
  NoDup l → length l = size (list_to_set l : gset Z).
Proof. intros H. symmetry. by apply size_list_to_set. Qed.

Lemma first_seen_key_set {A} (key : A → Z) (xs : list A) :
  (list_to_set (key <$> first_seen key xs) : gset Z) =
  list_to_set (key <$> xs).
Proof.
  apply set_eq. intros k. rewrite !elem_of_list_to_set.
  apply first_seen_keys.
Qed.

(** X2. [number_of_nodes] and [number_of_elements] count distinct ids: the
    number of different node ids among the endpoints on the walk, and the
    number of different member ids on the walk, however often an id is met;
    so neither exceeds what the walk holds. *)
Theorem counts_are_distinct_ids (h : list Member) (self : FERS) :
  number_of_nodes h self =
    size (list_to_set (node_id <$> node_walk h self) : gset Z) ∧
  number_of_elements h self =
    size (list_to_set ((λ l, member_id (h !!! l)) <$> member_walk self)
          : gset Z) ∧
  (number_of_nodes h self ≤ 2 * length (member_walk self))%nat ∧
  (number_of_elements h self ≤ length (member_walk self))%nat.
Proof.
  unfold number_of_nodes, number_of_elements.
  rewrite get_all_nodes_first_seen, get_all_members_first_seen.
  split_and!.
  - rewrite <- first_seen_key_set, <- length_NoDup_size
      by apply first_seen_NoDup.
    by rewrite length_fmap.
  - rewrite <- (first_seen_key_set (λ l, member_id (h !!! l))).
    rewrite <- length_NoDup_size by apply first_seen_NoDup.
    by rewrite length_fmap.
  - etrans; [apply sublist_length, first_seen_sublist|].
    unfold node_walk.
    induction (member_walk self) as [|l r IH]; [done|].
    change (mjoin (endpoints h <$> l :: r))
      with (endpoints h l ++ mjoin (endpoints h <$> r)).
    rewrite length_app. simpl in *. lia.
  - apply sublist_length, first_seen_sublist.
Qed.

(** ** [create_member_set] and [combine_member_sets] *)

Lemma create_member_loop node_list sec cls rot ch rm xs : ∀ (o : nat) acc w,
  (o + length xs < length node_list)%nat →
  for_each (imap (λ i node, ((o + i)%nat, node)) xs)
           (create_member_step node_list sec cls rot ch rm) acc w =
  Ok (acc ++ seq (length (heap w)) (length xs),
      mkWorld (node_counter w) (member_counter w + Z.of_nat (length xs))
              (memberset_counter w)
              (heap w ++
               imap (λ i node,
                       mkMember (member_counter w + Z.of_nat i) node
                                (node_list !!! (o + i + 1)%nat) sec None None
                                cls rot ch rm None) xs)).
Proof.
  induction xs as [|x r IH]; intros o acc [nc mc sc h] Hlen; simpl in *.
  - unfold ret. rewrite !app_nil_r. do 3 f_equal. lia.
  - unfold bind at 1. unfold create_member_step at 1. simpl.
    destruct (lookup_lt_is_Some_2 node_list (o + 0 + 1)%nat ltac:(lia))
      as [e He].
    rewrite He. unfold bind, Member_new, ret. simpl.
    rewrite (imap_ext _ (λ i node, ((S o + i)%nat, node)))
      by (intros; simpl; f_equal; lia).
    rewrite IH by lia. simpl.
    f_equal. f_equal.
    + rewrite <- app_assoc. simpl. do 3 f_equal. rewrite length_app. simpl. lia.
    + f_equal; [lia|]. rewrite <- app_assoc. simpl. do 2 f_equal.
      * f_equal; [lia|]. by rewrite (list_lookup_total_correct _ _ _ He).
      * apply imap_ext. intros i y _. simpl. f_equal; [lia|].
        f_equal. lia.
Qed.

(** X3. Where no two consecutive nodes of the list are at the same place,
    so that no member of zero length is asked for, [create_member_set]
    returns and chains the nodes: with the node list
    [start, intermediate..., end] it makes one member per consecutive pair,
    the subscript [i + 1] being in range at every turn, member [k] running
    from node [k] to node [k + 1], so each member starts where the one
    before ends, the first starts at [start_point] and the last ends at
    [end_point]; every member carries the section, the classification, the
    rotation angle, chi and the reference member given, and no hinge; the
    set carries the classification and the group lengths.  The members
    already in the store are left as they were. *)
Theorem create_member_set_chains_nodes (start_point end_point : Node)
    (sec : SectionRef) (intermediate_points : option (list Node))
    (cls : string) (rot ch : option Z) (rm : option loc) (ly lz : option Z)
    (w : World) :
  no_zero_length (start_point :: default [] intermediate_points ++
                  [end_point]) →
  let node_list :=
    start_point :: default [] intermediate_points ++ [end_point] in
  let n := length (default [] intermediate_points) in
  ∃ new_set w',
    create_member_set start_point end_point sec intermediate_points cls rot
                      ch rm ly lz w = Ok (new_set, w') ∧
    members new_set = seq (length (heap w)) (S n) ∧
    classification new_set = cls ∧ L_y new_set = ly ∧ L_z new_set = lz ∧
    length (heap w') = (length (heap w) + S n)%nat ∧
    (∀ l, (l < length (heap w))%nat → heap w' !!! l = heap w !!! l) ∧
    (∀ k : nat, (k ≤ n)%nat →
       let m := heap w' !!! (length (heap w) + k)%nat in
       Some (start_node m) = node_list !! k ∧
       Some (end_node m) = node_list !! S k ∧
       section m = sec ∧ member_classification m = cls ∧
       rotation_angle m = rot ∧ chi m = ch ∧ reference_member m = rm ∧
       start_hinge m = None ∧ end_hinge m = None ∧
       reference_node m = None) ∧
    (∀ k : nat, (k < n)%nat →
       end_node (heap w' !!! (length (heap w) + k)%nat) =
       start_node (heap w' !!! (length (heap w) + S k)%nat)).
Proof.
  intros _ node_list n.
  assert (length node_list = S (S n)) as Hlen.
  { subst node_list n. simpl. rewrite length_app. simpl. lia. }
  unfold create_member_set, bind.
  change ([start_point] ++ default [] intermediate_points ++ [end_point])
    with node_list.
  rewrite Hlen.
  replace (S (S n) - 1)%nat with (S n) by lia.
  pose proof (create_member_loop node_list sec cls rot ch rm
                (take (S n) node_list) 0 [] w) as Hloop.
  rewrite length_take, Hlen in Hloop.
  replace (S n `min` S (S n))%nat with (S n) in Hloop by lia.
  cbn [Nat.add] in Hloop.
  rewrite Hloop by lia. clear Hloop.
  set (added := imap _ (take (S n) node_list)).
  unfold MemberSet_new. simpl.
  assert (length added = S n) as Hadded.
  { subst added. rewrite length_imap, length_take. lia. }
  assert (∀ k : nat, (k ≤ n)%nat →
            ∃ x e, node_list !! k = Some x ∧ node_list !! S k = Some e ∧
              (heap w ++ added) !!! (length (heap w) + k)%nat =
              mkMember (member_counter w + Z.of_nat k) x e sec None None cls
                       rot ch rm None) as Hat.
  { intros k Hk.
    destruct (lookup_lt_is_Some_2 node_list k ltac:(lia)) as [x Hx].
    destruct (lookup_lt_is_Some_2 node_list (S k) ltac:(lia)) as [e He].
    exists x, e. split_and!; [done..|].
    rewrite lookup_total_app_r by lia.
    replace (length (heap w) + k - length (heap w))%nat with k by lia.
    apply list_lookup_total_correct. subst added.
    rewrite list_lookup_imap, lookup_take_lt by lia. rewrite Hx. simpl.
    do 2 f_equal. replace (k + 1)%nat with (S k) by lia.
    by apply list_lookup_total_correct. }
  do 2 eexists. split; [reflexivity|].
  cbn [members classification L_y L_z heap].
  split_and!; try done.
  - rewrite length_app. lia.
  - intros l Hl. by apply lookup_total_app_l.
  - intros k Hk. cbv zeta.
    destruct (Hat k Hk) as (x & e & Hx & He & Hm).
    rewrite Hm.
    cbn [start_node end_node section member_classification rotation_angle
         chi reference_member start_hinge end_hinge reference_node].
    split_and!; done.
  - intros k Hk.
    destruct (Hat k ltac:(lia)) as (x & e & Hx & He & Hm).
    destruct (Hat (S k) ltac:(lia)) as (x' & e' & Hx' & He' & Hm').
    rewrite Hm, Hm'. cbn [start_node end_node]. congruence.
Qed.

Lemma foldl_extend (sets : list MemberSet) (acc : list loc) :
  foldl (λ combined member_set, combined ++ members member_set) acc sets =
  acc ++ mjoin (members <$> sets).
Proof.
  revert acc. induction sets as [|ms r IH]; intros acc; simpl.
  - by rewrite app_nil_r.
  - by rewrite IH, <- app_assoc.
Qed.

(** X4. [combine_member_sets] makes one set whose members are the members of
    the given sets, in order, and creates no Member and no Node; a model
    holding the combined set alone enumerates the same members and the same
    nodes as a model holding the given sets. *)
Theorem combine_member_sets_keeps_enumeration (default_classification : string)
    (sets : list MemberSet) (w : World) :
  ∃ combined w',
    combine_member_sets default_classification sets w = Ok (combined, w') ∧
    members combined = mjoin (members <$> sets) ∧
    heap w' = heap w ∧ node_counter w' = node_counter w ∧
    member_counter w' = member_counter w ∧
    get_all_members (heap w') (mkFERS [combined]) =
      get_all_members (heap w) (mkFERS sets) ∧
    get_all_nodes (heap w') (mkFERS [combined]) =
      get_all_nodes (heap w) (mkFERS sets).
Proof.
  unfold combine_member_sets, MemberSet_new.
  rewrite foldl_extend. simpl.
  do 2 eexists. split; [reflexivity|]. simpl.
  split_and!; try done.
  - rewrite !get_all_members_first_seen. unfold member_walk. simpl.
    by rewrite app_nil_r.
  - rewrite !get_all_nodes_first_seen. unfold node_walk, member_walk. simpl.
    by rewrite app_nil_r.
Qed.

(** ** [translate_member_set]: what it keeps, and two translations in a row *)

Lemma translate_member_set_closed member_set v w :
  Forall (λ l, (l < length (heap w))%nat) (members member_set) →
  translate_member_set member_set v w =
  Ok (mkMemberSet (memberset_counter w)
        (seq (length (heap w)) (length (members member_set)))
        (classification member_set) None None,
      mkWorld (node_counter w + 2 * Z.of_nat (length (members member_set)))
              (member_counter w + Z.of_nat (length (members member_set)))
              (memberset_counter w + 1)
              (heap w ++ imap (translated_member (heap w) (node_counter w)
                                 (member_counter w) v) (members member_set))).
Proof.
  intros Hwf. unfold translate_member_set, bind.
  by rewrite translate_member_set_loop.
Qed.

Lemma read_translated (h : list Member) c mc v ls (k : nat) l :
  ls !! k = Some l →
  (h ++ imap (translated_member h c mc v) ls) !!! (length h + k)%nat =
  translated_member h c mc v k l.
Proof.
  intros Hl. rewrite lookup_total_app_r by lia.
  replace (length h + k - length h)%nat with k by lia.
  apply list_lookup_total_correct. by rewrite list_lookup_imap, Hl.
Qed.

(** X5. A member set can be translated by [v] and the result by the
    opposite of [v]: both calls return, and every endpoint of the final set
    is at the coordinates of its source plus [v] plus the opposite of [v],
    added in this order, with the nodal support of its source. *)
Theorem translate_member_set_round_trip (member_set : MemberSet) (v : Vec3)
    (w : World) :
  Forall (λ l, (l < length (heap w))%nat) (members member_set) →
  ∃ there w1 back w2,
    translate_member_set member_set v w = Ok (there, w1) ∧
    translate_member_set there (opposite v) w1 = Ok (back, w2) ∧
    Forall2 (λ l l',
               let m := heap w !!! l in
               let m' := heap w2 !!! l' in
               there_and_back v (start_node m) (start_node m') ∧
               there_and_back v (end_node m) (end_node m') ∧
               nodal_support (start_node m') = nodal_support (start_node m) ∧
               nodal_support (end_node m') = nodal_support (end_node m))
            (members member_set) (members back).
Proof.
  intros Hwf.
  pose (n := length (members member_set)).
  pose (h1 := heap w ++ imap (translated_member (heap w) (node_counter w)
                                (member_counter w) v) (members member_set)).
  pose (w1 := mkWorld (node_counter w + 2 * Z.of_nat n)
                (member_counter w + Z.of_nat n) (memberset_counter w + 1) h1).
  pose (there := mkMemberSet (memberset_counter w) (seq (length (heap w)) n)
                   (classification member_set) None None).
  assert (translate_member_set member_set v w = Ok (there, w1)) as Hrun1
    by (by apply translate_member_set_closed).
  assert (length h1 = (length (heap w) + n)%nat) as Hlen1.
  { subst h1. by rewrite length_app, length_imap. }
  assert (Forall (λ l, (l < length (heap w1))%nat) (members there)) as Hwf1.
  { apply Forall_forall. intros l Hl. apply elem_of_seq in Hl.
    simpl. lia. }
  pose proof (translate_member_set_closed there (opposite v) w1 Hwf1)
    as Hrun2.
  exists there, w1. eexists _, _.
  split; [exact Hrun1|]. split; [exact Hrun2|].
  clear Hrun1 Hrun2 Hwf1. subst there w1.
  cbn [members heap node_counter member_counter].
  apply Forall2_same_length_lookup_2.
  { by rewrite !length_seq. }
  intros k l l' Hl Hl'.
  apply lookup_seq in Hl' as [-> Hk]. rewrite length_seq in Hk.
  assert (seq (length (heap w)) n !! k = Some (length (heap w) + k)%nat)
    as Hmid by (apply lookup_seq; lia).
  rewrite Hlen1.
  replace (length (heap w) + n + k)%nat with (length h1 + k)%nat by lia.
  rewrite (read_translated h1 _ _ _ _ k _ Hmid).
  cbv zeta. unfold translated_member.
  cbn [start_node end_node nodal_support node_X node_Y node_Z].
  subst h1. rewrite (read_translated (heap w) _ _ _ _ k l Hl).
  unfold translated_member, there_and_back. simpl.
  split_and!; done.
Qed.

(** X6. [translate_member_set] keeps the section and the classification of
    every member and the nodal support of every endpoint; it hands on no
    hinge, rotation angle, chi, reference member or reference node, no
    classification of the nodes and no group lengths; the members of the
    source are left as they were. *)
Theorem translate_member_set_keeps_and_drops (member_set : MemberSet)
    (v : Vec3) (w : World) :
  Forall (λ l, (l < length (heap w))%nat) (members member_set) →
  ∃ new_set w',
    translate_member_set member_set v w = Ok (new_set, w') ∧
    classification new_set = classification member_set ∧
    L_y new_set = None ∧ L_z new_set = None ∧
    (∀ l, (l < length (heap w))%nat → heap w' !!! l = heap w !!! l) ∧
    Forall2 (λ l l',
               let m := heap w !!! l in
               let m' := heap w' !!! l' in
               section m' = section m ∧
               member_classification m' = member_classification m ∧
               nodal_support (start_node m') = nodal_support (start_node m) ∧
               nodal_support (end_node m') = nodal_support (end_node m) ∧
               node_classification (start_node m') = None ∧
               node_classification (end_node m') = None ∧
               start_hinge m' = None ∧ end_hinge m' = None ∧
               rotation_angle m' = None ∧ chi m' = None ∧
               reference_member m' = None ∧ reference_node m' = None)
            (members member_set) (members new_set).
Proof.
  intros Hwf.
  rewrite (translate_member_set_closed member_set v w Hwf).
  do 2 eexists. split; [reflexivity|]. cbn [classification L_y L_z heap].
  split_and!; try done.
  - intros l Hl. by apply lookup_total_app_l.
  - cbn [members]. apply Forall2_same_length_lookup_2.
    { by rewrite length_seq. }
    intros k l l' Hl Hl'. apply lookup_seq in Hl' as [-> Hk].
    rewrite (read_translated (heap w) _ _ _ _ k l Hl).
    unfold translated_member. simpl. done.
Qed.

(** ** [translate_model]: what it keeps, where it puts the nodes, and two
    translations in a row *)

Lemma translate_model_effects (model : FERS) (v : Vec3) (w : World) :
  let walk := member_walk model in
  let base := length (heap w) in
  let ns := get_all_nodes (heap w) model in
  let tm := translation_map_of model v w in
  wf_model (heap w) model →
  ∃ new_model w',
    translate_model model v w = Ok (new_model, w') ∧
    Forall2 rebuilt_set (member_sets model) (member_sets new_model) ∧
    member_walk new_model = seq base (length walk) ∧
    node_counter w' = node_counter w + Z.of_nat (length ns) ∧
    length (heap w') = (base + length walk)%nat ∧
    (∀ l, (l < base)%nat → heap w' !!! l = heap w !!! l) ∧
    Forall2 (λ o n, ∃ mid, heap w' !!! n = moved_member tm mid (heap w !!! o))
            walk (seq base (length walk)).
Proof.
  intros walk base ns tm Hwf.
  destruct (translation_map_spec model v w) as (Hrun1 & Hdom & _).
  fold tm in Hrun1, Hdom.
  set (w1 := alloc_nodes _ w) in Hrun1.
  destruct (translate_member_sets_loop tm (heap w) (member_sets model)
              FERS_new w1)
    as (new_sets & w' & added & Hrun & Hsets & Hlocs & Hnc & Hh & Hmoved);
    [done|exact Hwf| |].
  { apply Forall_forall. intros l Hl.
    destruct (endpoint_enumerated (heap w) model l Hl).
    split; by apply Hdom. }
  fold (member_walk model) in Hlocs, Hmoved. fold walk in Hlocs, Hmoved.
  assert (length added = length walk) as Hlen
    by (symmetry; eapply Forall2_length, Hmoved).
  exists (mkFERS new_sets), w'. split_and!; try done.
  - unfold translate_model, bind, get_all_member_sets.
    rewrite Hrun1. exact Hrun.
  - rewrite Hh, length_app, Hlen. done.
  - intros l Hl. rewrite Hh. simpl. by apply lookup_total_app_l.
  - apply Forall2_same_length_lookup_2.
    { by rewrite length_seq. }
    intros k o n Hk Hn. apply lookup_seq in Hn as [-> _].
    destruct (Forall2_lookup_l _ _ _ _ _ Hmoved Hk) as (m' & Hm' & Heq).
    exists (member_id m'). rewrite Hh. simpl.
    rewrite lookup_total_app_r by (unfold base; lia).
    replace (base + k - length (heap w))%nat with k by (unfold base; lia).
    by rewrite (list_lookup_total_correct _ _ _ Hm').
Qed.

(** X7. [translate_model] keeps the section, both hinges and the
    classification of every member, and hands on no rotation angle, chi,
    reference member or reference node. *)
Theorem translate_model_keeps_and_drops (model : FERS) (v : Vec3)
    (w : World) :
  wf_model (heap w) model →
  ∃ new_model w',
    translate_model model v w = Ok (new_model, w') ∧
    Forall2 (λ o n,
               let m := heap w !!! o in
               let m' := heap w' !!! n in
               section m' = section m ∧
               start_hinge m' = start_hinge m ∧
               end_hinge m' = end_hinge m ∧
               member_classification m' = member_classification m ∧
               rotation_angle m' = None ∧ chi m' = None ∧
               reference_member m' = None ∧ reference_node m' = None)
            (member_walk model) (member_walk new_model).
Proof.
  intros Hwf.
  destruct (translate_model_effects model v w Hwf)
    as (new_model & w' & Hrun & _ & Hwalk & _ & _ & _ & Hmem).
  exists new_model, w'. split; [done|]. rewrite Hwalk.
  eapply Forall2_impl; [exact Hmem|].
  intros o n [mid ->]. simpl. done.
Qed.

(** X8. [translate_model] makes one Node for each enumerated node of the
    model and one Member for each member on the walk, rebuilds as many
    member sets as the model has, and leaves every member of the source as
    it was; the new members are the ones the new model holds. *)
Theorem translate_model_creates_and_preserves (model : FERS) (v : Vec3)
    (w : World) :
  wf_model (heap w) model →
  ∃ new_model w',
    translate_model model v w = Ok (new_model, w') ∧
    length (member_sets new_model) = length (member_sets model) ∧
    node_counter w' =
      node_counter w + Z.of_nat (number_of_nodes (heap w) model) ∧
    length (heap w') = (length (heap w) + length (member_walk model))%nat ∧
    member_walk new_model =
      seq (length (heap w)) (length (member_walk model)) ∧
    (∀ l, (l < length (heap w))%nat → heap w' !!! l = heap w !!! l).
Proof.
  intros Hwf.
  destruct (translate_model_effects model v w Hwf)
    as (new_model & w' & Hrun & Hsets & Hwalk & Hnc & Hlen & Hsame & _).
  exists new_model, w'. split_and!; try done.
  symmetry. eapply Forall2_length, Hsets.
Qed.

Lemma enumerated_on_walk h model n :
  n ∈ get_all_nodes h model → n ∈ node_walk h model.
Proof.
  rewrite get_all_nodes_first_seen. intros Hn.
  eapply elem_of_sublist; [exact Hn|apply first_seen_sublist].
Qed.

Lemma endpoints_on_walk h model l :
  l ∈ member_walk model →
  start_node (h !!! l) ∈ node_walk h model ∧
  end_node (h !!! l) ∈ node_walk h model.
Proof.
  intros Hl.
  assert (∀ n, n ∈ endpoints h l → n ∈ node_walk h model) as Hsub.
  { intros n Hn. unfold node_walk. apply list_elem_of_join.
    exists (endpoints h l). split; [done|]. by apply list_elem_of_fmap_2. }
  split; apply Hsub; unfold endpoints; set_solver.
Qed.

Lemma translation_of_node (model : FERS) (v : Vec3) (w : World) n :
  id_consistent (node_walk (heap w) model) →
  n ∈ node_walk (heap w) model →
  ∃ j : nat,
    get_all_nodes (heap w) model !! j = Some n ∧
    translation_map_of model v w !!! node_id n =
    translated_node (node_counter w + Z.of_nat j) v n.
Proof.
  intros Hcons Hn.
  destruct (translation_map_spec model v w) as (_ & _ & Hval).
  assert (node_id n ∈ node_id <$> get_all_nodes (heap w) model) as Hid.
  { rewrite get_all_nodes_first_seen. apply first_seen_keys.
    by apply list_elem_of_fmap_2. }
  apply list_elem_of_fmap in Hid as (n' & Hid & Hn').
  assert (n' = n) as ->.
  { apply Hcons; [by apply enumerated_on_walk|done|done]. }
  apply list_elem_of_lookup in Hn' as [j Hj].
  exists j. split; [done|].
  by rewrite (lookup_total_correct _ _ _ (Hval j n Hj)).
Qed.

Lemma translate_model_coordinates (model : FERS) (v : Vec3) (w : World) :
  wf_model (heap w) model →
  id_consistent (node_walk (heap w) model) →
  ∃ new_model w',
    translate_model model v w = Ok (new_model, w') ∧
    wf_model (heap w') new_model ∧
    id_consistent (node_walk (heap w') new_model) ∧
    Forall2 (λ o n,
               translated_by v (start_node (heap w !!! o))
                             (start_node (heap w' !!! n)) ∧
               translated_by v (end_node (heap w !!! o))
                             (end_node (heap w' !!! n)))
            (member_walk model) (member_walk new_model).
Proof.
  intros Hwf Hcons.
  destruct (translate_model_effects model v w Hwf)
    as (new_model & w' & Hrun & _ & Hwalk & _ & Hlen & _ & Hmem).
  assert (Forall2 (λ o n,
            ∃ js je : nat,
              get_all_nodes (heap w) model !! js =
                Some (start_node (heap w !!! o)) ∧
              get_all_nodes (heap w) model !! je =
                Some (end_node (heap w !!! o)) ∧
              start_node (heap w' !!! n) =
                translated_node (node_counter w + Z.of_nat js) v
                                (start_node (heap w !!! o)) ∧
              end_node (heap w' !!! n) =
                translated_node (node_counter w + Z.of_nat je) v
                                (end_node (heap w !!! o)))
            (member_walk model) (member_walk new_model)) as Hnodes.
  { rewrite Hwalk. apply Forall2_same_length_lookup_2.
    { by rewrite length_seq. }
    intros k o n Hk Hn.
    destruct (Forall2_lookup_lr _ _ _ _ _ _ Hmem Hk Hn) as [mid Hm].
    assert (o ∈ member_walk model) as Ho
      by (by eapply list_elem_of_lookup_2).
    destruct (endpoints_on_walk (heap w) model o Ho) as [Hs He].
    destruct (translation_of_node model v w _ Hcons Hs) as (js & Hjs & Hts).
    destruct (translation_of_node model v w _ Hcons He) as (je & Hje & Hte).
    exists js, je. rewrite Hm. simpl. by rewrite Hts, Hte. }
  exists new_model, w'. split_and!; try done.
  - unfold wf_model. rewrite Hwalk. apply Forall_forall.
    intros l Hl. apply elem_of_seq in Hl. lia.
  - intros n n' Hn Hn' Hid.
    assert (∀ x, x ∈ node_walk (heap w') new_model →
              ∃ (j : nat) y, get_all_nodes (heap w) model !! j = Some y ∧
                x = translated_node (node_counter w + Z.of_nat j) v y)
      as Hform.
    { intros x Hx. unfold node_walk in Hx.
      apply list_elem_of_join in Hx as (ep & Hx & Hep).
      apply list_elem_of_fmap in Hep as (l & -> & Hl).
      apply list_elem_of_lookup in Hl as [k Hk].
      destruct (Forall2_lookup_r _ _ _ _ _ Hnodes Hk)
        as (o & _ & js & je & Hjs & Hje & Hts & Hte).
      unfold endpoints in Hx.
      apply elem_of_cons in Hx as [->|Hx]; [eauto|].
      apply list_elem_of_singleton in Hx as ->. eauto. }
    destruct (Hform n Hn) as (j & y & Hj & ->).
    destruct (Hform n' Hn') as (j' & y' & Hj' & ->).
    simpl in Hid. assert (j = j') as -> by lia. congruence.
  - eapply Forall2_impl; [exact Hnodes|].
    intros o n (js & je & _ & _ & -> & ->).
    unfold translated_by, translated_node. simpl. done.
Qed.

(** X9. In a model whose nodes are told apart by their ids,
    [translate_model] puts the endpoints of every rebuilt member at the
    coordinates of the source endpoints plus the vector. *)
Theorem translate_model_moves_endpoints (model : FERS) (v : Vec3)
    (w : World) :
  wf_model (heap w) model →
  id_consistent (node_walk (heap w) model) →
  ∃ new_model w',
    translate_model model v w = Ok (new_model, w') ∧
    Forall2 (λ o n,
               translated_by v (start_node (heap w !!! o))
                             (start_node (heap w' !!! n)) ∧
               translated_by v (end_node (heap w !!! o))
                             (end_node (heap w' !!! n)))
            (member_walk model) (member_walk new_model).
Proof.
  intros Hwf Hcons.
  destruct (translate_model_coordinates model v w Hwf Hcons)
    as (new_model & w' & Hrun & _ & _ & Hmoved).
  by exists new_model, w'.
Qed.

(** X10. What [translate_model] returns can be translated again: after a
    translation by [v] and one of the result by the opposite of [v], both
    of which return, every endpoint of the final model is at the coordinates
    of its source plus [v] plus the opposite of [v], added in this order. *)
Theorem translate_model_round_trip (model : FERS) (v : Vec3) (w : World) :
  wf_model (heap w) model →
  id_consistent (node_walk (heap w) model) →
  ∃ there w1 back w2,
    translate_model model v w = Ok (there, w1) ∧
    translate_model there (opposite v) w1 = Ok (back, w2) ∧
    Forall2 (λ o n,
               there_and_back v (start_node (heap w !!! o))
                              (start_node (heap w2 !!! n)) ∧
               there_and_back v (end_node (heap w !!! o))
                              (end_node (heap w2 !!! n)))
            (member_walk model) (member_walk back).
Proof.
  intros Hwf Hcons.
  destruct (translate_model_coordinates model v w Hwf Hcons)
    as (there & w1 & Hrun1 & Hwf1 & Hcons1 & Hmoved1).
  destruct (translate_model_coordinates there (opposite v) w1 Hwf1 Hcons1)
    as (back & w2 & Hrun2 & _ & _ & Hmoved2).
  exists there, w1, back, w2. split_and!; try done.
  apply Forall2_same_length_lookup_2.
  { etrans; eapply Forall2_length; eassumption. }
  intros k o n Hk Hn.
  destruct (Forall2_lookup_l _ _ _ _ _ Hmoved1 Hk)
    as (mid & Hmid & (Hx & Hy & Hz) & (Hx' & Hy' & Hz')).
  destruct (Forall2_lookup_lr _ _ _ _ _ _ Hmoved2 Hmid Hn)
    as ((Gx & Gy & Gz) & (Gx' & Gy' & Gz')).
  unfold there_and_back.
  rewrite Gx, Gy, Gz, Gx', Gy', Gz', Hx, Hy, Hz, Hx', Hy', Hz'.
  split_and!; done.
Qed.

(** ** [create_combined_model_pattern]: what the copies hold *)

Lemma resolved_same_but_reference_member pairs m :
  same_but_reference_member m (resolved pairs m).
Proof.
  unfold resolved, same_but_reference_member.
  destruct (reference_member m); simpl; done.
Qed.

Lemma copies_pointwise (model : FERS) (count : Z) (sv : Vec3) (w : World) :
  let walk := member_walk model in
  let nm := node_mapping_of model count sv w in
  wf_model (heap w) model →
  (∀ l rn, ¬ dangling_reference_node (heap w) model l rn) →
  ∃ combined w' chunks,
    create_combined_model_pattern model count sv w = Ok (combined, w') ∧
    member_sets combined = member_sets model ++ mjoin chunks ∧
    length chunks = Z.to_nat (count - 1) ∧
    Forall (Forall2 set_copy (member_sets model)) chunks ∧
    length (heap w') =
      (length (heap w) + Z.to_nat (count - 1) * length walk)%nat ∧
    (∀ l, (l < length (heap w))%nat → heap w' !!! l = heap w !!! l) ∧
    (∀ (p : nat) chunk, chunks !! p = Some chunk →
       mjoin (members <$> chunk) =
         seq (length (heap w) + p * length walk) (length walk) ∧
       Forall2 (λ o n,
                  ∃ mid,
                    same_but_reference_member
                      (dup_member nm (1 + Z.of_nat p) mid (heap w !!! o))
                      (heap w' !!! n))
               walk (mjoin (members <$> chunk))).
Proof.
  intros walk nm Hwf Hnd. subst walk nm.
  destruct (create_combined_model_pattern_spec model count sv w Hwf Hnd)
    as (combined & w' & chunks & Hrun & Hsets & Hlen & Hcopy & Hlocs & Hheap &
        Hsame & Hmem).
  exists combined, w', chunks. split_and!; try done.
  intros p chunk Hp. split; [by apply Hlocs|].
  rewrite (Hlocs p chunk Hp).
  apply Forall2_same_length_lookup_2.
  { by rewrite length_seq. }
  intros k o n Hk Hn. apply lookup_seq in Hn as [-> _].
  destruct (Hmem p k o) as [mid Hm]; [|done|].
  { apply lookup_lt_Some in Hp. lia. }
  exists mid. rewrite Hm.
  apply resolved_same_but_reference_member.
Qed.

(** X11. Every member of every copy that [create_combined_model_pattern]
    makes keeps the section, both hinges, the classification, the rotation
    angle and chi of its source; copy [p + 1] is the [p]-th run of member
    sets after the originals. *)
Theorem copies_keep_member_attributes (model : FERS) (count : Z) (sv : Vec3)
    (w : World) :
  wf_model (heap w) model →
  (∀ l rn, ¬ dangling_reference_node (heap w) model l rn) →
  ∃ combined w' chunks,
    create_combined_model_pattern model count sv w = Ok (combined, w') ∧
    member_sets combined = member_sets model ++ mjoin chunks ∧
    length chunks = Z.to_nat (count - 1) ∧
    Forall (λ chunk,
              Forall2 (λ o n,
                         let m := heap w !!! o in
                         let m' := heap w' !!! n in
                         section m' = section m ∧
                         start_hinge m' = start_hinge m ∧
                         end_hinge m' = end_hinge m ∧
                         member_classification m' = member_classification m ∧
                         rotation_angle m' = rotation_angle m ∧
                         chi m' = chi m)
                      (member_walk model) (mjoin (members <$> chunk)))
           chunks.
Proof.
  intros Hwf Hnd.
  destruct (copies_pointwise model count sv w Hwf Hnd)
    as (combined & w' & chunks & Hrun & Hsets & Hlen & _ & _ & _ & Hmem).
  exists combined, w', chunks. split_and!; try done.
  apply Forall_forall. intros chunk Hin.
  apply list_elem_of_lookup in Hin as [p Hp].
  destruct (Hmem p chunk Hp) as [_ Hdup].
  eapply Forall2_impl; [exact Hdup|].
  intros o n (mid & _ & _ & _ & Hsec & Hsh & Heh & Hcl & Hrot & Hchi & _).
  simpl in *. done.
Qed.

Lemma copy_of_enumerated_node (model : FERS) (count : Z) (sv : Vec3)
    (w : World) (i : Z) n :
  1 ≤ i < count →
  n ∈ get_all_nodes (heap w) model →
  ∃ c, node_mapping_of model count sv w !!! [node_id n; i] =
       copy_of_node c (scaled sv i) n.
Proof.
  intros Hi Hn. unfold node_mapping_of.
  destruct (replicate_nodes_spec model count sv w)
    as (nm & -> & _ & _ & Hval).
  apply list_elem_of_lookup in Hn as [k Hk].
  assert (i ∈ range 1 count) as Hr by (by apply elem_of_range).
  apply list_elem_of_lookup in Hr as [p Hp].
  eexists. by rewrite (lookup_total_correct _ _ _ (Hval p i k n Hp Hk)).
Qed.

Lemma copy_of_known_node (model : FERS) (count : Z) (sv : Vec3)
    (w : World) (i : Z) (known : list Node) n :
  1 ≤ i < count →
  id_consistent known →
  (∀ x, x ∈ get_all_nodes (heap w) model → x ∈ known) →
  n ∈ known →
  node_id n ∈ node_id <$> get_all_nodes (heap w) model →
  node_copy (scaled sv i) n
            (node_mapping_of model count sv w !!! [node_id n; i]).
Proof.
  intros Hi Hcons Hsub Hn Hid.
  apply list_elem_of_fmap in Hid as (n' & Hid & Hn').
  assert (n' = n) as -> by (apply Hcons; auto).
  destruct (copy_of_enumerated_node model count sv w i n Hi Hn') as [c ->].
  unfold node_copy, translated_by, copy_of_node. simpl. done.
Qed.

(** X12. In a model whose nodes are told apart by their ids, the endpoints
    of every member of copy [i] are at the coordinates of the source
    endpoints plus [i] times the spacing vector, and keep the nodal support
    and the classification of the source endpoints. *)
Theorem copies_are_spaced (model : FERS) (count : Z) (sv : Vec3)
    (w : World) :
  wf_model (heap w) model →
  (∀ l rn, ¬ dangling_reference_node (heap w) model l rn) →
  id_consistent (node_walk (heap w) model) →
  ∃ combined w' chunks,
    create_combined_model_pattern model count sv w = Ok (combined, w') ∧
    member_sets combined = member_sets model ++ mjoin chunks ∧
    length chunks = Z.to_nat (count - 1) ∧
    ∀ (p : nat) chunk, chunks !! p = Some chunk →
      Forall2 (λ o n,
                 node_copy (scaled sv (1 + Z.of_nat p))
                           (start_node (heap w !!! o))
                           (start_node (heap w' !!! n)) ∧
                 node_copy (scaled sv (1 + Z.of_nat p))
                           (end_node (heap w !!! o))
                           (end_node (heap w' !!! n)))
              (member_walk model) (mjoin (members <$> chunk)).
Proof.
  intros Hwf Hnd Hcons.
  destruct (copies_pointwise model count sv w Hwf Hnd)
    as (combined & w' & chunks & Hrun & Hsets & Hlen & _ & _ & _ & Hmem).
  exists combined, w', chunks. split_and!; try done.
  intros p chunk Hp. destruct (Hmem p chunk Hp) as [_ Hdup].
  assert (1 ≤ 1 + Z.of_nat p < count) as Hi.
  { apply lookup_lt_Some in Hp. lia. }
  apply Forall2_same_length_lookup_2.
  { eapply Forall2_length, Hdup. }
  intros k o n Hk Hn.
  destruct (Forall2_lookup_lr _ _ _ _ _ _ Hdup Hk Hn)
    as (mid & _ & Hs & He & _).
  rewrite Hs, He. simpl.
  assert (o ∈ member_walk model) as Ho by (by eapply list_elem_of_lookup_2).
  destruct (endpoints_on_walk (heap w) model o Ho) as [Hsw Hew].
  destruct (endpoint_enumerated (heap w) model o Ho) as [Hsi Hei].
  split; apply (copy_of_known_node model count sv w _
                  (node_walk (heap w) model)); auto using enumerated_on_walk.
Qed.

(** X13. The reference node of a member is re-pointed, in every copy, to
    the Node that this copy holds for the id of the reference node: it is
    the very Node at which the copy's members start or end when their
    sources start or end at the reference node, and, where the model's nodes
    are told apart by their ids, it is the reference node moved by [i] times
    the spacing vector. *)
Theorem copies_resolve_reference_node (model : FERS) (count : Z) (sv : Vec3)
    (w : World) :
  wf_model (heap w) model →
  (∀ l rn, ¬ dangling_reference_node (heap w) model l rn) →
  ∃ combined w' chunks,
    create_combined_model_pattern model count sv w = Ok (combined, w') ∧
    member_sets combined = member_sets model ++ mjoin chunks ∧
    length chunks = Z.to_nat (count - 1) ∧
    ∀ (p : nat) chunk, chunks !! p = Some chunk →
      Forall2 (λ o n,
                 match reference_node (heap w !!! o) with
                 | None => reference_node (heap w' !!! n) = None
                 | Some rn =>
                     ∃ rn',
                       reference_node (heap w' !!! n) = Some rn' ∧
                       (id_consistent (mentioned_nodes (heap w) model) →
                        node_copy (scaled sv (1 + Z.of_nat p)) rn rn') ∧
                       Forall2 (λ o2 n2,
                                  (start_node (heap w !!! o2) = rn →
                                   start_node (heap w' !!! n2) = rn') ∧
                                  (end_node (heap w !!! o2) = rn →
                                   end_node (heap w' !!! n2) = rn'))
                               (member_walk model) (mjoin (members <$> chunk))
                 end)
              (member_walk model) (mjoin (members <$> chunk)).
Proof.
  intros Hwf Hnd.
  destruct (copies_pointwise model count sv w Hwf Hnd)
    as (combined & w' & chunks & Hrun & Hsets & Hlen & _ & _ & _ & Hmem).
  exists combined, w', chunks. split_and!; try done.
  intros p chunk Hp. destruct (Hmem p chunk Hp) as [_ Hdup].
  assert (1 ≤ 1 + Z.of_nat p < count) as Hi.
  { apply lookup_lt_Some in Hp. lia. }
  apply Forall2_same_length_lookup_2.
  { eapply Forall2_length, Hdup. }
  intros k o n Hk Hn.
  destruct (Forall2_lookup_lr _ _ _ _ _ _ Hdup Hk Hn)
    as (mid & _ & _ & _ & _ & _ & _ & _ & _ & _ & Hrn).
  rewrite Hrn. simpl.
  destruct (reference_node (heap w !!! o)) as [rn|] eqn:Ern; [|done].
  simpl. eexists. split; [reflexivity|].
  assert (o ∈ member_walk model) as Ho by (by eapply list_elem_of_lookup_2).
  split.
  - intros Hcons.
    apply (copy_of_known_node model count sv w _
             (mentioned_nodes (heap w) model)); [done|done| | |].
    + intros x Hx. unfold mentioned_nodes. apply elem_of_app. left.
      by apply enumerated_on_walk.
    + unfold mentioned_nodes. apply elem_of_app. right.
      apply list_elem_of_omap. exists o. done.
    + destruct (decide (node_id rn ∈
                        node_id <$> get_all_nodes (heap w) model)); [done|].
      exfalso. by apply (Hnd o rn).
  - eapply Forall2_impl; [exact Hdup|].
    intros o2 n2 (mid2 & _ & Hs & He & _). rewrite Hs, He. simpl.
    split; by intros ->.
Qed.

Lemma resolve_reference_node_counter mm n w u w' :
  resolve_reference mm tt n w = Ok (u, w') →
  node_counter w' = node_counter w.
Proof.
  unfold resolve_reference, bind, load.
  destruct (reference_member (heap w !!! n)) as [r|].
  - unfold first_duplicate.
    destruct (mm_get mm r) as [[|d ds]|]; simpl; try done;
      by intros [= _ <-].
  - by intros [= _ <-].
Qed.

Lemma resolve_loop_node_counter mm ns : ∀ w u w',
  for_each ns (resolve_reference mm) tt w = Ok (u, w') →
  node_counter w' = node_counter w.
Proof.
  induction ns as [|n r IH]; intros w u w'; simpl.
  - by intros [= _ <-].
  - unfold bind.
    destruct (resolve_reference mm tt n w) as [[[] w1]|e] eqn:E; [|done].
    intros H. rewrite (IH _ _ _ H).
    by eapply resolve_reference_node_counter.
Qed.

Lemma combined_node_counter (model : FERS) (count : Z) (sv : Vec3)
    (w : World) combined w' :
  wf_model (heap w) model →
  create_combined_model_pattern model count sv w = Ok (combined, w') →
  node_counter w' =
  node_counter w +
  Z.of_nat (Z.to_nat (count - 1) * length (get_all_nodes (heap w) model)).
Proof.
  intros Hwf. rewrite create_combined_model_pattern_unfold.
  rewrite range_length.
  set (w1 := alloc_nodes _ w).
  pose proof (replicate_member_sets_copies
                (node_mapping_of model count sv w) (heap w)
                (member_sets model) (range 1 count)
                (mkFERS (member_sets model)) [] w1) as Hp2.
  simpl in Hp2.
  destruct (for_each (range 1 count) _ _ _) as [[st w2]|e]; [|done].
  destruct Hp2 as (_ & _ & Hnc & _); [done|exact Hwf| |].
  { intros i Hi. apply elem_of_range in Hi. by apply endpoints_mapped_walk. }
  destruct (resolve_references st.2 w2) as [[[] w3]|e] eqn:E; [|done].
  intros [= _ <-].
  unfold resolve_references in E. rewrite for_each_unit_join in E.
  rewrite (resolve_loop_node_counter _ _ _ _ _ E), Hnc. done.
Qed.

(** X14. With [C = count - 1] copies, [create_combined_model_pattern] makes
    [C] Nodes for each enumerated node of the model and [C] Members for each
    member on the walk, returns the original member sets followed by [C]
    times as many new ones, and leaves every member of the source as it
    was. *)
Theorem replication_creates_and_preserves (model : FERS) (count : Z)
    (sv : Vec3) (w : World) :
  wf_model (heap w) model →
  (∀ l rn, ¬ dangling_reference_node (heap w) model l rn) →
  let C := Z.to_nat (count - 1) in
  ∃ combined w',
    create_combined_model_pattern model count sv w = Ok (combined, w') ∧
    take (length (member_sets model)) (member_sets combined) =
      member_sets model ∧
    length (member_sets combined) =
      (length (member_sets model) + C * length (member_sets model))%nat ∧
    node_counter w' =
      node_counter w + Z.of_nat (C * number_of_nodes (heap w) model) ∧
    length (heap w') =
      (length (heap w) + C * length (member_walk model))%nat ∧
    (∀ l, (l < length (heap w))%nat → heap w' !!! l = heap w !!! l).
Proof.
  intros Hwf Hnd C.
  destruct (copies_pointwise model count sv w Hwf Hnd)
    as (combined & w' & chunks & Hrun & Hsets & Hlen & Hcopy & Hheap & Hsame &
        _).
  exists combined, w'. split_and!; try done.
  - rewrite Hsets. by rewrite take_app_length.
  - rewrite Hsets, length_app. f_equal.
    rewrite (length_join_uniform chunks (length (member_sets model))).
    + by rewrite Hlen.
    + eapply Forall_impl; [exact Hcopy|]. intros chunk Hc.
      symmetry. eapply Forall2_length, Hc.
  - by apply (combined_node_counter model count sv w combined w').
Qed.

(** X15. A [count] of one or less, zero and negative counts included, makes
    no copy: the result holds the member sets of the model and nothing is
    created. *)
Theorem replication_with_no_copy (model : FERS) (count : Z) (sv : Vec3)
    (w : World) :
  count ≤ 1 →
  ∃ combined,
    create_combined_model_pattern model count sv w = Ok (combined, w) ∧
    member_sets combined = member_sets model.
Proof.
  intros Hcount. eexists. split.
  - unfold create_combined_model_pattern, replicate_nodes,
      replicate_member_sets, resolve_references.
    rewrite range_empty by lia. reflexivity.
  - simpl. unfold get_all_member_sets. by rewrite foldl_add_member_set.
Qed.

(** X16. In the first copy the reference members are right: when no member
    is listed twice in the model and a member refers to a member of the
    model, the duplicate of the first in copy 1 refers to the duplicate of
    the second in copy 1. *)
Theorem first_copy_reference_members (model : FERS) (count : Z) (sv : Vec3)
    (w : World) :
  wf_model (heap w) model →
  (∀ l rn, ¬ dangling_reference_node (heap w) model l rn) →
  2 ≤ count →
  NoDup (member_walk model) →
  ∃ combined w' chunks first_copy,
    create_combined_model_pattern model count sv w = Ok (combined, w') ∧
    member_sets combined = member_sets model ++ mjoin chunks ∧
    chunks !! 0%nat = Some first_copy ∧
    Forall2 set_copy (member_sets model) first_copy ∧
    ∀ (k kr : nat) o r n d,
      member_walk model !! k = Some o →
      member_walk model !! kr = Some r →
      mjoin (members <$> first_copy) !! k = Some n →
      mjoin (members <$> first_copy) !! kr = Some d →
      reference_member (heap w !!! o) = Some r →
      reference_member (heap w' !!! n) = Some d.
Proof.
  intros Hwf Hnd Hcount Hnodup.
  destruct (duplicate_reference_member model count sv w Hwf Hnd)
    as (combined & w' & chunks & Hrun & Hsets & Hlen & Hcopy & Hlocs & Href).
  destruct (lookup_lt_is_Some_2 chunks 0) as [first_copy Hfirst]; [lia|].
  exists combined, w', chunks, first_copy. split_and!; try done.
  { rewrite Forall_forall in Hcopy. apply Hcopy.
    by eapply list_elem_of_lookup_2. }
  intros k kr o r n d Hk Hkr Hn Hd Hr.
  rewrite (Hlocs 0%nat first_copy Hfirst) in Hn, Hd.
  apply lookup_seq in Hn as [-> _]. apply lookup_seq in Hd as [-> _].
  rewrite (Href 0%nat k o) by (done || lia). rewrite Hr.
  unfold first_copy_of.
  destruct (list_find _ _) as [[j y]|] eqn:E.
  - apply list_find_Some in E as (Hj & -> & _). simpl.
    assert (j = kr) as -> by (eapply NoDup_lookup; eauto).
    f_equal. lia.
  - apply list_find_None in E. rewrite Forall_forall in E.
    exfalso. apply (E r); [by eapply list_elem_of_lookup_2|done].
Qed.

(** ** The unique-value queries *)

Lemma hinges_fold (h : list Member) (ls : list loc) : ∀ (acc : gset HingeRef)
    hinge,
  hinge ∈ foldl (λ unique_hinges l,
                   let member := h !!! l in
                   let with_start :=
                     match start_hinge member with
                     | Some hinge => unique_hinges ∪ {[hinge]}
                     | None => unique_hinges
                     end in
                   match end_hinge member with
                   | Some hinge => with_start ∪ {[hinge]}
                   | None => with_start
                   end) acc ls ↔
  hinge ∈ acc ∨
  ∃ l, l ∈ ls ∧ (start_hinge (h !!! l) = Some hinge ∨
                 end_hinge (h !!! l) = Some hinge).
Proof.
  induction ls as [|l r IH]; intros acc hinge; simpl.
  - split; [by left|]. intros [?|(l & Hl & _)]; [done|].
    by apply elem_of_nil in Hl.
  - rewrite IH. split.
    + intros [Hacc|(l' & Hl' & Hh)].
      * destruct (start_hinge (h !!! l)) as [s|] eqn:Es,
          (end_hinge (h !!! l)) as [e|] eqn:Ee;
          set_unfold; naive_solver.
      * right. exists l'. split; [by right|done].
    + intros [Hacc|(l' & Hl' & Hh)].
      * left. destruct (start_hinge (h !!! l)), (end_hinge (h !!! l));
          set_solver.
      * apply elem_of_cons in Hl' as [->|Hl'].
        -- left. destruct Hh as [-> | ->];
             destruct (start_hinge (h !!! l)), (end_hinge (h !!! l));
             set_solver.
        -- right. exists l'. done.
Qed.

(** X17. [get_all_unique_member_hinges] holds exactly the hinges that some
    member on the walk has at its start or at its end. *)
Theorem unique_member_hinges_are_the_hinges_in_use (h : list Member)
    (self : FERS) (hinge : HingeRef) :
  hinge ∈ get_all_unique_member_hinges h self ↔
  ∃ l, l ∈ member_walk self ∧
       (start_hinge (h !!! l) = Some hinge ∨
        end_hinge (h !!! l) = Some hinge).
Proof.
  unfold get_all_unique_member_hinges, member_walk.
  rewrite (foldl_mjoin _ members), hinges_fold.
  split; [intros [H|H]; [set_solver|done]|by right].
Qed.

Section SupportQueries.
Variable support_id : SupportRef → Z.
Variable Conditions : Type.
Variable displacement_conditions : SupportRef → Conditions.
Variable rotation_conditions : SupportRef → Conditions.

Lemma get_unique_nodal_support_fold h self :
  get_unique_nodal_support support_id h self =
  foldl (record_nodal_support support_id) ∅ (node_walk h self).
Proof.
  unfold get_unique_nodal_support, node_walk, member_walk.
  rewrite <- (foldl_mjoin (record_nodal_support support_id) (endpoints h)).
  by rewrite <- (foldl_mjoin
    (λ d l, foldl (record_nodal_support support_id) d (endpoints h l))
    members).
Qed.

Lemma record_nodal_support_walk (xs : list Node) :
  support_ids_apart support_id xs →
  id_consistent xs →
  let d := foldl (record_nodal_support support_id) ∅ xs in
  (∀ n, n ∈ xs → d !! node_id n = nodal_support n) ∧
  (∀ k, is_Some (d !! k) →
        ∃ n, n ∈ xs ∧ node_id n = k ∧ is_Some (nodal_support n)).
Proof.
  induction xs as [|x xs IH] using rev_ind; intros Hapart Hcons d.
  - split; [intros n Hn; by apply elem_of_nil in Hn|].
    intros k [? Hk]. subst d. simpl in Hk. by rewrite lookup_empty in Hk.
  - subst d. rewrite foldl_app. simpl.
    destruct IH as [IHget IHdom].
    { intros n n' s Hn Hn'. apply Hapart; apply elem_of_app; by left. }
    { intros n n' Hn Hn'. apply Hcons; apply elem_of_app; by left. }
    set (d := foldl (record_nodal_support support_id) ∅ xs) in *.
    assert (x ∈ xs ++ [x]) as Hx by (apply elem_of_app; right; left).
    remember (record_nodal_support support_id d x) as d' eqn:Hd'.
    unfold record_nodal_support in Hd'.
    destruct (nodal_support x) as [s|] eqn:Es.
    + rewrite decide_True in Hd'.
      2:{ destruct (d !! support_id s) eqn:E; [|done]. exfalso.
          destruct (IHdom (support_id s)) as (n' & Hn' & Hid & Hsup);
            [by rewrite E|].
          apply (Hapart x n' s); [done|apply elem_of_app; by left|done..]. }
      subst d'. split.
      * intros n Hn. destruct (decide (node_id n = node_id x)) as [E|E].
        -- rewrite E, lookup_insert_eq.
           assert (n = x) as -> by (by apply Hcons). done.
        -- rewrite lookup_insert_ne by done.
           apply elem_of_app in Hn as [Hn|Hn]; [by apply IHget|].
           apply list_elem_of_singleton in Hn as ->. done.
      * intros k Hk. destruct (decide (node_id x = k)) as [<-|E].
        -- exists x. by rewrite Es.
        -- rewrite lookup_insert_ne in Hk by done.
           destruct (IHdom k Hk) as (n & Hn & ? & ?).
           exists n. split_and!; [apply elem_of_app; by left|done..].
    + subst d'. split.
      * intros n Hn. apply elem_of_app in Hn as [Hn|Hn]; [by apply IHget|].
        apply list_elem_of_singleton in Hn as ->. rewrite Es.
        destruct (d !! node_id x) eqn:E; [|done]. exfalso.
        destruct (IHdom (node_id x)) as (n' & Hn' & Hid & Hsup);
          [by rewrite E|].
        assert (n' = x) as -> by (apply Hcons;
          [apply elem_of_app; by left|done..]).
        rewrite Es in Hsup. by destruct Hsup.
      * intros k Hk. destruct (IHdom k Hk) as (n & Hn & ? & ?).
        exists n. split_and!; [apply elem_of_app; by left|done..].
Qed.

(** X18. [get_unique_nodal_support] is keyed by node, not by support: where
    the ids of supports and the ids of supported nodes do not meet and nodes
    are told apart by their ids, the dict maps the id of every supported
    endpoint on the walk to its support, two nodes that share a support both
    have their entry, and there is no other key. *)
Theorem nodal_support_dict_is_keyed_by_node (h : list Member) (self : FERS) :
  support_ids_apart support_id (node_walk h self) →
  id_consistent (node_walk h self) →
  (∀ n, n ∈ node_walk h self →
        get_unique_nodal_support support_id h self !! node_id n =
        nodal_support n) ∧
  (∀ k, is_Some (get_unique_nodal_support support_id h self !! k) →
        ∃ n, n ∈ node_walk h self ∧ node_id n = k ∧
             is_Some (nodal_support n)).
Proof.
  intros Hapart Hcons. rewrite get_unique_nodal_support_fold.
  by apply record_nodal_support_walk.
Qed.
End SupportQueries.

Section SupportDetailsQuery.
Variable support_id : SupportRef → Z.
Variable Conditions : Type.
Variable displacement_conditions : SupportRef → Conditions.
Variable rotation_conditions : SupportRef → Conditions.

Lemma add_node_no_keys (d : list (Z * SupportDetails Conditions)) k v :
  (add_node_no Conditions d k v).*1 = d.*1.
Proof.
  induction d as [|[k' e] r IH]; simpl; [done|].
  case_decide; [done|]. rewrite !fmap_cons. by f_equal.
Qed.

Lemma add_node_no_absent (d : list (Z * SupportDetails Conditions)) k v :
  k ∉ d.*1 → add_node_no Conditions d k v = d.
Proof.
  induction d as [|[k' e] r IH]; simpl; [done|].
  intros Hk. apply not_elem_of_cons in Hk as [Hne Hk].
  rewrite decide_False by done. by rewrite IH.
Qed.

Lemma elem_of_add_node_no (d : list (Z * SupportDetails Conditions)) k v k'
    e' :
  NoDup d.*1 →
  (k', e') ∈ add_node_no Conditions d k v ↔
  ∃ e, (k', e) ∈ d ∧ e' = if decide (k' = k) then with_node_no e v else e.
Proof.
  induction d as [|[k0 e0] r IH]; simpl; intros Hnd.
  - split; [intros H; by apply elem_of_nil in H|].
    intros (e & H & _). by apply elem_of_nil in H.
  - apply NoDup_cons in Hnd as [Hk0 Hnd].
    destruct (decide (k0 = k)) as [->|Hne].
    + split.
      * intros Hin. apply elem_of_cons in Hin as [[= -> ->]|Hin].
        -- exists e0. split; [by left|]. by rewrite decide_True.
        -- exists e'. split; [by right|].
           rewrite decide_False; [done|]. intros ->. apply Hk0.
           apply list_elem_of_fmap. by exists (k, e').
      * intros (e & Hin & ->).
        apply elem_of_cons in Hin as [[= -> ->]|Hin].
        -- rewrite decide_True by done. left.
        -- right. rewrite decide_False; [done|]. intros ->. apply Hk0.
           apply list_elem_of_fmap. by exists (k, e).
    + split.
      * intros Hin. apply elem_of_cons in Hin as [[= -> ->]|Hin].
        -- exists e0. split; [by left|]. by rewrite decide_False.
        -- apply (IH Hnd) in Hin as (e & Hin & ->).
           exists e. split; [by right|done].
      * intros (e & Hin & ->).
        apply elem_of_cons in Hin as [[= -> ->]|Hin].
        -- rewrite decide_False by done. left.
        -- right. apply (IH Hnd). by exists e.
Qed.

Lemma record_support_details_walk (xs : list Node) :
  let d := foldl (record_support_details support_id Conditions
                    displacement_conditions rotation_conditions) [] xs in
  NoDup d.*1 ∧
  (∀ k e, (k, e) ∈ d →
     support_no e = k ∧
     (∀ id, id ∈ node_nos e ↔
            ∃ n, held_by support_id k xs n ∧ node_id n = id) ∧
     ∃ n s, n ∈ xs ∧ nodal_support n = Some s ∧ support_id s = k ∧
            displacement_conditions_of e = displacement_conditions s ∧
            rotation_conditions_of e = rotation_conditions s) ∧
  (∀ n s, n ∈ xs → nodal_support n = Some s → support_id s ∈ d.*1).
Proof.
  induction xs as [|x xs IH] using rev_ind; intros d.
  - subst d. simpl. split_and!.
    + constructor.
    + intros k e H. by apply elem_of_nil in H.
    + intros n s H. by apply elem_of_nil in H.
  - subst d. rewrite foldl_app. simpl.
    set (d := foldl _ [] xs) in *. destruct IH as (Hnd & Hent & Hcov).
    remember (record_support_details support_id Conditions
                displacement_conditions rotation_conditions d x) as d'
      eqn:Hd'.
    unfold record_support_details in Hd'.
    destruct (nodal_support x) as [s|] eqn:Es.
    2:{ subst d'. split_and!; [done| |].
        - intros k e Hin. destruct (Hent k e Hin) as (H1 & H2 & H3).
          split_and!; [done| |].
          + intros id. rewrite H2. unfold held_by. split.
            * intros (n & (Hn & Hs) & Hid). exists n.
              split_and!; [apply elem_of_app; by left|done..].
            * intros (n & (Hn & s' & Hs & Hk) & Hid). exists n.
              split_and!; [|eauto|done].
              apply elem_of_app in Hn as [Hn|Hn]; [done|].
              apply list_elem_of_singleton in Hn as ->. congruence.
          + destruct H3 as (n & s' & Hn & ?). exists n, s'.
            split; [apply elem_of_app; by left|done].
        - intros n s' Hn Hs. apply elem_of_app in Hn as [Hn|Hn];
            [by eapply Hcov|].
          apply list_elem_of_singleton in Hn as ->. congruence. }
    set (no := support_id s) in *.
    set (fresh := mkSupportDetails no ∅ (displacement_conditions s)
                    (rotation_conditions s)) in *.
    set (with_entry := if decide (no ∈ d.*1) then d
                       else d ++ [(no, fresh)]) in *.
    assert (NoDup with_entry.*1) as Hnd'.
    { subst with_entry. case_decide; [done|].
      rewrite fmap_app. apply NoDup_app. split_and!; [done| |].
      - intros k Hk Hk'. apply list_elem_of_singleton in Hk'. by subst.
      - apply NoDup_singleton. }
    assert (∀ k e, (k, e) ∈ with_entry ↔
              (k, e) ∈ d ∨ ((no ∉ d.*1) ∧ k = no ∧ e = fresh)) as Hwith.
    { intros k e. subst with_entry. case_decide as Hno.
      - split; [by left|]. intros [?|(? & _)]; done.
      - rewrite elem_of_app, list_elem_of_singleton. split.
        + intros [?|[= -> ->]]; [by left|by right].
        + intros [?|(_ & -> & ->)]; [by left|by right]. }
    assert (x ∈ xs ++ [x]) as Hx by (apply elem_of_app; right; left).
    subst d'. split_and!.
    + by rewrite add_node_no_keys.
    + intros k e' Hin.
      apply elem_of_add_node_no in Hin as (e & Hin & ->); [|done].
      apply Hwith in Hin as [Hin|(Hno & -> & ->)].
      * destruct (Hent k e Hin) as (H1 & H2 & n0 & s0 & Hn0 & Hs0).
        assert (∃ n s, n ∈ xs ++ [x] ∧ nodal_support n = Some s ∧
                  support_id s = k ∧
                  displacement_conditions_of e = displacement_conditions s ∧
                  rotation_conditions_of e = rotation_conditions s) as H3.
        { exists n0, s0. split; [apply elem_of_app; by left|done]. }
        destruct (decide (k = no)) as [->|Hne]; simpl.
        -- split_and!; [done| |done].
           intros id. rewrite elem_of_union, H2, elem_of_singleton.
           unfold held_by. split.
           ++ intros [(n & (Hn & Hs) & Hid)| ->].
              ** exists n. split_and!; [apply elem_of_app; by left|done..].
              ** exists x. split_and!; [done|eauto|done].
           ++ intros (n & (Hn & Hs) & Hid).
              apply elem_of_app in Hn as [Hn|Hn]; [left; by exists n|].
              apply list_elem_of_singleton in Hn as ->. by right.
        -- split_and!; [done| |done].
           intros id. rewrite H2. unfold held_by. split.
           ++ intros (n & (Hn & Hs) & Hid). exists n.
              split_and!; [apply elem_of_app; by left|done..].
           ++ intros (n & (Hn & s' & Hs & Hk) & Hid). exists n.
              split_and!; [|eauto|done].
              apply elem_of_app in Hn as [Hn|Hn]; [done|].
              apply list_elem_of_singleton in Hn as ->.
              assert (s' = s) as -> by congruence.
              exfalso. apply Hne. symmetry. exact Hk.
      * rewrite decide_True by done. simpl. split_and!; [done| |].
        -- intros id. rewrite elem_of_union, elem_of_singleton.
           unfold held_by. split.
           ++ intros [H| ->]; [by apply not_elem_of_empty in H|].
              exists x. split_and!; [done|eauto|done].
           ++ intros (n & (Hn & s' & Hs & Hk) & Hid).
              apply elem_of_app in Hn as [Hn|Hn].
              ** exfalso. apply Hno. rewrite <- Hk. by eapply Hcov.
              ** apply list_elem_of_singleton in Hn as ->. by right.
        -- exists x, s. split_and!; done.
    + intros n s' Hn Hs. rewrite add_node_no_keys.
      apply elem_of_app in Hn as [Hn|Hn].
      * assert (support_id s' ∈ d.*1) as Hin by (by eapply Hcov).
        subst with_entry. case_decide; [done|].
        rewrite fmap_app. apply elem_of_app. by left.
      * apply list_elem_of_singleton in Hn as ->.
        assert (s' = s) as -> by congruence.
        subst with_entry. case_decide; [done|].
        rewrite fmap_app. apply elem_of_app. right. simpl. left.
Qed.

Lemma get_unique_nodal_supports_fold h self :
  get_unique_nodal_supports support_id Conditions displacement_conditions
                            rotation_conditions h self =
  (foldl (record_support_details support_id Conditions
            displacement_conditions rotation_conditions) []
         (node_walk h self)).*2.
Proof.
  unfold get_unique_nodal_supports, node_walk, member_walk. f_equal.
  rewrite <- (foldl_mjoin
    (record_support_details support_id Conditions displacement_conditions
       rotation_conditions) (endpoints h)).
  by rewrite <- (foldl_mjoin
    (λ d l, foldl (record_support_details support_id Conditions
                     displacement_conditions rotation_conditions) d
                  (endpoints h l)) members).
Qed.

(** X19. [get_unique_nodal_supports] groups the supported endpoints by
    support: every support id occurs in one entry only, the support of
    every supported endpoint on the walk has its entry, the [node_nos] of
    an entry are exactly the ids of the endpoints on the walk held by a
    support with the entry's id, and the conditions of an entry are those
    of such a support. *)
Theorem nodal_supports_group_nodes (h : list Member) (self : FERS) :
  let result :=
    get_unique_nodal_supports support_id Conditions displacement_conditions
                              rotation_conditions h self in
  NoDup (support_no <$> result) ∧
  (∀ n s, n ∈ node_walk h self → nodal_support n = Some s →
          support_id s ∈ support_no <$> result) ∧
  (∀ e, e ∈ result →
     (∀ id, id ∈ node_nos e ↔
            ∃ n, held_by support_id (support_no e) (node_walk h self) n ∧
                 node_id n = id) ∧
     ∃ n s, n ∈ node_walk h self ∧ nodal_support n = Some s ∧
            support_id s = support_no e ∧
            displacement_conditions_of e = displacement_conditions s ∧
            rotation_conditions_of e = rotation_conditions s).
Proof.
  intros result. subst result. rewrite get_unique_nodal_supports_fold.
  destruct (record_support_details_walk (node_walk h self))
    as (Hnd & Hent & Hcov).
  set (d := foldl _ [] _) in *.
  assert (support_no <$> d.*2 = d.*1) as Hkeys.
  { rewrite <- list_fmap_compose. apply list_fmap_ext.
    intros i [k e] Hi. simpl. apply (Hent k e).
    by eapply list_elem_of_lookup_2. }
  rewrite Hkeys. split_and!; [done|done|].
  intros e He. apply list_elem_of_fmap in He as ([k e'] & -> & Hin).
  destruct (Hent k e' Hin) as (<- & H2 & H3). simpl. done.
Qed.
End SupportDetailsQuery.

Lemma set_if_absent_walk {A} (key : A → string) (xs : list A) :
  let d := foldl (λ d x, set_if_absent d (key x) x) [] xs in
  d.*1 = key <$> d.*2 ∧ NoDup d.*1 ∧
  (∀ k, k ∈ d.*1 ↔ k ∈ key <$> xs) ∧
  (∀ v, v ∈ d.*2 →
        ∃ i, xs !! i = Some v ∧
             ∀ j y, (j < i)%nat → xs !! j = Some y → key y ≠ key v).
Proof.
  induction xs as [|x xs IH] using rev_ind; intros d.
  - subst d. simpl. split_and!; [done|constructor| |].
    + intros k. split; intros H; by apply elem_of_nil in H.
    + intros v H. by apply elem_of_nil in H.
  - subst d. rewrite foldl_app. simpl.
    set (d := foldl _ [] xs) in *.
    destruct IH as (Hkeys & Hnd & Hcov & Hfirst).
    assert (∀ v, v ∈ d.*2 →
              ∃ i, (xs ++ [x]) !! i = Some v ∧
                   ∀ j y, (j < i)%nat → (xs ++ [x]) !! j = Some y →
                          key y ≠ key v) as Hfirst'.
    { intros v Hv. destruct (Hfirst v Hv) as (i & Hi & Hbefore).
      exists i. split; [by apply lookup_app_l_Some|].
      intros j y Hj Hy. apply (Hbefore j y Hj).
      rewrite lookup_app_l in Hy; [done|].
      apply lookup_lt_Some in Hi. lia. }
    unfold set_if_absent. case_decide as Hin.
    + split_and!; [done|done| |done].
      intros k. rewrite Hcov, fmap_app, elem_of_app. simpl.
      rewrite list_elem_of_singleton. split; [by left|].
      intros [?| ->]; [done|]. by apply Hcov.
    + rewrite !fmap_app. simpl. split_and!.
      * by rewrite Hkeys.
      * apply NoDup_app. split_and!; [done| |apply NoDup_singleton].
        intros k Hk Hk'. apply list_elem_of_singleton in Hk'. by subst.
      * intros k. rewrite !elem_of_app, Hcov. done.
      * intros v Hv. apply elem_of_app in Hv as [Hv|Hv]; [by apply Hfirst'|].
        apply list_elem_of_singleton in Hv as ->.
        exists (length xs). split; [by apply list_lookup_middle|].
        intros j y Hj Hy Heq. apply Hin, Hcov. rewrite <- Heq.
        rewrite lookup_app_l in Hy by done.
        apply list_elem_of_fmap. exists y. split; [done|].
        by eapply list_elem_of_lookup_2.
Qed.

Lemma names_fold {A} (f : A → string) (xs : list A) : ∀ acc : gset string,
  foldl (λ acc x, acc ∪ {[f x]}) acc xs = acc ∪ list_to_set (f <$> xs).
Proof.
  induction xs as [|x xs IH]; intros acc; simpl.
  - by rewrite (right_id_L ∅ (∪)).
  - rewrite IH. by rewrite (assoc_L (∪)).
Qed.

Section NameQueries.
Variable section_name : SectionRef → string.
Variable section_material : SectionRef → MaterialRef.
Variable material_name : MaterialRef → string.

(** X20. [get_unique_sections] keeps one section for every section name in
    use: the names of the result are pairwise distinct, they are the names
    that [get_unique_section_names] returns, and the section kept for a
    name is the one of the first member, in the order of the member sets,
    whose section has that name. *)
Theorem unique_sections_first_by_name (h : list Member) (self : FERS) :
  let walk := (λ l, section (h !!! l)) <$> member_walk self in
  let result := get_unique_sections section_name h self in
  NoDup (section_name <$> result) ∧
  list_to_set (section_name <$> result) =
    get_unique_section_names section_name h self ∧
  (∀ s, s ∈ result →
        ∃ i, walk !! i = Some s ∧
             ∀ j s', (j < i)%nat → walk !! j = Some s' →
                     section_name s' ≠ section_name s).
Proof.
  intros walk result.
  assert (result =
          (foldl (λ d x, set_if_absent d (section_name x) x) [] walk).*2)
    as ->.
  { subst result walk. unfold get_unique_sections, member_walk.
    by rewrite (foldl_mjoin _ members), foldl_fmap. }
  assert (get_unique_section_names section_name h self =
          list_to_set (section_name <$> walk)) as ->.
  { subst walk. unfold get_unique_section_names, member_walk.
    rewrite (foldl_mjoin _ members).
    rewrite <- (foldl_fmap (λ acc x, acc ∪ {[section_name x]}) ∅ _
                  (λ l, section (h !!! l))).
    by rewrite names_fold, (left_id_L ∅ (∪)). }
  destruct (set_if_absent_walk section_name walk)
    as (Hkeys & Hnd & Hcov & Hfirst).
  set (d := foldl _ [] walk) in *. rewrite <- Hkeys.
  split_and!; [done| |done].
  apply set_eq. intros k. rewrite !elem_of_list_to_set. apply Hcov.
Qed.

(** X21. [get_unique_materials] keeps one material for every material name
    in use: the names of the result are pairwise distinct, they are the
    names that [get_unique_material_names] returns, and the material kept
    for a name is the one of the first member, in the order of the member
    sets, whose section has a material of that name. *)
Theorem unique_materials_first_by_name (h : list Member) (self : FERS) :
  let walk :=
    (λ l, section_material (section (h !!! l))) <$> member_walk self in
  let result := get_unique_materials section_material material_name h self in
  NoDup (material_name <$> result) ∧
  list_to_set (material_name <$> result) =
    get_unique_material_names section_material material_name h self ∧
  (∀ m, m ∈ result →
        ∃ i, walk !! i = Some m ∧
             ∀ j m', (j < i)%nat → walk !! j = Some m' →
                     material_name m' ≠ material_name m).
Proof.
  intros walk result.
  assert (result =
          (foldl (λ d x, set_if_absent d (material_name x) x) [] walk).*2)
    as ->.
  { subst result walk. unfold get_unique_materials, member_walk.
    by rewrite (foldl_mjoin _ members), foldl_fmap. }
  assert (get_unique_material_names section_material material_name h self =
          list_to_set (material_name <$> walk)) as ->.
  { subst walk. unfold get_unique_material_names, member_walk.
    rewrite (foldl_mjoin _ members).
    rewrite <- (foldl_fmap (λ acc x, acc ∪ {[material_name x]}) ∅ _
                  (λ l, section_material (section (h !!! l)))).
    by rewrite names_fold, (left_id_L ∅ (∪)). }
  destruct (set_if_absent_walk material_name walk)
    as (Hkeys & Hnd & Hcov & Hfirst).
  set (d := foldl _ [] walk) in *. rewrite <- Hkeys.
  split_and!; [done| |done].
  apply set_eq. intros k. rewrite !elem_of_list_to_set. apply Hcov.
Qed.

Lemma index_of_last_entry (rstab_materials : list (string * Z)) name :
  foldl (λ d material, <[material.1 := material.2]> d)
        (∅ : gmap string Z) rstab_materials !! name =
  snd <$> last (filter (λ e, e.1 = name) rstab_materials).
Proof.
  induction rstab_materials as [|x xs IH] using rev_ind; [done|].
  rewrite foldl_app, filter_app. simpl. rewrite filter_cons.
  case_decide as Hx.
  - rewrite filter_nil, last_snoc. simpl. subst name.
    by rewrite lookup_insert_eq.
  - rewrite filter_nil, app_nil_r.
    by rewrite lookup_insert_ne.
Qed.

Lemma index_absent (rstab_materials : list (string * Z)) name :
  foldl (λ d material, <[material.1 := material.2]> d)
        (∅ : gmap string Z) rstab_materials !! name = None ↔
  name ∉ rstab_materials.*1.
Proof.
  rewrite index_of_last_entry, fmap_None, last_None. split.
  - intros Hnil Hin. apply list_elem_of_fmap in Hin as (e & -> & He).
    assert (e ∈ filter (λ e', e'.1 = e.1) rstab_materials) as Hin
      by (by apply list_elem_of_filter).
    rewrite Hnil in Hin. by apply elem_of_nil in Hin.
  - intros Hout. destruct (filter _ _) as [|e r] eqn:E; [done|].
    exfalso. apply Hout.
    assert (e ∈ filter (λ e', e'.1 = name) rstab_materials) as Hin
      by (rewrite E; left).
    apply list_elem_of_filter in Hin as [<- Hin].
    apply list_elem_of_fmap. by exists e.
Qed.

Lemma index_present (rstab_materials : list (string * Z)) name i :
  foldl (λ d material, <[material.1 := material.2]> d)
        (∅ : gmap string Z) rstab_materials !! name = Some i ↔
  last (filter (λ e, e.1 = name) rstab_materials) = Some (name, i).
Proof.
  rewrite index_of_last_entry, fmap_Some. split.
  - intros ([k v] & Hlast & ->). rewrite Hlast. simpl.
    assert ((k, v) ∈ filter (λ e, e.1 = name) rstab_materials) as Hin.
    { apply last_Some in Hlast as (r & ->). apply elem_of_app. right. left. }
    apply list_elem_of_filter in Hin as [Hk _]. simpl in Hk. by subst.
  - intros Hlast. by exists (name, i).
Qed.

Lemma combinations_fold (h : list Member) (idx : gmap string Z)
    (ls : list loc) (st : gset (string * string * Z) * list string) :
  let mat (l : loc) := material_name (section_material (section (h !!! l))) in
  let sec (l : loc) := section_name (section (h !!! l)) in
  foldl (λ st (l : loc),
           let member := h !!! l in
           let mat_name :=
             material_name (section_material (section member)) in
           let sec_name := section_name (section member) in
           match idx !! mat_name with
           | Some material_index =>
               (st.1 ∪ {[(sec_name, mat_name, material_index)]}, st.2)
           | None => (st.1, st.2 ++ [mat_name])
           end) st ls =
  (st.1 ∪ list_to_set
            (omap (λ l, (λ i, (sec l, mat l, i)) <$> idx !! mat l) ls),
   st.2 ++ filter (λ name, idx !! name = None) (mat <$> ls)).
Proof.
  revert st. induction ls as [|l r IH]; intros st mat sec.
  - simpl. rewrite (right_id_L ∅ (∪)), app_nil_r. by destruct st.
  - simpl. rewrite IH. fold mat sec. subst mat sec. simpl.
    rewrite filter_cons.
    destruct (idx !! material_name (section_material (section (h !!! l))))
      as [i|] eqn:E; simpl.
    + f_equal. by rewrite (assoc_L (∪)).
    + f_equal. by rewrite <- (assoc_L (++)).
Qed.

(** X22. [get_unique_section_material_combinations] returns the triples of
    the members whose material name has an entry in [rstab_materials], the
    index being that of the last entry with the name; it warns once, in
    order, for every member whose material name has no entry, and such a
    member adds no triple. *)
Theorem section_material_combinations (h : list Member) (self : FERS)
    (rstab_materials : list (string * Z)) :
  let mat (l : loc) := material_name (section_material (section (h !!! l))) in
  let sec (l : loc) := section_name (section (h !!! l)) in
  let out :=
    get_unique_section_material_combinations section_name section_material
      material_name h self rstab_materials in
  (∀ s m i, (s, m, i) ∈ out.1 ↔
            ∃ l, l ∈ member_walk self ∧ sec l = s ∧ mat l = m ∧
                 last (filter (λ e, e.1 = m) rstab_materials) = Some (m, i)) ∧
  out.2 = filter (λ name, name ∉ rstab_materials.*1)
                 (mat <$> member_walk self).
Proof.
  intros mat sec out.
  set (idx := foldl (λ d material, <[material.1 := material.2]> d)
                    (∅ : gmap string Z) rstab_materials).
  assert (out =
          (∅ ∪ list_to_set
                 (omap (λ l, (λ i, (sec l, mat l, i)) <$> idx !! mat l)
                       (member_walk self)),
           [] ++ filter (λ name, idx !! name = None)
                        (mat <$> member_walk self))) as ->.
  { subst out. unfold get_unique_section_material_combinations, member_walk.
    cbv zeta. rewrite (foldl_mjoin _ members).
    exact (combinations_fold h idx _ (∅, [])). }
  simpl. split.
  - intros s m i. rewrite (left_id_L ∅ (∪)), elem_of_list_to_set.
    rewrite list_elem_of_omap. split.
    + intros (l & Hl & Hsome).
      apply fmap_Some in Hsome as (i' & Hidx & [= Hs Hm Hi]).
      subst s m i'. exists l. split_and!; [done..|]. by apply index_present.
    + intros (l & Hl & <- & <- & Hlast). exists l. split; [done|].
      apply index_present in Hlast. fold idx in Hlast. by rewrite Hlast.
  - apply list_filter_iff. intros name. apply index_absent.
Qed.
End NameQueries.

Lemma word_then_newline_match (is_word_char : ascii → bool) (w : string) :
  pure_word_token is_word_char w = true →
  match_word_token is_word_char (w +:+ String "010" EmptyString) = true.
Proof.
  destruct w as [|c w]; simpl; [done|].
  intros H. apply andb_prop in H as [Hc Hw]. rewrite Hc. simpl.
  clear c Hc. induction w as [|c w IH]; simpl; [done|].
  simpl in Hw. apply andb_prop in Hw as [Hc Hw].
  rewrite Hc, (IH Hw). simpl. apply orb_true_r.
Qed.

Section TokenLookup.
Variable is_word_char : ascii → bool.
Variable Pattern : Type.
Variable re_compile : string → option Pattern.
Variable re_search : Pattern → string → bool.

(** X23. With a filter that is a word-character token, the lookup returns,
    in the order of the model, the member sets whose classification holds
    the filter as a substring: the classification is some text, then the
    filter, then some text.  The expression engine is not consulted. *)
Theorem token_lookup_selects_substrings (self : FERS) (pattern : string) :
  pure_word_token is_word_char pattern = true →
  ∃ result,
    get_membersets_by_classification is_word_char Pattern re_compile
                                     re_search self pattern = Ok result ∧
    sublist result (member_sets self) ∧
    ∀ member_set,
      member_set ∈ result ↔
      member_set ∈ member_sets self ∧
      ∃ pre post, classification member_set = pre +:+ pattern +:+ post.
Proof.
  intros Htoken. unfold get_membersets_by_classification.
  rewrite (pure_word_token_match _ _ Htoken).
  eexists. split; [done|]. split; [apply sublist_filter|].
  intros member_set. rewrite list_elem_of_filter, contains_append. tauto.
Qed.

(** X24. A word-character token followed by one newline is taken as a
    token too: the lookup selects by substring, with the newline as part
    of the needle, and does not compile the filter. *)
Theorem token_with_newline_is_not_compiled (self : FERS) (w : string) :
  pure_word_token is_word_char w = true →
  let pattern := w +:+ String "010" EmptyString in
  get_membersets_by_classification is_word_char Pattern re_compile
                                   re_search self pattern =
  Ok (filter (λ member_set,
                contains pattern (classification member_set) = true)
             (member_sets self)).
Proof.
  intros Htoken pattern. unfold get_membersets_by_classification.
  subst pattern. by rewrite (word_then_newline_match _ _ Htoken).
Qed.
End TokenLookup.

(** * Closed instances *)

Lemma beam_walk_ids (P : Node → Node → Prop) :
  (∀ n, P n n) →
  ∀ n n', n ∈ [Beam.n1; Beam.n2; Beam.n2; Beam.n3] →
          n' ∈ [Beam.n1; Beam.n2; Beam.n2; Beam.n3] →
          node_id n = node_id n' → P n n'.
Proof.
  intros Hrefl n n' Hn Hn' Hid.
  repeat (apply elem_of_cons in Hn as [->|Hn]);
    try (by apply elem_of_nil in Hn);
    repeat (apply elem_of_cons in Hn' as [->|Hn']);
    try (by apply elem_of_nil in Hn'); try apply Hrefl; discriminate Hid.
Qed.

Lemma beam_id_consistent :
  id_consistent (node_walk (heap Beam.world) Beam.model).
Proof. intros n n'. apply (beam_walk_ids (λ n n', n = n')). done. Qed.

Lemma oriented_id_consistent :
  id_consistent (node_walk (heap Oriented.world) Oriented.model).
Proof.
  intros n n' Hn Hn' Hid.
  change (node_walk (heap Oriented.world) Oriented.model)
    with [Oriented.n1; Oriented.n2; Oriented.n2; Oriented.n3] in Hn, Hn'.
  repeat (apply elem_of_cons in Hn as [->|Hn]);
    try (by apply elem_of_nil in Hn);
    repeat (apply elem_of_cons in Hn' as [->|Hn']);
    try (by apply elem_of_nil in Hn'); try reflexivity; discriminate Hid.
Qed.

Lemma oriented_no_dangling l rn :
  ¬ dangling_reference_node (heap Oriented.world) Oriented.model l rn.
Proof.
  intros (Hl & Hrn & Hout). apply Hout. clear Hout.
  change (member_walk Oriented.model) with [0%nat; 1%nat] in Hl.
  apply elem_of_cons in Hl as [->|Hl].
  - injection Hrn as <-. vm_compute. do 2 right. left.
  - apply elem_of_cons in Hl as [->|Hl]; [discriminate Hrn|].
    by apply elem_of_nil in Hl.
Qed.

Lemma beam_support_ids_apart :
  support_ids_apart (λ s : SupportRef, s)
                    (node_walk (heap Beam.world) Beam.model).
Proof.
  intros n n' s Hn Hn' Hs Hs'.
  change (node_walk (heap Beam.world) Beam.model)
    with [Beam.n1; Beam.n2; Beam.n2; Beam.n3] in Hn, Hn'.
  repeat (apply elem_of_cons in Hn as [->|Hn]);
    try (by apply elem_of_nil in Hn); try discriminate Hs;
    injection Hs as <-;
    repeat (apply elem_of_cons in Hn' as [->|Hn']);
    try (by apply elem_of_nil in Hn'); try (by destruct Hs' as [? [=]]);
    done.
Qed.

(** [create_member_set_chains_nodes] on the three nodes of the beam, one unit
    apart along x. *)
Lemma create_member_set_chains_nodes_witness :
  (no_zero_length (Beam.n1 :: default [] (Some [Beam.n2]) ++
                   [Beam.n3])) ∧
  (let node_list :=
     Beam.n1 :: default [] (Some [Beam.n2]) ++ [Beam.n3] in
   let n := length (default [] (Some [Beam.n2])) in
   ∃ new_set w',
     create_member_set Beam.n1 Beam.n3 5 (Some [Beam.n2]) "beam" None
                       None None (Some 3) None Beam.world = Ok (new_set, w') ∧
     members new_set = seq (length (heap Beam.world)) (S n) ∧
     classification new_set = "beam" ∧ L_y new_set = (Some 3) ∧ L_z new_set =
         None ∧
     length (heap w') = (length (heap Beam.world) + S n)%nat ∧
     (∀ l, (l < length (heap Beam.world))%nat → heap w' !!! l = heap Beam.world
         !!! l) ∧
     (∀ k : nat, (k ≤ n)%nat →
        let m := heap w' !!! (length (heap Beam.world) + k)%nat in
        Some (start_node m) = node_list !! k ∧
        Some (end_node m) = node_list !! S k ∧
        section m = 5 ∧ member_classification m = "beam" ∧
        rotation_angle m = None ∧ chi m = None ∧ reference_member m = None ∧
        start_hinge m = None ∧ end_hinge m = None ∧
        reference_node m = None) ∧
     (∀ k : nat, (k < n)%nat →
        end_node (heap w' !!! (length (heap Beam.world) + k)%nat) =
        start_node (heap w' !!! (length (heap Beam.world) + S k)%nat))).
Proof.
  assert (no_zero_length (Beam.n1 :: default [] (Some [Beam.n2]) ++
                     [Beam.n3])) as H0.
  { intros k a b Ha Hb [Hx _].
    destruct k as [|[|[|k]]]; simpl in Ha, Hb; try discriminate;
      injection Ha as <-; injection Hb as <-; vm_compute in Hx;
      discriminate. }
  split; [exact H0|].
  exact (create_member_set_chains_nodes Beam.n1 Beam.n3 5 (Some [Beam.n2])
      "beam" None None None (Some 3) None Beam.world H0).
Defined.

(** [translate_member_set_round_trip] on the set of the beam, moved by ten
    along x and back. *)
Lemma translate_member_set_round_trip_witness :
  (Forall (λ l, (l < length (heap Beam.world))%nat) (members Beam.member_set)) ∧
  (∃ there w1 back w2,
     translate_member_set Beam.member_set (10, 0, 0) Beam.world = Ok (there,
         w1) ∧
     translate_member_set there (opposite (10, 0, 0)) w1 = Ok (back, w2) ∧
     Forall2 (λ l l',
                let m := heap Beam.world !!! l in
                let m' := heap w2 !!! l' in
                there_and_back (10, 0, 0) (start_node m) (start_node m') ∧
                there_and_back (10, 0, 0) (end_node m) (end_node m') ∧
                nodal_support (start_node m') = nodal_support (start_node m) ∧
                nodal_support (end_node m') = nodal_support (end_node m))
             (members Beam.member_set) (members back)).
Proof.
  assert (Forall (λ l, (l < length (heap Beam.world))%nat) (members
      Beam.member_set)) as H0.
  { simpl. repeat constructor. }
  split; [exact H0|].
  exact (translate_member_set_round_trip Beam.member_set (10, 0, 0) Beam.world
      H0).
Defined.

(** [translate_member_set_keeps_and_drops] on the set of the beam, whose second
    member has a reference member and whose set has group lengths. *)
Lemma translate_member_set_keeps_and_drops_witness :
  (Forall (λ l, (l < length (heap Beam.world))%nat) (members Beam.member_set)) ∧
  (∃ new_set w',
     translate_member_set Beam.member_set (10, 0, 0) Beam.world = Ok (new_set,
         w') ∧
     classification new_set = classification Beam.member_set ∧
     L_y new_set = None ∧ L_z new_set = None ∧
     (∀ l, (l < length (heap Beam.world))%nat → heap w' !!! l = heap Beam.world
         !!! l) ∧
     Forall2 (λ l l',
                let m := heap Beam.world !!! l in
                let m' := heap w' !!! l' in
                section m' = section m ∧
                member_classification m' = member_classification m ∧
                nodal_support (start_node m') = nodal_support (start_node m) ∧
                nodal_support (end_node m') = nodal_support (end_node m) ∧
                node_classification (start_node m') = None ∧
                node_classification (end_node m') = None ∧
                start_hinge m' = None ∧ end_hinge m' = None ∧
                rotation_angle m' = None ∧ chi m' = None ∧
                reference_member m' = None ∧ reference_node m' = None)
             (members Beam.member_set) (members new_set)).
Proof.
  assert (Forall (λ l, (l < length (heap Beam.world))%nat) (members
      Beam.member_set)) as H0.
  { simpl. repeat constructor. }
  split; [exact H0|].
  exact (translate_member_set_keeps_and_drops Beam.member_set (10, 0, 0)
      Beam.world H0).
Defined.

(** [translate_model_keeps_and_drops] on the oriented beam, whose first member
    has a rotation angle, chi and a reference node. *)
Lemma translate_model_keeps_and_drops_witness :
  (wf_model (heap Oriented.world) Oriented.model) ∧
  (∃ new_model w',
     translate_model Oriented.model (10, 0, 0) Oriented.world = Ok (new_model,
         w') ∧
     Forall2 (λ o n,
                let m := heap Oriented.world !!! o in
                let m' := heap w' !!! n in
                section m' = section m ∧
                start_hinge m' = start_hinge m ∧
                end_hinge m' = end_hinge m ∧
                member_classification m' = member_classification m ∧
                rotation_angle m' = None ∧ chi m' = None ∧
                reference_member m' = None ∧ reference_node m' = None)
             (member_walk Oriented.model) (member_walk new_model)).
Proof.
  assert (wf_model (heap Oriented.world) Oriented.model) as H0.
  { unfold wf_model. simpl. repeat constructor. }
  split; [exact H0|].
  exact (translate_model_keeps_and_drops Oriented.model (10, 0, 0)
      Oriented.world H0).
Defined.

(** [translate_model_creates_and_preserves] on the beam: three nodes, two
    members, one set. *)
Lemma translate_model_creates_and_preserves_witness :
  (wf_model (heap Beam.world) Beam.model) ∧
  (∃ new_model w',
     translate_model Beam.model (10, 0, 0) Beam.world = Ok (new_model, w') ∧
     length (member_sets new_model) = length (member_sets Beam.model) ∧
     node_counter w' =
       node_counter Beam.world + Z.of_nat (number_of_nodes (heap Beam.world)
           Beam.model) ∧
     length (heap w') = (length (heap Beam.world) + length (member_walk
         Beam.model))%nat ∧
     member_walk new_model =
       seq (length (heap Beam.world)) (length (member_walk Beam.model)) ∧
     (∀ l, (l < length (heap Beam.world))%nat → heap w' !!! l = heap Beam.world
         !!! l)).
Proof.
  assert (wf_model (heap Beam.world) Beam.model) as H0.
  { unfold wf_model. simpl. repeat constructor. }
  split; [exact H0|].
  exact (translate_model_creates_and_preserves Beam.model (10, 0, 0) Beam.world
      H0).
Defined.

(** [translate_model_moves_endpoints] on the beam, moved by ten along x. *)
Lemma translate_model_moves_endpoints_witness :
  (wf_model (heap Beam.world) Beam.model) ∧
  (id_consistent (node_walk (heap Beam.world) Beam.model)) ∧
  (∃ new_model w',
     translate_model Beam.model (10, 0, 0) Beam.world = Ok (new_model, w') ∧
     Forall2 (λ o n,
                translated_by (10, 0, 0) (start_node (heap Beam.world !!! o))
                              (start_node (heap w' !!! n)) ∧
                translated_by (10, 0, 0) (end_node (heap Beam.world !!! o))
                              (end_node (heap w' !!! n)))
             (member_walk Beam.model) (member_walk new_model)).
Proof.
  assert (wf_model (heap Beam.world) Beam.model) as H0.
  { unfold wf_model. simpl. repeat constructor. }
  assert (id_consistent (node_walk (heap Beam.world) Beam.model)) as H1.
  { exact beam_id_consistent. }
  split; [exact H0|].
  split; [exact H1|].
  exact (translate_model_moves_endpoints Beam.model (10, 0, 0) Beam.world H0
      H1).
Defined.

(** [translate_model_round_trip] on the beam, moved by ten along x and back. *)
Lemma translate_model_round_trip_witness :
  (wf_model (heap Beam.world) Beam.model) ∧
  (id_consistent (node_walk (heap Beam.world) Beam.model)) ∧
  (∃ there w1 back w2,
     translate_model Beam.model (10, 0, 0) Beam.world = Ok (there, w1) ∧
     translate_model there (opposite (10, 0, 0)) w1 = Ok (back, w2) ∧
     Forall2 (λ o n,
                there_and_back (10, 0, 0) (start_node (heap Beam.world !!! o))
                               (start_node (heap w2 !!! n)) ∧
                there_and_back (10, 0, 0) (end_node (heap Beam.world !!! o))
                               (end_node (heap w2 !!! n)))
             (member_walk Beam.model) (member_walk back)).
Proof.
  assert (wf_model (heap Beam.world) Beam.model) as H0.
  { unfold wf_model. simpl. repeat constructor. }
  assert (id_consistent (node_walk (heap Beam.world) Beam.model)) as H1.
  { exact beam_id_consistent. }
  split; [exact H0|].
  split; [exact H1|].
  exact (translate_model_round_trip Beam.model (10, 0, 0) Beam.world H0 H1).
Defined.

(** [copies_keep_member_attributes] on the oriented beam with two copies. *)
Lemma copies_keep_member_attributes_witness :
  (wf_model (heap Oriented.world) Oriented.model) ∧
  ((∀ l rn, ¬ dangling_reference_node (heap Oriented.world) Oriented.model l
      rn)) ∧
  (∃ combined w' chunks,
     create_combined_model_pattern Oriented.model 3 (10, 0, 0) Oriented.world =
         Ok (combined, w') ∧
     member_sets combined = member_sets Oriented.model ++ mjoin chunks ∧
     length chunks = Z.to_nat (3 - 1) ∧
     Forall (λ chunk,
               Forall2 (λ o n,
                          let m := heap Oriented.world !!! o in
                          let m' := heap w' !!! n in
                          section m' = section m ∧
                          start_hinge m' = start_hinge m ∧
                          end_hinge m' = end_hinge m ∧
                          member_classification m' = member_classification m ∧
                          rotation_angle m' = rotation_angle m ∧
                          chi m' = chi m)
                       (member_walk Oriented.model) (mjoin (members <$> chunk)))
            chunks).
Proof.
  assert (wf_model (heap Oriented.world) Oriented.model) as H0.
  { unfold wf_model. simpl. repeat constructor. }
  assert ((∀ l rn, ¬ dangling_reference_node (heap Oriented.world)
      Oriented.model l rn)) as H1.
  { exact oriented_no_dangling. }
  split; [exact H0|].
  split; [exact H1|].
  exact (copies_keep_member_attributes Oriented.model 3 (10, 0, 0)
      Oriented.world H0 H1).
Defined.

(** [copies_are_spaced] on the oriented beam with two copies, ten apart along
    x. *)
Lemma copies_are_spaced_witness :
  (wf_model (heap Oriented.world) Oriented.model) ∧
  ((∀ l rn, ¬ dangling_reference_node (heap Oriented.world) Oriented.model l
      rn)) ∧
  (id_consistent (node_walk (heap Oriented.world) Oriented.model)) ∧
  (∃ combined w' chunks,
     create_combined_model_pattern Oriented.model 3 (10, 0, 0) Oriented.world =
         Ok (combined, w') ∧
     member_sets combined = member_sets Oriented.model ++ mjoin chunks ∧
     length chunks = Z.to_nat (3 - 1) ∧
     ∀ (p : nat) chunk, chunks !! p = Some chunk →
       Forall2 (λ o n,
                  node_copy (scaled (10, 0, 0) (1 + Z.of_nat p))
                            (start_node (heap Oriented.world !!! o))
                            (start_node (heap w' !!! n)) ∧
                  node_copy (scaled (10, 0, 0) (1 + Z.of_nat p))
                            (end_node (heap Oriented.world !!! o))
                            (end_node (heap w' !!! n)))
               (member_walk Oriented.model) (mjoin (members <$> chunk))).
Proof.
  assert (wf_model (heap Oriented.world) Oriented.model) as H0.
  { unfold wf_model. simpl. repeat constructor. }
  assert ((∀ l rn, ¬ dangling_reference_node (heap Oriented.world)
      Oriented.model l rn)) as H1.
  { exact oriented_no_dangling. }
  assert (id_consistent (node_walk (heap Oriented.world) Oriented.model)) as H2.
  { exact oriented_id_consistent. }
  split; [exact H0|].
  split; [exact H1|].
  split; [exact H2|].
  exact (copies_are_spaced Oriented.model 3 (10, 0, 0) Oriented.world H0 H1 H2).
Defined.

(** [copies_resolve_reference_node] on the oriented beam, whose first member is
    oriented by node 3. *)
Lemma copies_resolve_reference_node_witness :
  (wf_model (heap Oriented.world) Oriented.model) ∧
  ((∀ l rn, ¬ dangling_reference_node (heap Oriented.world) Oriented.model l
      rn)) ∧
  (∃ combined w' chunks,
     create_combined_model_pattern Oriented.model 3 (10, 0, 0) Oriented.world =
         Ok (combined, w') ∧
     member_sets combined = member_sets Oriented.model ++ mjoin chunks ∧
     length chunks = Z.to_nat (3 - 1) ∧
     ∀ (p : nat) chunk, chunks !! p = Some chunk →
       Forall2 (λ o n,
                  match reference_node (heap Oriented.world !!! o) with
                  | None => reference_node (heap w' !!! n) = None
                  | Some rn =>
                      ∃ rn',
                        reference_node (heap w' !!! n) = Some rn' ∧
                        (id_consistent (mentioned_nodes (heap Oriented.world)
                            Oriented.model) →
                         node_copy (scaled (10, 0, 0) (1 + Z.of_nat p)) rn rn')
                             ∧
                        Forall2 (λ o2 n2,
                                   (start_node (heap Oriented.world !!! o2) =
                                       rn →
                                    start_node (heap w' !!! n2) = rn') ∧
                                   (end_node (heap Oriented.world !!! o2) = rn →
                                    end_node (heap w' !!! n2) = rn'))
                                (member_walk Oriented.model) (mjoin (members
                                    <$> chunk))
                  end)
               (member_walk Oriented.model) (mjoin (members <$> chunk))).
Proof.
  assert (wf_model (heap Oriented.world) Oriented.model) as H0.
  { unfold wf_model. simpl. repeat constructor. }
  assert ((∀ l rn, ¬ dangling_reference_node (heap Oriented.world)
      Oriented.model l rn)) as H1.
  { exact oriented_no_dangling. }
  split; [exact H0|].
  split; [exact H1|].
  exact (copies_resolve_reference_node Oriented.model 3 (10, 0, 0)
      Oriented.world H0 H1).
Defined.

(** [replication_creates_and_preserves] on the oriented beam with two copies. *)
Lemma replication_creates_and_preserves_witness :
  (wf_model (heap Oriented.world) Oriented.model) ∧
  ((∀ l rn, ¬ dangling_reference_node (heap Oriented.world) Oriented.model l
      rn)) ∧
  (let C := Z.to_nat (3 - 1) in
   ∃ combined w',
     create_combined_model_pattern Oriented.model 3 (10, 0, 0) Oriented.world =
         Ok (combined, w') ∧
     take (length (member_sets Oriented.model)) (member_sets combined) =
       member_sets Oriented.model ∧
     length (member_sets combined) =
       (length (member_sets Oriented.model) + C * length (member_sets
           Oriented.model))%nat ∧
     node_counter w' =
       node_counter Oriented.world + Z.of_nat (C * number_of_nodes (heap
           Oriented.world) Oriented.model) ∧
     length (heap w') =
       (length (heap Oriented.world) + C * length (member_walk
           Oriented.model))%nat ∧
     (∀ l, (l < length (heap Oriented.world))%nat → heap w' !!! l = heap
         Oriented.world !!! l)).
Proof.
  assert (wf_model (heap Oriented.world) Oriented.model) as H0.
  { unfold wf_model. simpl. repeat constructor. }
  assert ((∀ l rn, ¬ dangling_reference_node (heap Oriented.world)
      Oriented.model l rn)) as H1.
  { exact oriented_no_dangling. }
  split; [exact H0|].
  split; [exact H1|].
  exact (replication_creates_and_preserves Oriented.model 3 (10, 0, 0)
      Oriented.world H0 H1).
Defined.

(** [replication_with_no_copy] on the beam with a count of zero. *)
Lemma replication_with_no_copy_witness :
  (0 ≤ 1) ∧
  (∃ combined,
     create_combined_model_pattern Beam.model 0 (10, 0, 0) Beam.world = Ok
         (combined, Beam.world) ∧
     member_sets combined = member_sets Beam.model).
Proof.
  assert (0 ≤ 1) as H0.
  { lia. }
  split; [exact H0|].
  exact (replication_with_no_copy Beam.model 0 (10, 0, 0) Beam.world H0).
Defined.

(** [first_copy_reference_members] on the oriented beam, whose second member
    refers to the first. *)
Lemma first_copy_reference_members_witness :
  (wf_model (heap Oriented.world) Oriented.model) ∧
  ((∀ l rn, ¬ dangling_reference_node (heap Oriented.world) Oriented.model l
      rn)) ∧
  (2 ≤ 3) ∧
  (NoDup (member_walk Oriented.model)) ∧
  (∃ combined w' chunks first_copy,
     create_combined_model_pattern Oriented.model 3 (10, 0, 0) Oriented.world =
         Ok (combined, w') ∧
     member_sets combined = member_sets Oriented.model ++ mjoin chunks ∧
     chunks !! 0%nat = Some first_copy ∧
     Forall2 set_copy (member_sets Oriented.model) first_copy ∧
     ∀ (k kr : nat) o r n d,
       member_walk Oriented.model !! k = Some o →
       member_walk Oriented.model !! kr = Some r →
       mjoin (members <$> first_copy) !! k = Some n →
       mjoin (members <$> first_copy) !! kr = Some d →
       reference_member (heap Oriented.world !!! o) = Some r →
       reference_member (heap w' !!! n) = Some d).
Proof.
  assert (wf_model (heap Oriented.world) Oriented.model) as H0.
  { unfold wf_model. simpl. repeat constructor. }
  assert ((∀ l rn, ¬ dangling_reference_node (heap Oriented.world)
      Oriented.model l rn)) as H1.
  { exact oriented_no_dangling. }
  assert (2 ≤ 3) as H2.
  { lia. }
  assert (NoDup (member_walk Oriented.model)) as H3.
  { apply (bool_decide_unpack _). vm_compute. exact I. }
  split; [exact H0|].
  split; [exact H1|].
  split; [exact H2|].
  split; [exact H3|].
  exact (first_copy_reference_members Oriented.model 3 (10, 0, 0)
      Oriented.world H0 H1 H2 H3).
Defined.

(** [nodal_support_dict_is_keyed_by_node] on the beam, whose node 1 is held by
    support 7, with the support's number as its id. *)
Lemma nodal_support_dict_is_keyed_by_node_witness :
  (support_ids_apart (λ s : SupportRef, s) (node_walk (heap Beam.world)
      Beam.model)) ∧
  (id_consistent (node_walk (heap Beam.world) Beam.model)) ∧
  ((∀ n, n ∈ node_walk (heap Beam.world) Beam.model →
         get_unique_nodal_support (λ s : SupportRef, s) (heap Beam.world)
             Beam.model !! node_id n =
         nodal_support n) ∧
   (∀ k, is_Some (get_unique_nodal_support (λ s : SupportRef, s) (heap
       Beam.world) Beam.model !! k) →
         ∃ n, n ∈ node_walk (heap Beam.world) Beam.model ∧ node_id n = k ∧
              is_Some (nodal_support n))).
Proof.
  assert (support_ids_apart (λ s : SupportRef, s) (node_walk (heap Beam.world)
      Beam.model)) as H0.
  { exact beam_support_ids_apart. }
  assert (id_consistent (node_walk (heap Beam.world) Beam.model)) as H1.
  { exact beam_id_consistent. }
  split; [exact H0|].
  split; [exact H1|].
  exact (nodal_support_dict_is_keyed_by_node (λ s : SupportRef, s) (heap
      Beam.world) Beam.model H0 H1).
Defined.

(** [token_lookup_selects_substrings] on the beam, whose set is classified
    [beam], with the filter [ea]. *)
Lemma token_lookup_selects_substrings_witness :
  (pure_word_token ascii_word_char "ea" = true) ∧
  (∃ result,
     get_membersets_by_classification ascii_word_char string literal_compile
                                      contains Beam.model "ea" = Ok result ∧
     sublist result (member_sets Beam.model) ∧
     ∀ member_set,
       member_set ∈ result ↔
       member_set ∈ member_sets Beam.model ∧
       ∃ pre post, classification member_set = pre +:+ "ea" +:+ post).
Proof.
  assert (pure_word_token ascii_word_char "ea" = true) as H0.
  { reflexivity. }
  split; [exact H0|].
  exact (token_lookup_selects_substrings ascii_word_char string literal_compile
      contains Beam.model "ea" H0).
Defined.

(** [token_with_newline_is_not_compiled] on the beam with the token [beam]. *)
Lemma token_with_newline_is_not_compiled_witness :
  (pure_word_token ascii_word_char "beam" = true) ∧
  (let pattern := "beam" +:+ String "010" EmptyString in
   get_membersets_by_classification ascii_word_char string literal_compile
                                    contains Beam.model pattern =
   Ok (filter (λ member_set,
                 contains pattern (classification member_set) = true)
              (member_sets Beam.model))).
Proof.
  assert (pure_word_token ascii_word_char "beam" = true) as H0.
  { reflexivity. }
  split; [exact H0|].
  exact (token_with_newline_is_not_compiled ascii_word_char string
      literal_compile contains Beam.model "beam" H0).
Defined.
